(** * Timsort (klin-h/Timsort-in-cpp, src/mian.cpp): model and properties

    The C++ routine sorts a random-access range in place.  The model below
    follows the source procedure by procedure:

    - the range [first, last) is a list updated by index ([arr]);
    - the merge buffer and the run stack are the two vectors of
      [timsortImpl], kept in the same state record;
    - [int] values are integers of 32 bits; the only place where a value can
      leave the range of [int] is the cast of the element count at the entry of
      [timsortImpl], which is modelled with its wrap-around; every other [int]
      of the sort is an index between 0 and that count, and is a [nat];
    - [std::move] leaves its source in a moved-from state, given by the
      function [moved] (the identity for [int] and the like, an empty object
      for containers and smart pointers);
    - [*it] is a reference to the element or, for [std::vector<bool>], a
      proxy that aliases it ([access]); the two differ at the key of the
      insertion sort;
    - loops are [while] loops with fuel: running out of fuel and reading or
      writing out of range both give [None].

    The quickSort of src/test.cpp, which the benchmark runs against the
    same ranges, and the generator of its reversed data are modelled in the
    same way. *)

From Stdlib Require Import ZArith Lia List Sorted Bool.
From stdpp Require Import base numbers list sorting.

Local Open Scope Z_scope.

(** ** Integers of type [int] *)

Definition INT_MAX : Z := 2147483647.
Definition INT_MIN : Z := -2147483648.

(** [static_cast<int>(v)]: the value modulo 2^32, in the range of [int]. *)
Definition static_cast_int (v : Z) : Z :=
  (v + 2147483648) mod 4294967296 - 2147483648.

(** ** Minimum run length (mian.cpp, lines 9 to 19) *)

Definition MIN_MERGE : Z := 32.

(** The loop [while (n >= MIN_MERGE) { r |= (n & 1); n >>= 1; }] on the pair
    (n, r).  The fuel bounds the number of tests of the loop condition. *)
Fixpoint minRunLength_loop (fuel : nat) (n r : Z) : option (Z * Z) :=
  match fuel with
  | O => None
  | S fuel' =>
      if n >=? MIN_MERGE
      then minRunLength_loop fuel' (Z.shiftr n 1) (Z.lor r (Z.land n 1))
      else Some (n, r)
  end.

(** The same loop, counting how many times its body runs (the number of
    shifts); a ghost value, used to state what the result is good for. *)
Fixpoint minRunLength_shifts (fuel : nat) (n : Z) : option nat :=
  match fuel with
  | O => None
  | S fuel' =>
      if n >=? MIN_MERGE
      then S <$> minRunLength_shifts fuel' (Z.shiftr n 1)
      else Some O
  end.

(** Each turn halves a value that is at least 32, so the loop condition is
    tested at most [log2 n] times. *)
Definition minRunLength_fuel (n : Z) : nat := S (Z.to_nat (Z.log2 n)).

Definition minRunLength (n : Z) : Z :=
  match minRunLength_loop (minRunLength_fuel n) n 0 with
  | Some (n', r) => n' + r
  | None => 0
  end.

Definition minRunShifts (n : Z) : nat :=
  default O (minRunLength_shifts (minRunLength_fuel n) n).

Local Close Scope Z_scope.

(** ** The state of one call *)

(** [struct Run { int start; int length; }] *)
Module Run.
Record t : Type := mk { start : nat; length : nat }.
End Run.
Abbreviation Run := Run.t.

(** A segment [a, b) of a list. *)
Definition slice {A : Type} (a b : nat) (l : list A) : list A :=
  take (b - a) (drop a l).

(** What a loop body asks for next: another turn, or [break]. *)
Inductive flow (L : Type) : Type :=
  | Next (x : L)
  | Break (x : L).
Arguments Next {L} x.
Arguments Break {L} x.

(** ** The iterators of the range

    For the iterators of arrays, [std::vector<T>], [std::deque<T>] and the
    like, [*it] is a reference [T&] to the element.  For
    [std::vector<bool>::iterator] it is a proxy object that aliases a bit of
    the vector ([std::_Bit_reference]): [auto key = std::move( *it)] then
    makes [key] another name of the bit, not an object with the value of the
    bit.  The elements of such a range are bits: they have two values, and a
    move of one is a copy. *)
Inductive access {A : Type} (moved : A -> A) : Type :=
  | by_reference
  | by_proxy (two_values : forall x y z : A, x = y \/ y = z \/ x = z)
             (bit_copy : forall x : A, moved x = x).

Arguments by_reference {A moved}.
Arguments by_proxy {A moved} two_values bit_copy.

(** ** Orderings, element types and inputs of the examples *)

(** [std::less<int>] on [int] elements; a move of an [int] is a copy. *)
Definition less_int : nat -> nat -> bool := Nat.ltb.

(** Pairs of [int] compared by their first component. *)
Definition by_first (a b : nat * nat) : bool := fst a <? fst b.

(** Elements of type [std::vector<int>], compared by their size; a vector
    that has been moved from is empty. *)
Definition by_size (a b : list nat) : bool := length a <? length b.
Definition emptied (_ : list nat) : list nat := [].

(** Thirty-two pairs: (1,0), then (0,1), (0,2), ... (0,31).  The first
    sixteen make one run, the last sixteen another, and the two are merged. *)
Definition tie_input : list (nat * nat) :=
  (1, 0) :: map (fun i => (0, i)) (seq 1 31).

Definition tie_output : list (nat * nat) :=
  map (fun i => (0, i)) (seq 16 16) ++ map (fun i => (0, i)) (seq 1 15) ++ [(1, 0)].

(** [std::less<int>] on [int] elements taken as integers. *)
Definition less_Z : Z -> Z -> bool := Z.ltb.

(** The data of the "Reversed Data" case of the benchmark (test.cpp, lines
    242 to 246):
    [for (int i = 0; i < (int)vec.size(); ++i) vec[i] = (int)vec.size() - i;] *)
Definition generateReversedData (vec : list Z) : list Z :=
  let n := static_cast_int (Z.of_nat (length vec)) in
  fold_left (fun v i => <[i := (n - Z.of_nat i)%Z]> v) (seq 0 (Z.to_nat n)) vec.

(** A predicate that is asymmetric and not transitive: [loses_to a b] in
    the game of rock, paper and scissors. *)
Inductive hand : Type := Rock | Paper | Scissors.

Definition loses_to (a b : hand) : bool :=
  match a, b with
  | Rock, Paper | Paper, Scissors | Scissors, Rock => true
  | _, _ => false
  end.

(** A range of [std::vector<bool>] with [std::less<bool>]: bits have two
    values and are copied by a move; [*it] is a proxy. *)
Definition less_bool (a b : bool) : bool := negb a && b.

Definition two_bits (x y z : bool) : x = y \/ y = z \/ x = z :=
  match x, y, z with
  | true, true, _ | false, false, _ => or_introl eq_refl
  | _, true, true | _, false, false => or_intror (or_introl eq_refl)
  | true, false, true | false, true, false => or_intror (or_intror eq_refl)
  end.

Definition copy_bit (x : bool) : (fun b : bool => b) x = x := eq_refl.

Definition vector_bool : access (fun b : bool => b) := by_proxy two_bits copy_bit.

(** Three ascending runs of 60, 30 and 22 elements, each below the one
    before: 112 elements, for which the minimum run length is 28. *)
Definition three_runs_input : list nat := seq 100 60 ++ seq 50 30 ++ seq 0 22.

Definition three_runs_stack : list Run :=
  [Run.mk 0 60; Run.mk 60 30; Run.mk 90 22].

Declare Scope tim_scope.
Delimit Scope tim_scope with tim.

Section Timsort.
Context {A : Type}.

(** The ordering predicate [comp], the state [moved x] in which
    [std::move] leaves an object that held [x], the value-initialised
    element [dflt] with which [resize] fills a vector, and what [*it] is for
    the iterators of the range. *)
Variable comp : A -> A -> bool.
Variable moved : A -> A.
Variable dflt : A.
Variable acc : access moved.

(** [arr] is the range [first, last); [buffer] and [runStack] are the two
    vectors of [timsortImpl].  Two ghost fields observe the run: [ncomp]
    counts the calls of the predicate, [stackLog] keeps every value the run
    stack has taken, the latest first. *)
Record state : Type := State {
  arr : list A;
  buffer : list A;
  runStack : list Run;
  ncomp : nat;
  stackLog : list (list Run)
}.

Definition set_arr (l : list A) (st : state) : state :=
  State l (buffer st) (runStack st) (ncomp st) (stackLog st).
Definition set_buffer (l : list A) (st : state) : state :=
  State (arr st) l (runStack st) (ncomp st) (stackLog st).
Definition set_runStack (s : list Run) (st : state) : state :=
  State (arr st) (buffer st) s (ncomp st) (s :: stackLog st).
Definition count_comp (st : state) : state :=
  State (arr st) (buffer st) (runStack st) (S (ncomp st)) (stackLog st).

(** *** The monad of state and failure *)

Definition M (X : Type) : Type := state -> option (X * state).

Definition ret {X : Type} (x : X) : M X := fun st => Some (x, st).

Definition bind {X Y : Type} (c : M X) (f : X -> M Y) : M Y :=
  fun st => match c st with
            | Some (x, st') => f x st'
            | None => None
            end.

Definition fail {X : Type} : M X := fun _ => None.

Notation "x ← y ; z" := (bind y (fun x => z))
  (at level 20, y at level 100, z at level 200, only parsing) : tim_scope.
Notation "' x ← y ; z" := (bind y (fun x => z))
  (at level 20, x pattern, y at level 100, z at level 200, only parsing) : tim_scope.
Notation "x ;; z" := (bind x (fun _ => z))
  (at level 100, z at level 200, only parsing, right associativity) : tim_scope.
Local Open Scope tim_scope.

(** [while (cond) body], on the local variables [x] of the loop. *)
Fixpoint while {L : Type} (fuel : nat) (cond : L -> M bool)
    (body : L -> M (flow L)) (x : L) : M L :=
  match fuel with
  | O => fail
  | S fuel' =>
      b ← cond x;
      if b : bool then
        r ← body x;
        match r with
        | Next y => while fuel' cond body y
        | Break y => ret y
        end
      else ret x
  end.

(** *** Elements and the predicate *)

(** [std::distance(first, last)] *)
Definition distance : M nat := fun st => Some (length (arr st), st).

(** Reading [*(first + i)]. *)
Definition get_at (i : nat) : M A :=
  fun st => match arr st !! i with
            | Some x => Some (x, st)
            | None => None
            end.

(** Writing [*(first + i) = x]. *)
Definition set_at (i : nat) (x : A) : M unit :=
  fun st => if i <? length (arr st)
            then Some (tt, set_arr (<[i:=x]> (arr st)) st)
            else None.

(** [std::move( *(first + i))], consumed by a move construction or a move
    assignment: the value goes to the receiver, the source stays moved-from. *)
Definition move_at (i : nat) : M A :=
  x ← get_at i; set_at i (moved x);; ret x.

(** The same three for [buffer.begin() + i]. *)
Definition buf_get (i : nat) : M A :=
  fun st => match buffer st !! i with
            | Some x => Some (x, st)
            | None => None
            end.

Definition buf_set (i : nat) (x : A) : M unit :=
  fun st => if i <? length (buffer st)
            then Some (tt, set_buffer (<[i:=x]> (buffer st)) st)
            else None.

Definition buf_move (i : nat) : M A :=
  x ← buf_get i; buf_set i (moved x);; ret x.

(** [buffer.size()] and [buffer.resize(k)]: the vector is cut to [k]
    elements or filled up to [k] with value-initialised elements. *)
Definition buffer_size : M nat := fun st => Some (length (buffer st), st).

Definition buffer_resize (k : nat) : M unit :=
  fun st => Some (tt, set_buffer (take k (buffer st) ++
                                  replicate (k - length (buffer st)) dflt) st).

(** A call [comp(a, b)]. *)
Definition call_comp (a b : A) : M bool :=
  fun st => Some (comp a b, count_comp st).

(** *** The run stack *)

Definition stack_size : M nat := fun st => Some (length (runStack st), st).

(** [runStack[i]] *)
Definition stack_at (i : nat) : M Run :=
  fun st => match runStack st !! i with
            | Some r => Some (r, st)
            | None => None
            end.

(** [runStack.back()] *)
Definition stack_back : M Run :=
  fun st => match last (runStack st) with
            | Some r => Some (r, st)
            | None => None
            end.

(** [runStack.pop_back()] *)
Definition stack_pop_back : M unit :=
  fun st => match runStack st with
            | [] => None
            | _ => Some (tt, set_runStack (removelast (runStack st)) st)
            end.

(** [runStack.push_back(r)] *)
Definition stack_push_back (r : Run) : M unit :=
  fun st => Some (tt, set_runStack (runStack st ++ [r]) st).

(** *** Algorithms of the standard library, as their usual loops *)

(** [std::move(first, last, d_first)] from the range into the buffer:
    [while (first != last) *d_first++ = std::move( *first++);] *)
Definition std_move_to_buffer (fuel : nat) (first last d_first : nat) : M unit :=
  _ ← while fuel
        (fun '(first, d_first) => ret (negb (first =? last)))
        (fun '(first, d_first) =>
           x ← move_at first;
           buf_set d_first x;;
           ret (Next (S first, S d_first)))
        (first, d_first);
  ret tt.

(** [std::move(first, last, d_first)] from the buffer into the range. *)
Definition std_move_from_buffer (fuel : nat) (first last d_first : nat) : M unit :=
  _ ← while fuel
        (fun '(first, d_first) => ret (negb (first =? last)))
        (fun '(first, d_first) =>
           x ← buf_move first;
           set_at d_first x;;
           ret (Next (S first, S d_first)))
        (first, d_first);
  ret tt.

(** [std::move_backward(first, last, d_last)]:
    [while (first != last) *(--d_last) = std::move( *(--last));] *)
Definition std_move_backward (fuel : nat) (first last d_last : nat) : M unit :=
  _ ← while fuel
        (fun '(last, d_last) => ret (negb (first =? last)))
        (fun '(last, d_last) =>
           x ← move_at (last - 1);
           set_at (d_last - 1) x;;
           ret (Next (last - 1, d_last - 1)))
        (last, d_last);
  ret tt.

(** [std::iter_swap(a, b)]: [tmp = move( *a); *a = move( *b); *b = move(tmp);] *)
Definition iter_swap (a b : nat) : M unit :=
  tmp ← move_at a;
  y ← move_at b;
  set_at a y;;
  set_at b tmp.

(** [std::reverse(first, last)] for random access iterators:
    [if (first == last) return; --last;
     while (first < last) { iter_swap(first, last); ++first; --last; }] *)
Definition std_reverse (fuel : nat) (first last : nat) : M unit :=
  if first =? last then ret tt
  else
    _ ← while fuel
          (fun '(first, last) => ret (first <? last))
          (fun '(first, last) =>
             iter_swap first last;;
             ret (Next (S first, last - 1)))
          (first, last - 1);
    ret tt.

(** [std::upper_bound(first, last, key, comp)]:
    [len = last - first;
     while (len > 0) { half = len >> 1; middle = first + half;
       if (comp(key, *middle)) len = half;
       else { first = middle + 1; len = len - half - 1; } }
     return first;] *)
Definition upper_bound (fuel : nat) (first last : nat) (key : A) : M nat :=
  '(first, _) ← while fuel
        (fun '(first, len) => ret (0 <? len))
        (fun '(first, len) =>
           let half := Nat.shiftr len 1 in
           let middle := first + half in
           x ← get_at middle;
           c ← call_comp key x;
           if c : bool then ret (Next (first, half))
           else ret (Next (S middle, len - half - 1)))
        (first, last - first);
  ret first.

(** *** binaryInsertionSort (mian.cpp, lines 22 to 34) *)

(** [auto key = std::move( *it)] (line 25).  With a reference, [key] is a
    new object that takes the value of the element, which stays moved-from.
    With a proxy, [key] aliases the slot [it] and nothing is moved; the
    result is the value that [key] converts to during the search, when the
    slot has not been written yet. *)
Definition take_key (it : nat) : M A :=
  match acc with
  | by_reference => move_at it
  | by_proxy _ _ => get_at it
  end.

(** The value that [std::move(key)] gives at line 31, after the elements
    have been shifted: the one that [key] took at line 25 for an object, the
    one that the slot [it] holds by then for a proxy. *)
Definition read_key (it : nat) (key : A) : M A :=
  match acc with
  | by_reference => ret key
  | by_proxy _ _ => get_at it
  end.

Definition binaryInsertionSort (fuel : nat) (left right : nat) : M unit :=
  _ ← while fuel
        (fun it => ret (it <? right))
        (fun it =>
           key ← take_key it;
           pos ← upper_bound fuel left it key;
           (if negb (pos =? it) then
              std_move_backward fuel pos it (it + 1);;
              key ← read_key it key;
              set_at pos key
            else ret tt);;
           ret (Next (S it)))
        (left + 1);
  ret tt.

(** *** mergeRuns (mian.cpp, lines 37 to 71) *)

(** One turn of the merge loop (lines 59 to 63): the cursors [left] into
    the buffer, [right] and [dest] into the range. *)
Definition mergeRuns_body (c : nat * nat * nat) : M (flow (nat * nat * nat)) :=
  let '(left_, right_, dest) := c in
  l ← buf_get left_;
  r ← get_at right_;
  b ← call_comp l r;
  if b : bool then
    x ← buf_move left_;
    set_at dest x;;
    ret (Next (S left_, right_, S dest))
  else
    x ← move_at right_;
    set_at dest x;;
    ret (Next (left_, S right_, S dest)).

Definition mergeRuns (fuel : nat) (start mid end_ : nat) : M unit :=
  let leftSize := mid - start in
  bsize ← buffer_size;
  (if bsize <? leftSize then buffer_resize leftSize else ret tt);;
  std_move_to_buffer fuel start mid 0;;
  let leftEnd := 0 + leftSize in
  let rightEnd := end_ in
  '(left_, right_, dest) ← while fuel
        (fun '(left_, right_, dest) =>
           ret (negb (left_ =? leftEnd) && negb (right_ =? rightEnd)))
        mergeRuns_body
        (0, mid, start);
  if negb (left_ =? leftEnd) then std_move_from_buffer fuel left_ leftEnd dest
  else ret tt.

(** *** timsortImpl (mian.cpp, lines 79 to 171) *)

(** The run detector (lines 92 to 108): the length of the run that starts
    at [start]; a descending run is reversed. *)
Definition detectRun (fuel : nat) (n start : nat) : M nat :=
  let runLen := 1 in
  if start + 1 <? n then
    a ← get_at (start + 1);
    b ← get_at start;
    c ← call_comp a b;
    if c : bool then
      runLen ← while fuel
            (fun runLen =>
               if start + runLen <? n then
                 a ← get_at (start + runLen);
                 b ← get_at (start + runLen - 1);
                 call_comp a b
               else ret false)
            (fun runLen => ret (Next (S runLen)))
            runLen;
      std_reverse fuel start (start + runLen);;
      ret runLen
    else
      while fuel
        (fun runLen =>
           if start + runLen <? n then
             a ← get_at (start + runLen);
             b ← get_at (start + runLen - 1);
             c ← call_comp a b;
             ret (negb c)
           else ret false)
        (fun runLen => ret (Next (S runLen)))
        runLen
  else ret runLen.

(** The extension of a short run (lines 111 to 115). *)
Definition extendRun (fuel : nat) (n minRun start runLen : nat) : M nat :=
  if runLen <? minRun then
    let force := Nat.min minRun (n - start) in
    binaryInsertionSort fuel start (start + force);;
    ret force
  else ret runLen.

(** The merge of the two topmost runs (lines 143 to 150 and 162 to 169). *)
Definition mergeTop (fuel : nat) : M unit :=
  run2 ← stack_back; stack_pop_back;;
  run1 ← stack_back; stack_pop_back;;
  mergeRuns fuel (Run.start run1) (Run.start run1 + Run.length run1)
    (Run.start run1 + Run.length run1 + Run.length run2);;
  stack_push_back (Run.mk (Run.start run1) (Run.length run1 + Run.length run2)).

(** The decision of lines 123 to 139. *)
Definition shouldMerge : M bool :=
  size ← stack_size;
  shouldMerge ←
    (if 3 <=? size then
       A ← stack_at (size - 3);
       B ← stack_at (size - 2);
       C ← stack_at (size - 1);
       ret (if Run.length A <=? Run.length B + Run.length C then true else false)
     else ret false);
  if negb shouldMerge && (2 <=? size) then
    B ← stack_at (size - 2);
    C ← stack_at (size - 1);
    ret (if Run.length B <=? Run.length C then true else shouldMerge)
  else ret shouldMerge.

(** The loop that follows each push (lines 121 to 154). *)
Definition mergeCollapse (fuel : nat) : M unit :=
  while fuel
    (fun _ => size ← stack_size; ret (1 <? size))
    (fun _ =>
       m ← shouldMerge;
       if m : bool then mergeTop fuel;; ret (Next tt)
       else ret (Break tt))
    tt.

(** The scan of the range (lines 90 to 157). *)
Definition scan (fuel : nat) (n minRun : nat) : M unit :=
  _ ← while fuel
        (fun start => ret (start <? n))
        (fun start =>
           runLen ← detectRun fuel n start;
           runLen ← extendRun fuel n minRun start runLen;
           stack_push_back (Run.mk start runLen);;
           mergeCollapse fuel;;
           ret (Next (start + runLen)))
        0;
  ret tt.

(** The final merges (lines 160 to 170). *)
Definition mergeForce (fuel : nat) : M unit :=
  while fuel
    (fun _ => size ← stack_size; ret (1 <? size))
    (fun _ => mergeTop fuel;; ret (Next tt))
    tt.

(** The two vectors are created empty (lines 84 and 87). *)
Definition new_vectors : M unit :=
  fun st => Some (tt, State (arr st) [] [] (ncomp st) ([] :: stackLog st)).

Definition timsortImpl (fuel : nat) : M unit :=
  d ← distance;
  let n := static_cast_int (Z.of_nat d) in
  if (n <=? 1)%Z then ret tt
  else
    let minRun := minRunLength n in
    new_vectors;;
    scan fuel (Z.to_nat n) (Z.to_nat minRun);;
    mergeForce fuel.

(** [timsort(first, last, comp)] on a range that holds [l]: the range
    after the call. *)
Definition initial (l : list A) : state := State l [] [] 0 [].

Definition timsort (fuel : nat) (l : list A) : option (list A) :=
  match timsortImpl fuel (initial l) with
  | Some (_, st) => Some (arr st)
  | None => None
  end.

(** *** quickSort (test.cpp, lines 10 to 25) *)

(** The sort that the benchmark of test.cpp compares with: the pivot is a
    copy of the last element, [std::swap] exchanges two elements by three
    moves, as [iter_swap] does, and the two recursive calls are bounded by
    the fuel.  (With the proxy of a vector of bits [pivot] aliases the last
    slot, which the loop never writes: it converts to the same value at
    every comparison.) *)
Fixpoint quickSort (fuel : nat) (first last : nat) : M unit :=
  match fuel with
  | O => fail
  | S fuel' =>
      if first <? last then
        pivot ← get_at (last - 1);
        '(i, _) ← while fuel
              (fun '(i, j) => ret (j <? last - 1))
              (fun '(i, j) =>
                 x ← get_at j;
                 c ← call_comp x pivot;
                 if c : bool then iter_swap i j;; ret (Next (S i, S j))
                 else ret (Next (i, S j)))
              (first, first);
        iter_swap i (last - 1);;
        quickSort fuel' first i;;
        quickSort fuel' (S i) last
      else ret tt
  end.

(** [quickSort(vec.begin(), vec.end(), comp)], as the benchmark calls it. *)
Definition quickSort_all (fuel : nat) (l : list A) : option (list A) :=
  match quickSort fuel 0 (length l) (initial l) with
  | Some (_, st) => Some (arr st)
  | None => None
  end.

(** ** Vocabulary of the properties *)

(** [le_ a b]: [b] is not less than [a]. *)
Definition le_ (a b : A) : Prop := comp b a = false.

(** [lt_ a b]: [a] is less than [b]. *)
Definition lt_ (a b : A) : Prop := comp a b = true.

(** A strict weak ordering: irreflexive, transitive, and with a transitive
    incomparability. *)
Record strict_weak_order : Prop := {
  swo_irrefl : forall a, comp a a = false;
  swo_trans : forall a b c, comp a b = true -> comp b c = true -> comp a c = true;
  swo_incomp : forall a b c,
    comp a b = false -> comp b a = false ->
    comp b c = false -> comp c b = false ->
    comp a c = false /\ comp c a = false
}.

(** Two neighbours of a run: the later one is less than the earlier one
    ([d] true, a descending run), or it is not ([d] false, an ascending
    run). *)
Definition run_rel (d : bool) (x y : A) : Prop := comp y x = d.

Definition asymmetric : Prop :=
  forall a b, comp a b = true -> comp b a = false.

(** Two elements are equivalent when neither is less than the other. *)
Definition eqvb (x y : A) : bool := negb (comp x y) && negb (comp y x).

(** [same_order l l']: the elements of each equivalence class come in [l']
    in the order that they have in [l]. *)
Definition same_order (l l' : list A) : Prop :=
  forall x, List.filter (eqvb x) l' = List.filter (eqvb x) l.

(** Element types for which a move is a copy. *)
Definition copyable : Prop := forall x, moved x = x.

(** The list that the merge loop produces from the two runs: the head of
    the left run goes first when the predicate holds of it and the head of
    the right run, the head of the right run otherwise. *)
Fixpoint merge_lists (l1 : list A) : list A -> list A :=
  fix merge_right (l2 : list A) : list A :=
    match l1, l2 with
    | [], _ => l2
    | _, [] => l1
    | x :: l1', y :: l2' =>
        if comp x y then x :: merge_lists l1' l2 else y :: merge_right l2'
    end.

(** The runs of a stack, from the bottom, cover [a, b) without gap, and
    none is empty. *)
Fixpoint runs_from (a : nat) (s : list Run) (b : nat) : Prop :=
  match s with
  | [] => a = b
  | r :: s' =>
      Run.start r = a /\ 1 <= Run.length r /\
      runs_from (a + Run.length r) s' b
  end.

(** The runs of a stack lie in a range of [n] elements, follow one another
    and do not overlap. *)
Definition stack_in_range (n : nat) (s : list Run) : Prop :=
  forall r, r ∈ s -> Run.start r + Run.length r <= n.

Definition stack_contiguous (s : list Run) : Prop :=
  forall i r1 r2, s !! i = Some r1 -> s !! (S i) = Some r2 ->
    Run.start r2 = Run.start r1 + Run.length r1.

Definition stack_disjoint (s : list Run) : Prop :=
  forall i j r1 r2, i < j -> s !! i = Some r1 -> s !! j = Some r2 ->
    Run.start r1 + Run.length r1 <= Run.start r2.

(** The balance of the three topmost runs. *)
Definition balanced (s : list Run) : Prop :=
  let size := length s in
  (3 <= size -> forall rA rB rC,
     s !! (size - 3) = Some rA -> s !! (size - 2) = Some rB ->
     s !! (size - 1) = Some rC ->
     Run.length rA > Run.length rB + Run.length rC) /\
  (2 <= size -> forall rB rC,
     s !! (size - 2) = Some rB -> s !! (size - 1) = Some rC ->
     Run.length rB > Run.length rC).

(** Every run of the stack is a sorted segment of the range. *)
Definition runs_sorted (l : list A) (s : list Run) : Prop :=
  Forall (fun r => Sorted le_ (slice (Run.start r) (Run.start r + Run.length r) l)) s.

(** The number [n] of elements that [timsortImpl] works on: the length of
    the range, cast to [int]; a negative value stands for no element. *)
Definition int_count (l : list A) : nat :=
  Z.to_nat (static_cast_int (Z.of_nat (length l))).

(** Every value that the run stack has taken covers a prefix of the first
    [n] elements. *)
Definition log_ok (n : nat) (lg : list (list Run)) : Prop :=
  Forall (fun s => exists b, b <= n /\ runs_from 0 s b) lg.

(** The invariant of the scan, when the first [pos] elements of the range
    that held [l0] have been cut into runs. *)
Definition driver_inv (l0 : list A) (n pos : nat) (st : state) : Prop :=
  exists pre,
    arr st = pre ++ drop pos l0 /\ length pre = pos /\
    pos <= n /\ n <= length l0 /\
    runs_from 0 (runStack st) pos /\
    log_ok n (stackLog st) /\
    (acc = by_reference -> copyable -> pre ≡ₚ take pos l0) /\
    (copyable -> asymmetric -> runs_sorted pre (runStack st)).

(** The loop of line 98 ([d] true) and the loop of line 104 ([d] false)
    stop at the end of the range or at the first element that does not
    continue the run. *)
Definition run_stops (d : bool) (n start runLen : nat) (l : list A) : Prop :=
  start + runLen < n ->
  exists x y, l !! (start + runLen) = Some x /\
              l !! (start + runLen - 1) = Some y /\ comp x y = negb d.

(** What the detector returns and what it leaves in the range. *)
Definition detected (n start : nat) (l : list A) (nc : nat)
    (runLen : nat) (l' : list A) (nc' : nat) : Prop :=
  1 <= runLen /\
  (start < n -> start + runLen <= n) /\
  (n <= start + 1 -> runLen = 1 /\ l' = l /\ nc' = nc) /\
  (start + 1 < n -> exists a b d,
     l !! (start + 1) = Some a /\ l !! start = Some b /\ comp a b = d /\
     Sorted (run_rel d) (slice start (start + runLen) l) /\
     run_stops d n start runLen l /\
     l' = if d then take start l ++ reverse (slice start (start + runLen) l) ++
                    drop (start + runLen) l
          else l).

(** Computations that leave the run stack alone. *)
Definition keeps_stack {X} (c : M X) : Prop :=
  forall st x st', c st = Some (x, st') -> runStack st' = runStack st.

(** Total correctness: the computation returns, and the result and the
    final state satisfy [Q]. *)
Definition wp {X : Type} (c : M X) (Q : X -> state -> Prop) (st : state) : Prop :=
  match c st with
  | Some (x, st') => Q x st'
  | None => False
  end.

(** Partial correctness: if the computation returns, [Q] holds. *)
Definition wlp {X : Type} (c : M X) (Q : X -> state -> Prop) (st : state) : Prop :=
  forall x st', c st = Some (x, st') -> Q x st'.


(** Computations that do not call the predicate. *)
Definition keeps_ncomp {X} (c : M X) : Prop :=
  forall st x st', c st = Some (x, st') -> ncomp st' = ncomp st.

(** The number of binary digits of [len]: the number of turns that a
    binary search takes on a range of [len] elements. *)
Definition digits (len : nat) : nat :=
  if len =? 0 then 0 else S (Nat.log2 len).
(** ** Rules of the two logics *)

Lemma wp_ret {X} (x : X) Q st : Q x st -> wp (ret x) Q st.
Proof. done. Qed.

Lemma wp_bind {X Y} (c : M X) (f : X -> M Y) Q st :
  wp c (fun x st' => wp (f x) Q st') st -> wp (bind c f) Q st.
Proof. unfold wp, bind. destruct (c st) as [[x st']|]; done. Qed.

Lemma wp_bind_assoc {X Y Z} (c : M X) (f : X -> M Y) (g : Y -> M Z) Q st :
  wp (bind (bind c f) g) Q st -> wp (bind c (fun x => bind (f x) g)) Q st.
Proof. unfold wp, bind. by destruct (c st) as [[x st']|]. Qed.

Lemma wp_mono {X} (c : M X) (Q Q' : X -> state -> Prop) st :
  wp c Q st -> (forall x st', Q x st' -> Q' x st') -> wp c Q' st.
Proof. unfold wp. destruct (c st) as [[x st']|]; [|done]. auto. Qed.

Lemma wp_eq {X} (c : M X) Q st :
  wp c Q st -> exists x st', c st = Some (x, st') /\ Q x st'.
Proof. unfold wp. destruct (c st) as [[x st']|]; [|done]. eauto. Qed.

Lemma wp_intro {X} (c : M X) (Q : X -> state -> Prop) st x st' :
  c st = Some (x, st') -> Q x st' -> wp c Q st.
Proof. unfold wp. intros ->. done. Qed.

(** The rule of the loop: an invariant [I] and a variant [v] smaller than
    the fuel. *)
Lemma wp_while {L} (I : L -> state -> Prop) (v : L -> state -> nat)
    (Q : L -> state -> Prop) (cond : L -> M bool) (body : L -> M (flow L)) :
  (forall x st, I x st ->
     wp (cond x) (fun (b : bool) st' =>
       if b then
         wp (body x) (fun r st'' =>
           match r with
           | Next y => I y st'' /\ v y st'' < v x st
           | Break y => Q y st''
           end) st'
       else Q x st') st) ->
  forall fuel x st, I x st -> v x st < fuel ->
    wp (while fuel cond body x) Q st.
Proof.
  intros Hstep fuel. induction fuel as [|fuel IH]; intros x st HI Hv; [lia|].
  cbn [while]. apply wp_bind. eapply wp_mono; [by apply Hstep|].
  intros [|] st' Hb; [|by apply wp_ret].
  apply wp_bind. eapply wp_mono; [exact Hb|].
  intros [y|y] st'' Hr; [|by apply wp_ret].
  destruct Hr as [HI' Hv']. apply IH; [done|lia].
Qed.

Lemma wlp_ret {X} (x : X) (Q : X -> state -> Prop) st : Q x st -> wlp (ret x) Q st.
Proof. intros HQ y st' [= <- <-]. done. Qed.

Lemma wlp_bind {X Y} (c : M X) (f : X -> M Y) Q st :
  wlp c (fun x st' => wlp (f x) Q st') st -> wlp (bind c f) Q st.
Proof.
  unfold wlp, bind. intros H y st''. destruct (c st) as [[x st']|] eqn:E; [|done].
  intros Hf. by eapply H.
Qed.

Lemma wlp_mono {X} (c : M X) (Q Q' : X -> state -> Prop) st :
  wlp c Q st -> (forall x st', Q x st' -> Q' x st') -> wlp c Q' st.
Proof. unfold wlp. eauto. Qed.

Lemma wlp_while {L} (Q : L -> state -> Prop) (cond : L -> M bool)
    (body : L -> M (flow L)) :
  (forall x st,
     wlp (cond x) (fun (b : bool) st' =>
       if b then
         wlp (body x) (fun r st'' =>
           match r with
           | Next y => True
           | Break y => Q y st''
           end) st'
       else Q x st') st) ->
  forall fuel x st, wlp (while fuel cond body x) Q st.
Proof.
  intros Hstep fuel. induction fuel as [|fuel IH]; intros x st; [done|].
  cbn [while]. apply wlp_bind. eapply wlp_mono; [by apply Hstep|].
  intros [|] st' Hb; [|by apply wlp_ret].
  apply wlp_bind. eapply wlp_mono; [exact Hb|].
  intros [y|y] st'' Hr; [|by apply wlp_ret]. apply IH.
Qed.

(** ** Lists as arrays *)

Lemma snoc_or_nil {X : Type} (l : list X) :
  l = [] \/ exists l' x, l = l' ++ [x].
Proof. induction l as [|x l _] using rev_ind; eauto. Qed.

Lemma lookup_mid (l pre post : list A) x i :
  l = pre ++ x :: post -> i = length pre -> l !! i = Some x.
Proof. intros -> ->. by apply list_lookup_middle. Qed.

Lemma insert_mid (l pre post : list A) x y i :
  l = pre ++ x :: post -> i = length pre -> <[i:=y]> l = pre ++ y :: post.
Proof.
  intros -> ->. replace (length pre) with (length pre + 0) by lia.
  by rewrite insert_app_r.
Qed.

Lemma length_mid (l pre post : list A) x i :
  l = pre ++ x :: post -> i = length pre -> i < length l.
Proof. intros -> ->. rewrite length_app. simpl. lia. Qed.

Lemma length_slice (a b : nat) (l : list A) :
  b <= length l -> length (slice a b l) = b - a.
Proof. intros Hb. unfold slice. rewrite length_take, length_drop. lia. Qed.

Lemma lookup_slice (a b i : nat) (l : list A) :
  i < b - a -> slice a b l !! i = l !! (a + i).
Proof. intros Hi. unfold slice. by rewrite lookup_take_lt, lookup_drop. Qed.

Lemma slice_nil (a : nat) (l : list A) : slice a a l = [].
Proof. unfold slice. by rewrite Nat.sub_diag. Qed.

Lemma slice_decompose (a b : nat) (l : list A) :
  a <= b -> l = take a l ++ slice a b l ++ drop b l.
Proof.
  intros Hab. unfold slice.
  rewrite <- (take_drop a l) at 1. f_equal.
  rewrite <- (take_drop (b - a) (drop a l)) at 1. f_equal.
  rewrite drop_drop. f_equal. lia.
Qed.

Lemma slice_app_mid (X seg Y : list A) (a b : nat) :
  length X = a -> length seg = b - a -> a <= b ->
  slice a b (X ++ seg ++ Y) = seg.
Proof.
  intros HX Hseg Hab. unfold slice.
  rewrite drop_app_length' by done. by rewrite take_app_length'.
Qed.

Lemma slice_snoc (a b : nat) (l : list A) x :
  a <= b -> l !! b = Some x -> slice a (S b) l = slice a b l ++ [x].
Proof.
  intros Hab Hx. unfold slice. replace (S b - a) with (S (b - a)) by lia.
  apply take_S_r. rewrite lookup_drop. by replace (a + (b - a)) with b by lia.
Qed.

Lemma slice_full (l : list A) n : length l <= n -> slice 0 n l = l.
Proof. intros. unfold slice. rewrite drop_0, Nat.sub_0_r. by apply take_ge. Qed.

(** A segment that lies before [a] only depends on the first [a] elements. *)
Lemma slice_take_eq (x y a : nat) (l l' : list A) :
  y <= a -> take a l = take a l' -> slice x y l = slice x y l'.
Proof.
  intros Hy Ht. unfold slice.
  destruct (decide (x <= y)) as [Hxy|Hxy].
  - rewrite !take_drop_commute. replace (x + (y - x)) with y by lia.
    replace (take y l) with (take y (take a l)) by (rewrite take_take; f_equal; lia).
    replace (take y l') with (take y (take a l')) by (rewrite take_take; f_equal; lia).
    by rewrite Ht.
  - replace (y - x) with 0 by lia. done.
Qed.

(** ** Rules of the primitive operations *)

Lemma wp_get_at i x Q st :
  arr st !! i = Some x -> Q x st -> wp (get_at i) Q st.
Proof. unfold wp, get_at. intros ->. done. Qed.

Lemma wp_set_at i x Q st :
  i < length (arr st) -> Q tt (set_arr (<[i:=x]> (arr st)) st) ->
  wp (set_at i x) Q st.
Proof.
  unfold wp, set_at. intros Hi HQ.
  destruct (Nat.ltb_spec i (length (arr st))); [done|lia].
Qed.

Lemma wp_move_at i x Q st :
  arr st !! i = Some x -> Q x (set_arr (<[i:=moved x]> (arr st)) st) ->
  wp (move_at i) Q st.
Proof.
  intros Hx HQ. unfold move_at. apply wp_bind. eapply wp_get_at; [done|].
  apply wp_bind. apply wp_set_at; [by eapply lookup_lt_Some|]. by apply wp_ret.
Qed.

Lemma wp_buf_get i x Q st :
  buffer st !! i = Some x -> Q x st -> wp (buf_get i) Q st.
Proof. unfold wp, buf_get. intros ->. done. Qed.

Lemma wp_buf_set i x Q st :
  i < length (buffer st) -> Q tt (set_buffer (<[i:=x]> (buffer st)) st) ->
  wp (buf_set i x) Q st.
Proof.
  unfold wp, buf_set. intros Hi HQ.
  destruct (Nat.ltb_spec i (length (buffer st))); [done|lia].
Qed.

Lemma wp_buf_move i x Q st :
  buffer st !! i = Some x -> Q x (set_buffer (<[i:=moved x]> (buffer st)) st) ->
  wp (buf_move i) Q st.
Proof.
  intros Hx HQ. unfold buf_move. apply wp_bind. eapply wp_buf_get; [done|].
  apply wp_bind. apply wp_buf_set; [by eapply lookup_lt_Some|]. by apply wp_ret.
Qed.

Lemma wp_call_comp a b Q st :
  Q (comp a b) (count_comp st) -> wp (call_comp a b) Q st.
Proof. done. Qed.


Local Open Scope Z_scope.

(** *** Facts about the loop *)

Lemma minRunLength_loop_small fuel n r :
  n < MIN_MERGE -> minRunLength_loop (S fuel) n r = Some (n, r).
Proof using.
  intros Hn. simpl. destruct (Z.geb_spec n MIN_MERGE) as [H|H]; [lia|done].
Qed.

Lemma minRunLength_loop_step fuel n r :
  MIN_MERGE <= n ->
  minRunLength_loop (S fuel) n r =
  minRunLength_loop fuel (Z.shiftr n 1) (Z.lor r (Z.land n 1)).
Proof using.
  intros Hn. simpl. destruct (Z.geb_spec n MIN_MERGE) as [H|H]; [done|lia].
Qed.

Lemma flag_lor_bit (r n : Z) :
  (r = 0 \/ r = 1) ->
  (Z.lor r (Z.land n 1) = 0 /\ r = 0 /\ n mod 2 = 0) \/
  (Z.lor r (Z.land n 1) = 1 /\ (r = 1 \/ n mod 2 = 1)).
Proof using.
  intros Hr.
  assert (Hb : Z.land n 1 = n mod 2) by (apply (Z.land_ones n 1); lia).
  rewrite Hb.
  assert (Hm : n mod 2 = 0 \/ n mod 2 = 1) by (pose proof (Z.mod_pos_bound n 2); lia).
  destruct Hr as [-> | ->], Hm as [-> | ->]; cbv;
    first [ left; by repeat split
          | right; split; [done|]; first [by left | by right] ].
Qed.

(** The invariant of the loop: the original value is rebuilt from the
    shifted one and the bits that were shifted out; the flag tells whether
    any of those bits was set. *)
Lemma minRunLength_loop_spec fuel : forall n r k lost,
  0 <= n -> (Z.to_nat (Z.log2 n) < fuel)%nat ->
  (r = 0 \/ r = 1) -> 0 <= lost < 2 ^ Z.of_nat k ->
  (r = 0 <-> lost = 0) ->
  exists n' r' j lost',
    minRunLength_loop fuel n r = Some (n', r') /\
    minRunLength_shifts fuel n = Some j /\
    (r' = 0 \/ r' = 1) /\
    0 <= lost' < 2 ^ Z.of_nat (k + j) /\
    (r' = 0 <-> lost' = 0) /\
    n * 2 ^ Z.of_nat k + lost = n' * 2 ^ Z.of_nat (k + j) + lost' /\
    0 <= n' < MIN_MERGE /\
    (MIN_MERGE <= n -> MIN_MERGE <= 2 * n') /\
    (n < MIN_MERGE -> n' = n /\ r' = r /\ j = O).
Proof using.
  induction fuel as [|fuel IH]; intros n r k lost Hn Hfuel Hr Hlost Hflag; [lia|].
  destruct (Z_lt_ge_dec n MIN_MERGE) as [Hsmall|Hbig].
  - exists n, r, O, lost. rewrite minRunLength_loop_small by done.
    simpl. destruct (Z.geb_spec n MIN_MERGE); [lia|].
    rewrite Nat.add_0_r. destruct Hflag as [Hf1 Hf2].
    repeat split; try assumption; try lia.
  - unfold MIN_MERGE in Hbig.
    rewrite minRunLength_loop_step by (unfold MIN_MERGE; lia).
    cbn [minRunLength_shifts]. destruct (Z.geb_spec n MIN_MERGE) as [_|Hc];
      [|unfold MIN_MERGE in Hc; lia].
    assert (Hsh : Z.shiftr n 1 = n / 2) by (rewrite Z.shiftr_div_pow2 by lia; done).
    assert (Hdiv : n = 2 * (n / 2) + n mod 2) by (apply Z.div_mod; lia).
    assert (Hmod : 0 <= n mod 2 < 2) by (apply Z.mod_pos_bound; lia).
    assert (Hlog : Z.log2 (n / 2) = Z.log2 n - 1).
    { rewrite <- Hsh. rewrite Z.log2_shiftr by lia.
      assert (0 < Z.log2 n) by (apply Z.log2_pos; lia). lia. }
    assert (Hlogpos : 0 < Z.log2 n) by (apply Z.log2_pos; lia).
    assert (Hpow : 2 ^ Z.of_nat (S k) = 2 * 2 ^ Z.of_nat k).
    { rewrite Nat2Z.inj_succ, Z.pow_succ_r by lia. done. }
    assert (Hpk : 0 < 2 ^ Z.of_nat k) by (apply Z.pow_pos_nonneg; lia).
    destruct (IH (Z.shiftr n 1) (Z.lor r (Z.land n 1)) (S k)
                (n mod 2 * 2 ^ Z.of_nat k + lost))
      as (n' & r' & j & lost' & E1 & E2 & Hr' & Hl' & Hf' & Heq & Hn' & Hbig' & Hsm').
    + rewrite Hsh. apply Z.div_pos; lia.
    + rewrite Hsh, Hlog. lia.
    + destruct (flag_lor_bit r n Hr) as [(-> & _)|(-> & _)]; lia.
    + rewrite Hpow. nia.
    + destruct (flag_lor_bit r n Hr) as [(-> & Hr0 & Hm0)|(-> & Hor)].
      * rewrite Hm0. split; [intros _|done]. apply Hflag in Hr0. lia.
      * split; [lia|]. intros Hz. exfalso.
        assert (lost = 0 /\ n mod 2 = 0) as [Hl0 Hm0] by nia.
        apply Hflag in Hl0. lia.
    + exists n', r', (S j), lost'. rewrite E1, E2.
      replace (k + S j)%nat with (S k + j)%nat by lia.
      rewrite Hsh, Hpow in Heq.
      do 5 (split; [done|]). split; [nia|]. split; [done|]. split.
      * intros _. destruct (Z_lt_ge_dec (Z.shiftr n 1) MIN_MERGE) as [Hs|Hs].
        -- destruct (Hsm' Hs) as (-> & _). rewrite Hsh. unfold MIN_MERGE. lia.
        -- unfold MIN_MERGE in *. assert (32 <= Z.shiftr n 1) as Hs' by lia.
           specialize (Hbig' Hs'). lia.
      * unfold MIN_MERGE. lia.
Qed.

Lemma minRunLength_spec (n : Z) :
  0 <= n ->
  exists n' r lost,
    minRunLength n = n' + r /\ (r = 0 \/ r = 1) /\
    0 <= lost < 2 ^ Z.of_nat (minRunShifts n) /\ (r = 0 <-> lost = 0) /\
    n = n' * 2 ^ Z.of_nat (minRunShifts n) + lost /\
    0 <= n' < MIN_MERGE /\
    (MIN_MERGE <= n -> MIN_MERGE <= 2 * n') /\
    (n < MIN_MERGE -> n' = n /\ r = 0 /\ minRunShifts n = O).
Proof using.
  intros Hn.
  destruct (minRunLength_loop_spec (minRunLength_fuel n) n 0 O 0)
    as (n' & r & j & lost & E1 & E2 & Hr & Hl & Hf & Heq & Hn' & Hbig & Hsm);
    [done|unfold minRunLength_fuel; lia|by left|simpl; lia|done|].
  exists n', r, lost. unfold minRunLength, minRunShifts. rewrite E1, E2. simpl.
  simpl in Heq, Hl. rewrite Z.mul_1_r, Z.add_0_r in Heq.
  destruct Hf as [Hf1 Hf2]. repeat split; try assumption; try lia.
Qed.

(** Below the threshold the length itself is returned. *)
Lemma minRunLength_small (n : Z) : 0 <= n < MIN_MERGE -> minRunLength n = n.
Proof using.
  intros Hn. destruct (minRunLength_spec n) as (n' & r & lost & -> & _ & _ & _ & _ & _ & _ & Hsm);
    [lia|]. destruct Hsm as (-> & -> & _); lia.
Qed.

Lemma minRunLength_le (n : Z) : 0 <= n -> 0 <= minRunLength n <= n.
Proof using.
  intros Hn. destruct (Z_lt_ge_dec n MIN_MERGE) as [Hs|Hb].
  - rewrite minRunLength_small; lia.
  - destruct (minRunLength_spec n)
      as (n' & r & lost & -> & Hr & _ & _ & _ & Hn' & Hbig & _); [lia|].
    unfold MIN_MERGE in *. lia.
Qed.

Lemma static_cast_int_id (v : Z) :
  INT_MIN <= v <= INT_MAX -> static_cast_int v = v.
Proof using.
  unfold INT_MIN, INT_MAX, static_cast_int. intros Hv.
  rewrite Z.mod_small; lia.
Qed.

Lemma static_cast_int_le (v : Z) : 0 <= v -> static_cast_int v <= v.
Proof using.
  unfold static_cast_int. intros Hv.
  pose proof (Z.mod_le (v + 2147483648) 4294967296). lia.
Qed.

Local Close Scope Z_scope.
(** ** std::move_backward *)

(** Shifting the segment [seg] that starts at [a] one place to the right;
    the cell at [a] is left in some state [g]. *)
Lemma wp_std_move_backward fuel a b X seg m Y bf stk nc lg Q :
  length X = a -> length seg = b - a -> a <= b -> b - a < fuel ->
  (forall g, Q tt (State (X ++ g :: seg ++ Y) bf stk nc lg)) ->
  wp (std_move_backward fuel a b (b + 1)) Q
     (State (X ++ seg ++ m :: Y) bf stk nc lg).
Proof.
  intros HX Hseg Hab Hfuel HQ. unfold std_move_backward.
  apply wp_bind.
  eapply wp_mono.
  - apply (wp_while
      (fun '(last, d_last) st => exists F B g,
         seg = F ++ B /\ last = a + length F /\ d_last = last + 1 /\
         st = State (X ++ F ++ g :: B ++ Y) bf stk nc lg)
      (fun '(last, _) _ => last - a)
      (fun _ st => exists g, st = State (X ++ g :: seg ++ Y) bf stk nc lg)).
    + intros [last d_last] st (F & B & g & -> & -> & -> & ->).
      apply wp_ret. destruct (Nat.eqb_spec a (a + length F)) as [He|He]; simpl.
      * destruct F; [|simpl in He; lia]. eauto.
      * destruct (snoc_or_nil F) as [->|(F' & f & ->)]; [simpl in He; lia|].
        rewrite length_app. simpl.
        apply wp_bind. eapply wp_move_at.
        { simpl. eapply (lookup_mid _ (X ++ F') _ f).
          - by rewrite <- !app_assoc.
          - rewrite length_app. lia. }
        simpl. apply wp_bind. apply wp_set_at.
        { simpl. rewrite length_insert, !length_app. simpl. rewrite !length_app. simpl. lia. }
        apply wp_ret. simpl. split; [|lia].
        exists F', (f :: B), (moved f). split; [by rewrite <- app_assoc|].
        split; [lia|]. split; [lia|]. unfold set_arr. simpl. f_equal.
        erewrite (insert_mid _ (X ++ F') _ f (moved f));
          [| by rewrite <- !app_assoc | rewrite length_app; lia].
        erewrite (insert_mid _ (X ++ F' ++ [moved f]) _ g f).
        -- by rewrite <- !app_assoc.
        -- by rewrite <- !app_assoc.
        -- rewrite !length_app. simpl. lia.
    + exists seg, [], m. rewrite app_nil_r. repeat split; try done; lia.
    + simpl. lia.
  - intros [last d_last] st (g & ->). apply wp_ret. apply HQ.
Qed.


(** ** std::move between the range and the buffer *)

Lemma wp_std_move_to_buffer fuel a b X seg Y G Brest stk nc lg Q :
  length X = a -> length seg = b - a -> a <= b -> length G = length seg ->
  b - a < fuel ->
  Q tt (State (X ++ (moved <$> seg) ++ Y) (seg ++ Brest) stk nc lg) ->
  wp (std_move_to_buffer fuel a b 0) Q
     (State (X ++ seg ++ Y) (G ++ Brest) stk nc lg).
Proof.
  intros HX Hseg Hab HG Hfuel HQ. unfold std_move_to_buffer.
  apply wp_bind.
  eapply wp_mono.
  - apply (wp_while
      (fun '(first, d_first) st => exists F R G1 G2,
         seg = F ++ R /\ G = G1 ++ G2 /\ length G1 = length F /\
         first = a + length F /\ d_first = length F /\
         st = State (X ++ (moved <$> F) ++ R ++ Y) (F ++ G2 ++ Brest) stk nc lg)
      (fun '(first, _) _ => b - first)
      (fun _ st => st = State (X ++ (moved <$> seg) ++ Y) (seg ++ Brest) stk nc lg)).
    + intros [first d_first] st (F & R & G1 & G2 & -> & -> & HG1 & -> & -> & ->).
      rewrite !length_app in *.
      apply wp_ret. destruct (Nat.eqb_spec (a + length F) b) as [He|He]; simpl.
      * assert (R = []) as -> by (apply nil_length_inv; lia).
        assert (G2 = []) as -> by (apply nil_length_inv; lia).
        by rewrite !app_nil_r.
      * destruct R as [|r R]; [simpl in *; lia|].
        destruct G2 as [|g G2]; [simpl in *; lia|].
        apply wp_bind. eapply wp_move_at.
        { simpl. eapply (lookup_mid _ (X ++ (moved <$> F)) _ r).
          - by rewrite <- !app_assoc.
          - rewrite length_app, length_fmap. lia. }
        simpl. apply wp_bind. apply wp_buf_set.
        { simpl. rewrite !length_app. simpl. lia. }
        apply wp_ret. simpl. split; [|lia].
        exists (F ++ [r]), R, (G1 ++ [g]), G2.
        rewrite !length_app. simpl.
        split; [by rewrite <- app_assoc|]. split; [by rewrite <- app_assoc|].
        split; [lia|]. split; [lia|]. split; [lia|].
        unfold set_arr, set_buffer. simpl. f_equal.
        -- erewrite (insert_mid _ (X ++ (moved <$> F)) _ r (moved r));
             [| by rewrite <- !app_assoc | rewrite length_app, length_fmap; lia].
           rewrite fmap_app. simpl. by rewrite <- !app_assoc.
        -- erewrite (insert_mid _ F _ g r); [|done|done].
           by rewrite <- !app_assoc.
    + exists [], seg, [], G. simpl. repeat split; try done; lia.
    + simpl. lia.
  - intros [first d_first] st ->. by apply wp_ret.
Qed.

Lemma wp_std_move_from_buffer fuel a b d X G Y B1 seg B2 stk nc lg Q :
  length B1 = a -> length seg = b - a -> a <= b ->
  length X = d -> length G = length seg -> b - a < fuel ->
  Q tt (State (X ++ seg ++ Y) (B1 ++ (moved <$> seg) ++ B2) stk nc lg) ->
  wp (std_move_from_buffer fuel a b d) Q
     (State (X ++ G ++ Y) (B1 ++ seg ++ B2) stk nc lg).
Proof.
  intros HB1 Hseg Hab HX HG Hfuel HQ. unfold std_move_from_buffer.
  apply wp_bind.
  eapply wp_mono.
  - apply (wp_while
      (fun '(first, d_first) st => exists F R G1 G2,
         seg = F ++ R /\ G = G1 ++ G2 /\ length G1 = length F /\
         first = a + length F /\ d_first = d + length F /\
         st = State (X ++ F ++ G2 ++ Y) (B1 ++ (moved <$> F) ++ R ++ B2) stk nc lg)
      (fun '(first, _) _ => b - first)
      (fun _ st =>
         st = State (X ++ seg ++ Y) (B1 ++ (moved <$> seg) ++ B2) stk nc lg)).
    + intros [first d_first] st (F & R & G1 & G2 & -> & -> & HG1 & -> & -> & ->).
      rewrite !length_app in *.
      apply wp_ret. destruct (Nat.eqb_spec (a + length F) b) as [He|He]; simpl.
      * assert (R = []) as -> by (apply nil_length_inv; lia).
        assert (G2 = []) as -> by (apply nil_length_inv; lia).
        by rewrite !app_nil_r.
      * destruct R as [|r R]; [simpl in *; lia|].
        destruct G2 as [|g G2]; [simpl in *; lia|].
        apply wp_bind. eapply wp_buf_move.
        { simpl. eapply (lookup_mid _ (B1 ++ (moved <$> F)) _ r).
          - by rewrite <- !app_assoc.
          - rewrite length_app, length_fmap. lia. }
        simpl. apply wp_bind. apply wp_set_at.
        { simpl. rewrite !length_app. simpl. rewrite !length_app. simpl. lia. }
        apply wp_ret. simpl. split; [|lia].
        exists (F ++ [r]), R, (G1 ++ [g]), G2.
        rewrite !length_app. simpl.
        split; [by rewrite <- app_assoc|]. split; [by rewrite <- app_assoc|].
        split; [lia|]. split; [lia|]. split; [lia|].
        unfold set_arr, set_buffer. simpl. f_equal.
        -- erewrite (insert_mid _ (X ++ F) _ g r);
             [| by rewrite <- !app_assoc | rewrite length_app; lia].
           by rewrite <- !app_assoc.
        -- erewrite (insert_mid _ (B1 ++ (moved <$> F)) _ r (moved r));
             [| by rewrite <- !app_assoc | rewrite length_app, length_fmap; lia].
           rewrite fmap_app. simpl. by rewrite <- !app_assoc.
    + exists [], seg, [], G. simpl. repeat split; try done; lia.
    + simpl. lia.
  - intros [first d_first] st ->. by apply wp_ret.
Qed.

(** ** Reading and writing in the middle of a list *)

Ltac list_eq_assoc :=
  rewrite <- ?app_assoc; simpl; rewrite <- ?app_assoc; simpl;
  rewrite <- ?app_assoc; reflexivity.

Ltac len :=
  rewrite ?length_app, ?length_reverse, ?length_fmap, ?length_app in *;
  simpl in *; lia.

Lemma wp_arr_eq {X} (c : M X) Q l l' bf stk nc lg :
  l = l' -> wp c Q (State l' bf stk nc lg) -> wp c Q (State l bf stk nc lg).
Proof. by intros ->. Qed.

Lemma wp_buf_eq {X} (c : M X) Q l bf bf' stk nc lg :
  bf = bf' -> wp c Q (State l bf' stk nc lg) -> wp c Q (State l bf stk nc lg).
Proof. by intros ->. Qed.

Tactic Notation "arr_as" constr(new) "by" tactic3(t) :=
  cbv beta; apply (wp_arr_eq _ _ _ new); [t|].
Tactic Notation "arr_as" constr(new) := arr_as new by list_eq_assoc.
Ltac buf_as new := cbv beta; apply (wp_buf_eq _ _ _ _ new); [list_eq_assoc|].

Lemma wp_get_at_mid i pre x post bf stk nc lg Q :
  i = length pre -> Q x (State (pre ++ x :: post) bf stk nc lg) ->
  wp (get_at i) Q (State (pre ++ x :: post) bf stk nc lg).
Proof. intros Hi HQ. eapply wp_get_at; [|done]. simpl. by eapply lookup_mid. Qed.

Lemma wp_set_at_mid i pre x y post bf stk nc lg Q :
  i = length pre -> Q tt (State (pre ++ y :: post) bf stk nc lg) ->
  wp (set_at i y) Q (State (pre ++ x :: post) bf stk nc lg).
Proof.
  intros Hi HQ. apply wp_set_at; simpl.
  - by eapply length_mid.
  - unfold set_arr. simpl. by erewrite insert_mid.
Qed.

Lemma wp_move_at_mid i pre x post bf stk nc lg Q :
  i = length pre -> Q x (State (pre ++ moved x :: post) bf stk nc lg) ->
  wp (move_at i) Q (State (pre ++ x :: post) bf stk nc lg).
Proof.
  intros Hi HQ. eapply wp_move_at; simpl.
  - by eapply lookup_mid.
  - unfold set_arr. simpl. by erewrite insert_mid.
Qed.

Lemma wp_buf_get_mid i pre x post l stk nc lg Q :
  i = length pre -> Q x (State l (pre ++ x :: post) stk nc lg) ->
  wp (buf_get i) Q (State l (pre ++ x :: post) stk nc lg).
Proof. intros Hi HQ. eapply wp_buf_get; [|done]. simpl. by eapply lookup_mid. Qed.

Lemma wp_buf_move_mid i pre x post l stk nc lg Q :
  i = length pre -> Q x (State l (pre ++ moved x :: post) stk nc lg) ->
  wp (buf_move i) Q (State l (pre ++ x :: post) stk nc lg).
Proof.
  intros Hi HQ. eapply wp_buf_move; simpl.
  - by eapply lookup_mid.
  - unfold set_buffer. simpl. by erewrite insert_mid.
Qed.

(** ** std::reverse *)

Lemma wp_iter_swap i j P x Mid y R bf stk nc lg Q :
  i = length P -> j = i + 1 + length Mid ->
  Q tt (State (P ++ y :: Mid ++ x :: R) bf stk nc lg) ->
  wp (iter_swap i j) Q (State (P ++ x :: Mid ++ y :: R) bf stk nc lg).
Proof.
  intros Hi Hj HQ. unfold iter_swap.
  apply wp_bind. apply wp_move_at_mid; [done|].
  apply wp_bind.
  arr_as ((P ++ moved x :: Mid) ++ y :: R).
  apply wp_move_at_mid; [rewrite length_app; simpl; lia|].
  apply wp_bind. arr_as (P ++ moved x :: (Mid ++ moved y :: R)).
  apply wp_set_at_mid; [done|].
  arr_as ((P ++ y :: Mid) ++ moved y :: R).
  apply wp_set_at_mid; [rewrite length_app; simpl; lia|].
  by rewrite <- app_assoc.
Qed.

Lemma reverse_short (l : list A) : length l <= 1 -> reverse l = l.
Proof. destruct l as [|x [|y l]]; simpl; intros; try done. lia. Qed.

Lemma wp_std_reverse fuel a b X seg Y bf stk nc lg Q :
  length X = a -> length seg = b - a -> a <= b -> b - a < fuel ->
  Q tt (State (X ++ reverse seg ++ Y) bf stk nc lg) ->
  wp (std_reverse fuel a b) Q (State (X ++ seg ++ Y) bf stk nc lg).
Proof.
  intros HX Hseg Hab Hfuel HQ. unfold std_reverse.
  destruct (Nat.eqb_spec a b) as [He|He].
  { apply wp_ret. assert (seg = []) as -> by (apply nil_length_inv; lia). done. }
  apply wp_bind.
  eapply wp_mono.
  - apply (wp_while
      (fun '(first, last) st => exists F Mid B,
         seg = F ++ Mid ++ B /\ length F = length B /\
         first = a + length F /\ last + 1 = a + length F + length Mid /\
         st = State (X ++ reverse B ++ Mid ++ reverse F ++ Y) bf stk nc lg)
      (fun '(first, last) _ => last + 1 - first)
      (fun _ st => st = State (X ++ reverse seg ++ Y) bf stk nc lg)).
    + intros [first last] st (F & Mid & B & -> & HFB & -> & Hlast & ->).
      apply wp_ret. destruct (Nat.ltb_spec (a + length F) last) as [Hlt|Hge].
      * destruct Mid as [|x Mid]; [simpl in *; lia|].
        destruct (snoc_or_nil Mid) as [->|(Mid' & y & ->)]; [simpl in *; lia|].
        rewrite length_cons, length_app in Hlast. simpl in Hlast.
        apply wp_bind.
        arr_as ((X ++ reverse B) ++ x :: Mid' ++ y :: reverse F ++ Y).
        apply wp_iter_swap; [len|len|].
        apply wp_ret. split; [|lia].
        exists (F ++ [x]), Mid', (y :: B).
        rewrite !length_app. simpl.
        split; [list_eq_assoc|]. split; [lia|]. split; [lia|]. split; [lia|].
        f_equal. rewrite reverse_cons, reverse_app. simpl. list_eq_assoc.
      * f_equal. rewrite !reverse_app.
        rewrite (reverse_short Mid) by lia. list_eq_assoc.
    + exists [], seg, []. simpl. rewrite app_nil_r.
      repeat split; try done; lia.
    + simpl. lia.
  - intros [first last] st ->. by apply wp_ret.
Qed.

(** ** std::upper_bound *)

(** The result lies in the range; the element before it was compared and
    is not greater than the key, the element at it was compared and is
    greater. *)
Lemma wp_upper_bound fuel left right key l bf stk nc lg Q :
  left <= right -> right <= length l -> right - left < fuel ->
  (forall pos nc',
     left <= pos <= right ->
     (pos = left \/ exists x, l !! (pos - 1) = Some x /\ comp key x = false) ->
     (pos = right \/ exists x, l !! pos = Some x /\ comp key x = true) ->
     Q pos (State l bf stk nc' lg)) ->
  wp (upper_bound fuel left right key) Q (State l bf stk nc lg).
Proof.
  intros Hlr Hr Hfuel HQ. unfold upper_bound.
  apply wp_bind.
  eapply wp_mono.
  - apply (wp_while
      (fun '(first, len) st =>
         left <= first /\ first + len <= right /\
         (first = left \/ exists x, l !! (first - 1) = Some x /\ comp key x = false) /\
         (first + len = right \/
            exists x, l !! (first + len) = Some x /\ comp key x = true) /\
         exists nc', st = State l bf stk nc' lg)
      (fun '(_, len) _ => len)
      (fun '(first, _) st =>
         left <= first <= right /\
         (first = left \/ exists x, l !! (first - 1) = Some x /\ comp key x = false) /\
         (first = right \/ exists x, l !! first = Some x /\ comp key x = true) /\
         exists nc', st = State l bf stk nc' lg)).
    + intros [first len] st (H1 & H2 & H3 & H4 & nc' & ->).
      apply wp_ret. destruct (Nat.ltb_spec 0 len) as [Hlen|Hlen].
      * assert (Hhalf : Nat.shiftr len 1 = len / 2)
          by (by rewrite Nat.shiftr_div_pow2).
        rewrite Hhalf.
        assert (Hlt : len / 2 < len) by (apply Nat.div_lt; lia).
        destruct (lookup_lt_is_Some_2 l (first + len / 2)) as [x Hx]; [lia|].
        apply wp_bind. eapply wp_get_at; [exact Hx|].
        apply wp_bind. apply wp_call_comp.
        destruct (comp key x) eqn:Hc; apply wp_ret; cbn -[Nat.div].
        -- split; [|lia]. split; [lia|]. split; [lia|]. split; [done|].
           split; [right; eauto|]. eauto.
        -- split; [|lia]. split; [lia|]. split; [lia|]. split.
           { right. exists x. split; [|done]. rewrite <- Hx. f_equal. lia. }
           split; [|eauto].
           destruct H4 as [H4|(z & Hz & Hcz)]; [left; lia|].
           right. exists z. split; [|done]. rewrite <- Hz. f_equal. lia.
      * assert (len = 0) as -> by lia. rewrite Nat.add_0_r in *.
        split; [lia|]. split; [done|]. split; [done|]. eauto.
    + split; [lia|]. split; [lia|]. split; [by left|]. split; [left; lia|]. eauto.
    + simpl. lia.
  - intros [first len] st (H1 & H2 & H3 & nc' & ->). apply wp_ret. by apply HQ.
Qed.

(** ** Sorted lists *)

Section sorted.
Variable R : A -> A -> Prop.

Lemma Sorted_app_r (l1 l2 : list A) : Sorted R (l1 ++ l2) -> Sorted R l2.
Proof.
  induction l1 as [|a l1 IH]; simpl; intros Hs; [done|].
  apply Sorted_inv in Hs as [Hs _]. by apply IH.
Qed.

Lemma Sorted_insert_mid (l1 l2 : list A) u :
  Sorted R (l1 ++ l2) ->
  (forall y, last l1 = Some y -> R y u) ->
  (forall z, head l2 = Some z -> R u z) ->
  Sorted R (l1 ++ u :: l2).
Proof.
  induction l1 as [|a l1 IH]; simpl; intros Hs Hl Hh.
  - constructor; [done|]. destruct l2; constructor. by apply Hh.
  - apply Sorted_inv in Hs as [Hs Ha]. constructor.
    + apply IH; [done| |done]. intros y Hy. apply Hl.
      destruct l1; [done|]. done.
    + destruct l1 as [|b l1]; simpl in *.
      * constructor. by apply Hl.
      * apply HdRel_inv in Ha. by constructor.
Qed.

Lemma Sorted_snoc_last (l : list A) u :
  Sorted R l -> (forall y, last l = Some y -> R y u) -> Sorted R (l ++ [u]).
Proof.
  intros Hs Hl. apply Sorted_insert_mid; [by rewrite app_nil_r|done|done].
Qed.

(** The relation holds of every two neighbours. *)
Lemma Sorted_lookup (l : list A) i x y :
  Sorted R l -> l !! i = Some x -> l !! (S i) = Some y -> R x y.
Proof.
  intros Hs. revert i. induction Hs as [|a l Hs IH Hh]; intros i Hx Hy; [done|].
  destruct i as [|i]; simpl in *.
  - injection Hx as ->. destruct l; [done|]. simpl in Hy. injection Hy as ->.
    by apply HdRel_inv in Hh.
  - by eapply IH.
Qed.

Lemma Sorted_of_lookup (l : list A) :
  (forall i x y, l !! i = Some x -> l !! (S i) = Some y -> R x y) -> Sorted R l.
Proof.
  induction l as [|a l IH]; intros H; constructor.
  - apply IH. intros i x y Hx Hy. by apply (H (S i)).
  - destruct l; constructor. by apply (H 0).
Qed.
End sorted.

Lemma swo_asymmetric : strict_weak_order -> asymmetric.
Proof.
  intros [Hirr Htr _] a b Hab. destruct (comp b a) eqn:Hba; [|done].
  pose proof (Htr a b a Hab Hba). pose proof (Hirr a). congruence.
Qed.

(** With a strict weak ordering, "not greater" is transitive. *)
Lemma swo_le_trans : strict_weak_order -> Transitive le_.
Proof.
  intros Hswo a b c Hab Hbc. unfold le_ in *.
  pose proof (swo_asymmetric Hswo) as Hasym.
  destruct Hswo as [Hirr Htr Hinc].
  destruct (comp c a) eqn:Hca; [|done]. exfalso.
  destruct (comp a b) eqn:Hab'.
  - pose proof (Htr c a b Hca Hab'). congruence.
  - destruct (comp b c) eqn:Hbc'.
    + pose proof (Htr b c a Hbc' Hca). congruence.
    + destruct (Hinc a b c Hab' Hab Hbc' Hbc) as [_ Hca']. congruence.
Qed.

Lemma Sorted_le_StronglySorted (l : list A) :
  strict_weak_order -> Sorted le_ l -> StronglySorted le_ l.
Proof.
  intros Hswo. pose proof (swo_le_trans Hswo). by apply Sorted_StronglySorted.
Qed.

(** ** The merged list *)

Lemma merge_lists_nil_r (l1 : list A) : merge_lists l1 [] = l1.
Proof. by destruct l1. Qed.

Lemma merge_lists_nil_l (l2 : list A) : merge_lists [] l2 = l2.
Proof. by destruct l2. Qed.

Lemma merge_lists_cons x y (l1 l2 : list A) :
  merge_lists (x :: l1) (y :: l2) =
  if comp x y then x :: merge_lists l1 (y :: l2)
  else y :: merge_lists (x :: l1) l2.
Proof. done. Qed.

Lemma merge_lists_perm (l1 l2 : list A) : merge_lists l1 l2 ≡ₚ l1 ++ l2.
Proof.
  revert l2. induction l1 as [|x l1 IH1]; intros l2.
  { by rewrite merge_lists_nil_l. }
  induction l2 as [|y l2 IH2].
  { by rewrite merge_lists_nil_r, app_nil_r. }
  rewrite merge_lists_cons. destruct (comp x y).
  - simpl. by rewrite IH1.
  - rewrite IH2. by rewrite <- Permutation_middle.
Qed.

Lemma merge_lists_length (l1 l2 : list A) :
  length (merge_lists l1 l2) = length l1 + length l2.
Proof. by rewrite merge_lists_perm, length_app. Qed.

Lemma HdRel_merge_lists a (l1 l2 : list A) :
  HdRel le_ a l1 -> HdRel le_ a l2 -> HdRel le_ a (merge_lists l1 l2).
Proof.
  destruct l1 as [|x l1], l2 as [|y l2]; try done.
  intros H1 H2. rewrite merge_lists_cons.
  apply HdRel_inv in H1. apply HdRel_inv in H2.
  destruct (comp x y); by constructor.
Qed.

(** The merge of two sorted runs is sorted; ties and all, this only needs
    the predicate to be asymmetric. *)
Lemma Sorted_merge_lists (l1 l2 : list A) :
  asymmetric -> Sorted le_ l1 -> Sorted le_ l2 -> Sorted le_ (merge_lists l1 l2).
Proof.
  intros Hasym. revert l2. induction l1 as [|x l1 IH1]; intros l2 H1 H2.
  { by rewrite merge_lists_nil_l. }
  induction l2 as [|y l2 IH2].
  { by rewrite merge_lists_nil_r. }
  rewrite merge_lists_cons.
  apply Sorted_inv in H1 as [H1 Hx]. pose proof H2 as H2'.
  apply Sorted_inv in H2' as [H2' Hy].
  destruct (comp x y) eqn:Hc.
  - constructor; [by apply IH1|].
    apply HdRel_merge_lists; [done|]. constructor. by apply Hasym.
  - constructor; [by apply IH2|].
    apply HdRel_merge_lists; [|done]. by constructor.
Qed.

(** ** Equivalent elements and their order *)

Lemma swo_neg_trans a b c :
  strict_weak_order -> comp a b = true -> comp a c = true \/ comp c b = true.
Proof.
  intros Hswo Hab. pose proof (swo_le_trans Hswo) as Htr.
  destruct (comp a c) eqn:Hac; [by left|]. destruct (comp c b) eqn:Hcb; [by right|].
  exfalso. specialize (Htr b c a Hcb Hac). unfold le_ in Htr. congruence.
Qed.

Lemma eqvb_true x y :
  eqvb x y = true <-> comp x y = false /\ comp y x = false.
Proof.
  clear dflt. unfold eqvb.
  destruct (comp x y), (comp y x); simpl; intuition congruence.
Qed.

Lemma eqvb_sym x y : eqvb x y = eqvb y x.
Proof. unfold eqvb. apply andb_comm. Qed.

Lemma eqvb_trans x y z :
  strict_weak_order -> eqvb x y = true -> eqvb y z = true -> eqvb x z = true.
Proof.
  clear dflt.
  intros Hswo. rewrite !eqvb_true. intros [H1 H2] [H3 H4].
  by apply (swo_incomp Hswo x y z).
Qed.

(** An element that is less than [z] has no equivalent that is equivalent
    to [z]. *)
Lemma eqvb_less x u z :
  strict_weak_order -> eqvb x u = true -> comp u z = true \/ comp z u = true ->
  eqvb x z = false.
Proof.
  clear dflt.
  intros Hswo Hxu Hc. destruct (eqvb x z) eqn:Hxz; [|done]. exfalso.
  rewrite eqvb_sym in Hxu. pose proof (eqvb_trans _ _ _ Hswo Hxu Hxz) as Huz.
  apply eqvb_true in Huz as [H1 H2]. destruct Hc; congruence.
Qed.

Lemma filter_none (f : A -> bool) (l : list A) :
  (forall z, z ∈ l -> f z = false) -> List.filter f l = [].
Proof.
  induction l as [|a l IH]; intros H; [done|]. simpl.
  rewrite (H a) by (by left). apply IH. intros z Hz. apply H. by right.
Qed.

Lemma same_order_refl (l : list A) : same_order l l.
Proof. by intros x. Qed.

(** Taking [u] from behind a segment of greater elements to the front of
    that segment keeps the order of the equivalent elements. *)
Lemma same_order_insert (S1 S2 U : list A) u x :
  strict_weak_order -> (forall z, z ∈ S2 -> comp u z = true) ->
  List.filter (eqvb x) (S1 ++ u :: S2 ++ U) =
  List.filter (eqvb x) (S1 ++ S2 ++ u :: U).
Proof.
  clear dflt.
  intros Hswo Hgt. rewrite !List.filter_app. simpl. rewrite List.filter_app. f_equal.
  destruct (eqvb x u) eqn:Hxu; [|done].
  rewrite (filter_none (eqvb x) S2); [done|].
  intros z Hz. eapply eqvb_less; [done|exact Hxu|]. left. by apply Hgt.
Qed.

(** In a sorted segment whose head is greater than [u], every element is. *)
Lemma all_greater (l : list A) u :
  strict_weak_order -> Sorted le_ l ->
  (forall z, head l = Some z -> comp u z = true) ->
  forall z, z ∈ l -> comp u z = true.
Proof.
  intros Hswo Hs Hh z Hz. destruct l as [|h l]; [by apply elem_of_nil in Hz|].
  specialize (Hh h eq_refl).
  apply elem_of_cons in Hz as [->|Hz]; [done|].
  apply Sorted_le_StronglySorted in Hs; [|done].
  apply StronglySorted_inv in Hs as [_ Hall].
  rewrite Forall_forall in Hall. specialize (Hall z Hz). unfold le_ in Hall.
  destruct (swo_neg_trans u h z Hswo Hh); congruence.
Qed.

(** The reversal of a strictly descending run: no two of its elements are
    equivalent. *)
Lemma same_order_reverse (l : list A) :
  strict_weak_order -> Sorted (run_rel true) l -> same_order l (reverse l).
Proof.
  intros Hswo Hs x.
  assert (Htr : Transitive (run_rel true)).
  { intros a b c Hab Hbc. unfold run_rel in *. by apply (swo_trans Hswo c b a). }
  apply Sorted_StronglySorted in Hs; [|done].
  induction Hs as [|a l Hs IH Hall]; [done|].
  rewrite reverse_cons, List.filter_app, IH. simpl.
  destruct (eqvb x a) eqn:Hxa; [|by rewrite app_nil_r].
  rewrite (filter_none (eqvb x) l); [done|].
  intros z Hz. rewrite Forall_forall in Hall. specialize (Hall z Hz).
  eapply eqvb_less; [done|exact Hxa|]. by right.
Qed.

(** ** binaryInsertionSort *)

Lemma lookup_app_last (X S R : list A) y i :
  last S = Some y -> i = length X + length S - 1 -> (X ++ S ++ R) !! i = Some y.
Proof.
  intros Hy ->. destruct (snoc_or_nil S) as [->|(S' & z & ->)]; [done|].
  rewrite last_snoc in Hy. injection Hy as ->.
  eapply (lookup_mid _ (X ++ S')); [list_eq_assoc|len].
Qed.

Lemma lookup_app_head (X S R : list A) z i :
  head S = Some z -> i = length X -> (X ++ S ++ R) !! i = Some z.
Proof.
  intros Hz ->. destruct S as [|z' S]; [done|]. injection Hz as ->.
  by eapply lookup_mid.
Qed.

Lemma take_key_reference it : acc = by_reference -> take_key it = move_at it.
Proof. intros H. unfold take_key. by rewrite H. Qed.

Lemma read_key_reference it key : acc = by_reference -> read_key it key = ret key.
Proof. intros H. unfold read_key. by rewrite H. Qed.

Lemma take_key_proxy it two cp : acc = by_proxy two cp -> take_key it = get_at it.
Proof. intros H. unfold take_key. by rewrite H. Qed.

Lemma read_key_proxy it key two cp :
  acc = by_proxy two cp -> read_key it key = get_at it.
Proof. intros H. unfold read_key. by rewrite H. Qed.

(** With references: the segment [seg] of the range, from [left] to
    [right], is replaced by a list of the same length; when moves are
    copies, it is a permutation of [seg], sorted when the predicate is
    asymmetric, with equivalent elements in the order that they had when it
    is a strict weak ordering. *)
Lemma wp_binaryInsertionSort_reference fuel left right X seg Y bf stk nc lg Q :
  acc = by_reference ->
  length X = left -> length seg = right - left -> left <= right ->
  right - left < fuel ->
  (forall seg' nc',
     length seg' = length seg ->
     (copyable -> seg' ≡ₚ seg) ->
     (copyable -> asymmetric -> Sorted le_ seg') ->
     (copyable -> strict_weak_order -> same_order seg seg') ->
     Q tt (State (X ++ seg' ++ Y) bf stk nc' lg)) ->
  wp (binaryInsertionSort fuel left right) Q (State (X ++ seg ++ Y) bf stk nc lg).
Proof.
  clear dflt. intros Hacc HX Hseg Hlr Hfuel HQ. unfold binaryInsertionSort.
  destruct seg as [|s seg0].
  { (* an empty range: the loop is not entered *)
    destruct fuel as [|fuel]; [lia|]. cbn [while].
    simpl in Hseg. destruct (Nat.ltb_spec (left + 1) right); [lia|].
    apply wp_bind, wp_bind, wp_ret, wp_ret, wp_ret.
    apply (HQ [] nc); [done|done|constructor|done]. }
  set (seg := s :: seg0) in *.
  apply wp_bind.
  eapply wp_mono.
  - apply (wp_while
      (fun it st => exists Srt U nc',
         it = left + length Srt /\ 1 <= length Srt /\
         length Srt + length U = length seg /\
         st = State (X ++ Srt ++ U ++ Y) bf stk nc' lg /\
         (copyable -> Srt ++ U ≡ₚ seg) /\
         (copyable -> asymmetric -> Sorted le_ Srt) /\
         (copyable -> strict_weak_order -> same_order seg (Srt ++ U)))
      (fun it _ => right - it)
      (fun _ st => exists seg' nc',
         st = State (X ++ seg' ++ Y) bf stk nc' lg /\
         length seg' = length seg /\
         (copyable -> seg' ≡ₚ seg) /\
         (copyable -> asymmetric -> Sorted le_ seg') /\
         (copyable -> strict_weak_order -> same_order seg seg'))).
    + intros it st (Srt & U & nc' & -> & HS1 & HSU & -> & Hperm & Hsort & Hstab).
      apply wp_ret. destruct (Nat.ltb_spec (left + length Srt) right) as [Hlt|Hge].
      * (* one more element [u] to insert *)
        destruct U as [|u U]; [simpl in *; lia|]. simpl in HSU.
        apply wp_bind. rewrite take_key_reference by done.
        arr_as ((X ++ Srt) ++ u :: U ++ Y).
        apply wp_move_at_mid; [len|].
        apply wp_bind. apply wp_upper_bound; [lia|len|lia|].
        intros pos nc'' Hpos Hlo Hhi.
        set (S1 := take (pos - left) Srt). set (S2 := drop (pos - left) Srt).
        assert (HS12 : Srt = S1 ++ S2) by (symmetry; apply take_drop).
        assert (HlS1 : length S1 = pos - left)
          by (unfold S1; rewrite length_take; lia).
        assert (HlS2 : length S2 = left + length Srt - pos)
          by (unfold S2; rewrite length_drop; lia).
        (* what the two comparisons around [pos] say of [S1] and [S2] *)
        assert (Hlast : forall y, last S1 = Some y -> comp u y = false).
        { intros y Hy. destruct Hlo as [->|(x & Hx & Hc)].
          - destruct S1; [done|simpl in HlS1; lia].
          - rewrite <- Hc. f_equal.
            assert (((X ++ Srt) ++ moved u :: U ++ Y) !! (pos - 1) = Some y) as Hy'.
            { rewrite HS12. rewrite <- !app_assoc.
              eapply lookup_app_last; [done|]. destruct S1; [done|]. len. }
            congruence. }
        assert (Hhead : forall z, head S2 = Some z -> comp u z = true).
        { intros z Hz. destruct Hhi as [->|(x & Hx & Hc)].
          - destruct S2; [done|simpl in HlS2; lia].
            - rewrite <- Hc. f_equal.
            assert (((X ++ Srt) ++ moved u :: U ++ Y) !! pos = Some z) as Hz'.
            { rewrite HS12. rewrite <- !app_assoc.
              rewrite (app_assoc X S1). eapply lookup_app_head; [done|len]. }
            congruence. }
        destruct (Nat.eqb_spec pos (left + length Srt)) as [Hpe|Hpe]; cbn [negb].
        -- (* the element stays where it is: nothing is written back *)
           apply wp_bind, wp_ret, wp_ret. split; [|lia].
           exists (Srt ++ [moved u]), U, nc''.
           split; [len|]. split; [len|]. split; [len|].
           split; [f_equal; list_eq_assoc|]. split; [|split].
           ++ intros Hcp. rewrite Hcp, <- app_assoc. simpl. by apply Hperm.
           ++ intros Hcp Has. rewrite Hcp. apply Sorted_snoc_last; [by apply Hsort|].
              intros y Hy. apply Hlast.
              assert (S2 = []) as HS2 by (apply nil_length_inv; lia).
              by rewrite HS12, HS2, app_nil_r in Hy.
           ++ intros Hcp Hswo. rewrite Hcp, <- app_assoc. simpl. by apply Hstab.
        -- (* the tail [S2] moves one place to the right, [u] goes before it *)
           apply wp_bind, wp_bind.
           arr_as ((X ++ S1) ++ S2 ++ moved u :: (U ++ Y))
             by (rewrite HS12; list_eq_assoc).
           apply wp_std_move_backward; [len|len|lia|lia|].
           intros g. apply wp_bind. rewrite read_key_reference by done.
           apply wp_ret. apply wp_set_at_mid; [len|].
           apply wp_ret. split; [|lia].
           exists (S1 ++ u :: S2), U, nc''.
           split; [len|]. split; [len|]. split; [len|].
           split; [f_equal; list_eq_assoc|]. split; [|split].
           ++ intros Hcp. rewrite <- (Hperm Hcp), HS12.
              rewrite <- !app_assoc. simpl.
              by rewrite <- !Permutation_middle.
           ++ intros Hcp Has. apply Sorted_insert_mid.
              ** rewrite <- HS12. by apply Hsort.
              ** intros y Hy. by apply Hlast.
              ** intros z Hz. apply Has. by apply Hhead.
           ++ intros Hcp Hswo x. rewrite <- (Hstab Hcp Hswo x), HS12.
              rewrite <- !app_assoc. simpl. apply same_order_insert; [done|].
              apply all_greater; [done| |done].
              apply (Sorted_app_r _ S1). rewrite <- HS12.
              apply Hsort; [done|by apply swo_asymmetric].
      * (* the range is exhausted *)
        assert (U = []) as -> by (apply nil_length_inv; lia).
        exists Srt, nc'. rewrite app_nil_r in Hperm, Hstab. simpl.
        split; [done|]. split; [len|]. done.
    + exists [s], seg0, nc. simpl. split; [lia|]. split; [lia|]. split; [done|].
      split; [done|]. split; [done|]. split; [|done].
      intros _ _. by repeat constructor.
    + simpl in *. lia.
  - intros it st (seg' & nc' & -> & Hlen & Hperm & Hsort & Hstab).
    apply wp_ret. by apply HQ.
Qed.

(** With the proxy of a vector of bits: nothing is moved out at line 25;
    when the key has to go down, line 31 reads it after the shift, when the
    slot that it aliases holds the last of the shifted elements, and writes
    that one.  The segment keeps its length and ends up sorted, the
    elements having two values; the key is lost. *)
Lemma wp_binaryInsertionSort_proxy two cp fuel left right X seg Y bf stk nc lg Q :
  acc = by_proxy two cp ->
  length X = left -> length seg = right - left -> left <= right ->
  right - left < fuel ->
  (forall seg' nc',
     length seg' = length seg ->
     (asymmetric -> Sorted le_ seg') ->
     Q tt (State (X ++ seg' ++ Y) bf stk nc' lg)) ->
  wp (binaryInsertionSort fuel left right) Q (State (X ++ seg ++ Y) bf stk nc lg).
Proof.
  clear dflt. intros Hacc HX Hseg Hlr Hfuel HQ. unfold binaryInsertionSort.
  destruct seg as [|s seg0].
  { destruct fuel as [|fuel]; [lia|]. cbn [while].
    simpl in Hseg. destruct (Nat.ltb_spec (left + 1) right); [lia|].
    apply wp_bind, wp_bind, wp_ret, wp_ret, wp_ret.
    apply (HQ [] nc); [done|constructor]. }
  set (seg := s :: seg0) in *.
  apply wp_bind.
  eapply wp_mono.
  - apply (wp_while
      (fun it st => exists Srt U nc',
         it = left + length Srt /\ 1 <= length Srt /\
         length Srt + length U = length seg /\
         st = State (X ++ Srt ++ U ++ Y) bf stk nc' lg /\
         (asymmetric -> Sorted le_ Srt))
      (fun it _ => right - it)
      (fun _ st => exists seg' nc',
         st = State (X ++ seg' ++ Y) bf stk nc' lg /\
         length seg' = length seg /\
         (asymmetric -> Sorted le_ seg'))).
    + intros it st (Srt & U & nc' & -> & HS1 & HSU & -> & Hsort).
      apply wp_ret. destruct (Nat.ltb_spec (left + length Srt) right) as [Hlt|Hge].
      * destruct U as [|u U]; [simpl in *; lia|]. simpl in HSU.
        apply wp_bind. rewrite (take_key_proxy _ two cp) by done.
        arr_as ((X ++ Srt) ++ u :: U ++ Y).
        apply wp_get_at_mid; [len|].
        apply wp_bind. apply wp_upper_bound; [lia|len|lia|].
        intros pos nc'' Hpos Hlo Hhi.
        set (S1 := take (pos - left) Srt). set (S2 := drop (pos - left) Srt).
        assert (HS12 : Srt = S1 ++ S2) by (symmetry; apply take_drop).
        assert (HlS1 : length S1 = pos - left)
          by (unfold S1; rewrite length_take; lia).
        assert (HlS2 : length S2 = left + length Srt - pos)
          by (unfold S2; rewrite length_drop; lia).
        assert (Hlast : forall y, last S1 = Some y -> comp u y = false).
        { intros y Hy. destruct Hlo as [->|(x & Hx & Hc)].
          - destruct S1; [done|simpl in HlS1; lia].
          - rewrite <- Hc. f_equal.
            assert (((X ++ Srt) ++ u :: U ++ Y) !! (pos - 1) = Some y) as Hy'.
            { rewrite HS12. rewrite <- !app_assoc.
              eapply lookup_app_last; [done|]. destruct S1; [done|]. len. }
            congruence. }
        assert (Hhead : forall z, head S2 = Some z -> comp u z = true).
        { intros z Hz. destruct Hhi as [->|(x & Hx & Hc)].
          - destruct S2; [done|simpl in HlS2; lia].
          - rewrite <- Hc. f_equal.
            assert (((X ++ Srt) ++ u :: U ++ Y) !! pos = Some z) as Hz'.
            { rewrite HS12. rewrite <- !app_assoc.
              rewrite (app_assoc X S1). eapply lookup_app_head; [done|len]. }
            congruence. }
        destruct (Nat.eqb_spec pos (left + length Srt)) as [Hpe|Hpe]; cbn [negb].
        -- (* the key stays where it is *)
           apply wp_bind, wp_ret, wp_ret. split; [|lia].
           exists (Srt ++ [u]), U, nc''.
           split; [len|]. split; [len|]. split; [len|].
           split; [f_equal; list_eq_assoc|].
           intros Has. apply Sorted_snoc_last; [by apply Hsort|].
           intros y Hy. apply Hlast.
           assert (S2 = []) as HS2 by (apply nil_length_inv; lia).
           by rewrite HS12, HS2, app_nil_r in Hy.
        -- (* the tail [S2] moves one place to the right; the key, read in
              the slot [it], is the last element of [S2] *)
           destruct (snoc_or_nil S2) as [HS2|(S2' & z & HS2)];
             [rewrite HS2 in HlS2; simpl in HlS2; lia|].
           apply wp_bind, wp_bind.
           arr_as ((X ++ S1) ++ S2 ++ u :: (U ++ Y))
             by (rewrite HS12; list_eq_assoc).
           apply wp_std_move_backward; [len|len|lia|lia|].
           intros g. apply wp_bind. rewrite (read_key_proxy _ _ two cp) by done.
           arr_as ((X ++ S1 ++ g :: S2') ++ z :: (U ++ Y))
             by (rewrite HS2; list_eq_assoc).
           apply wp_get_at_mid.
           { rewrite HS2 in HlS2. len. }
           arr_as ((X ++ S1) ++ g :: (S2 ++ U ++ Y))
             by (rewrite HS2; list_eq_assoc).
           apply wp_set_at_mid; [len|].
           apply wp_ret. split; [|lia].
           exists (S1 ++ z :: S2), U, nc''.
           split; [len|]. split; [len|]. split; [len|].
           split; [f_equal; list_eq_assoc|].
           intros Has.
           assert (Hirr : forall a, comp a a = false).
           { intros a. destruct (comp a a) eqn:E; [|done]. by rewrite (Has a a E) in E. }
           destruct S2 as [|h S2t] eqn:ES2; [by destruct S2'|].
           assert (Huh : comp u h = true) by (by apply Hhead).
           assert (Hzh : comp h z = false).
           { destruct (two u h z) as [E|[E|E]].
             - rewrite E, Hirr in Huh. done.
             - rewrite <- E. apply Hirr.
             - rewrite <- E. by apply Has. }
           apply Sorted_insert_mid.
           ++ rewrite <- HS12. by apply Hsort.
           ++ intros y Hy. unfold le_. pose proof (Hlast y Hy) as Huy.
              destruct (two u h z) as [E|[E|E]].
              ** rewrite E, Hirr in Huh. done.
              ** rewrite <- E. destruct (two u h y) as [E'|[E'|E']].
                 --- rewrite E', Hirr in Huh. done.
                 --- rewrite <- E'. apply Hirr.
                 --- rewrite <- E'. by apply Has.
              ** by rewrite <- E.
           ++ intros h' [= <-]. exact Hzh.
      * assert (U = []) as -> by (apply nil_length_inv; lia).
        exists Srt, nc'. simpl.
        split; [done|]. split; [len|]. done.
    + exists [s], seg0, nc. simpl. split; [lia|]. split; [lia|]. split; [done|].
      split; [done|]. intros _. by repeat constructor.
    + simpl in *. lia.
  - intros it st (seg' & nc' & -> & Hlen & Hsort).
    apply wp_ret. by apply HQ.
Qed.

Lemma access_cases :
  acc = by_reference \/ exists two cp, acc = by_proxy two cp.
Proof. destruct acc; eauto. Qed.

(** The segment [seg] of the range, from [left] to [right], is replaced by
    a list of the same length, sorted when moves are copies and the
    predicate is asymmetric; with references it is then a permutation of
    [seg], with equivalent elements in the order that they had when the
    predicate is a strict weak ordering. *)
Lemma wp_binaryInsertionSort fuel left right X seg Y bf stk nc lg Q :
  length X = left -> length seg = right - left -> left <= right ->
  right - left < fuel ->
  (forall seg' nc',
     length seg' = length seg ->
     (acc = by_reference -> copyable -> seg' ≡ₚ seg) ->
     (copyable -> asymmetric -> Sorted le_ seg') ->
     (acc = by_reference -> copyable -> strict_weak_order -> same_order seg seg') ->
     Q tt (State (X ++ seg' ++ Y) bf stk nc' lg)) ->
  wp (binaryInsertionSort fuel left right) Q (State (X ++ seg ++ Y) bf stk nc lg).
Proof.
  clear dflt. intros HX Hseg Hlr Hfuel HQ.
  destruct access_cases as [Hacc|(two & cp & Hacc)].
  - apply wp_binaryInsertionSort_reference; try done.
    intros seg' nc' H1 H2 H3 H4. apply HQ; auto.
  - apply (wp_binaryInsertionSort_proxy two cp); try done.
    intros seg' nc' H1 H2. apply HQ; [done| |auto|].
    + intros E. rewrite Hacc in E. discriminate.
    + intros E. rewrite Hacc in E. discriminate.
Qed.

(** ** mergeRuns *)

Lemma wp_buffer_size Q st :
  Q (length (buffer st)) st -> wp buffer_size Q st.
Proof. done. Qed.

Lemma wp_buffer_resize k Q st :
  Q tt (set_buffer (take k (buffer st) ++ replicate (k - length (buffer st)) dflt) st) ->
  wp (buffer_resize k) Q st.
Proof. done. Qed.

(** One turn of the merge loop, with [x] at the left cursor and [y] at the
    right cursor: [x] is placed when [comp x y] holds, [y] otherwise. *)
Lemma mergeRuns_body_choice left_ right_ dest x y st :
  buffer st !! left_ = Some x -> arr st !! right_ = Some y -> dest < right_ ->
  exists st',
    mergeRuns_body (left_, right_, dest) st =
      Some (Next (if comp x y then (S left_, right_, S dest)
                  else (left_, S right_, S dest)), st') /\
    arr st' !! dest = Some (if comp x y then x else y).
Proof.
  intros Hx Hy Hd. pose proof (lookup_lt_Some _ _ _ Hy) as Hlen.
  assert (Hwp : wp (mergeRuns_body (left_, right_, dest))
            (fun r st' =>
               r = Next (if comp x y then (S left_, right_, S dest)
                         else (left_, S right_, S dest)) /\
               arr st' !! dest = Some (if comp x y then x else y)) st).
  2: { apply wp_eq in Hwp as (r & st' & E & -> & H). eauto. }
  unfold mergeRuns_body.
  apply wp_bind. eapply wp_buf_get; [exact Hx|].
  apply wp_bind. eapply wp_get_at; [exact Hy|].
  apply wp_bind, wp_call_comp. destruct (comp x y).
  - apply wp_bind. eapply wp_buf_move; [exact Hx|].
    apply wp_bind, wp_set_at; [simpl; lia|]. apply wp_ret.
    split; [done|]. simpl. apply list_lookup_insert_eq. lia.
  - apply wp_bind. eapply wp_move_at; [exact Hy|].
    apply wp_bind, wp_set_at; [simpl; rewrite length_insert; lia|]. apply wp_ret.
    split; [done|]. simpl. apply list_lookup_insert_eq. rewrite length_insert. lia.
Qed.

(** The two adjacent runs [L] and [R] are replaced by their merge, whatever
    the predicate and whatever a move leaves behind. *)
Lemma wp_mergeRuns fuel start mid end_ X L R Y bf stk nc lg Q :
  length X = start -> length L = mid - start -> length R = end_ - mid ->
  start <= mid -> mid <= end_ -> length L + length R < fuel ->
  (forall bf' nc', Q tt (State (X ++ merge_lists L R ++ Y) bf' stk nc' lg)) ->
  wp (mergeRuns fuel start mid end_) Q (State (X ++ L ++ R ++ Y) bf stk nc lg).
Proof.
  intros HX HL HR Hsm Hme Hfuel HQ. unfold mergeRuns.
  apply wp_bind, wp_buffer_size. cbn [buffer].
  apply wp_bind.
  (* after the resize the buffer has room for the left run *)
  apply (wp_mono _ (fun _ st => exists bf1,
           length L <= length bf1 /\ st = State (X ++ L ++ R ++ Y) bf1 stk nc lg)).
  { destruct (Nat.ltb_spec (length bf) (mid - start)) as [Hlt|Hge].
    - apply wp_buffer_resize. eexists. split; [|reflexivity].
      cbn [buffer]. rewrite length_app, length_take, length_replicate. lia.
    - apply wp_ret. exists bf. split; [lia|done]. }
  intros _ st (bf1 & Hbf1 & ->).
  apply wp_bind.
  apply (wp_buf_eq _ _ _ _ (take (length L) bf1 ++ drop (length L) bf1));
    [by rewrite take_drop|].
  apply wp_std_move_to_buffer; [done|done|lia| |lia|].
  { rewrite length_take. lia. }
  set (Brest := drop (length L) bf1).
  apply wp_bind.
  eapply wp_mono.
  - apply (wp_while
      (fun '(left_, right_, dest) st => exists out Ld Lr Rd Rr G Bd nc',
         L = Ld ++ Lr /\ R = Rd ++ Rr /\
         left_ = length Ld /\ right_ = mid + length Rd /\
         dest = start + length out /\ length out = length Ld + length Rd /\
         length G = length Lr /\ length Bd = length Ld /\
         out ++ merge_lists Lr Rr = merge_lists L R /\
         st = State (X ++ out ++ G ++ Rr ++ Y) (Bd ++ Lr ++ Brest) stk nc' lg)
      (fun '(left_, right_, _) _ => (mid - start - left_) + (end_ - right_))
      (fun '(left_, right_, dest) st => exists out Lr Rr G Bd nc',
         left_ = length Bd /\ length Bd + length Lr = length L /\
         dest = start + length out /\ length G = length Lr /\
         (Lr = [] \/ Rr = []) /\
         out ++ merge_lists Lr Rr = merge_lists L R /\
         st = State (X ++ out ++ G ++ Rr ++ Y) (Bd ++ Lr ++ Brest) stk nc' lg)).
    + intros [[left_ right_] dest] st
        (out & Ld & Lr & Rd & Rr & G & Bd & nc' &
         HLd & HRd & -> & -> & -> & Hout & HG & HBd & Hm & ->).
      assert (HlL : length L = length Ld + length Lr) by (rewrite HLd; len).
      assert (HlR : length R = length Rd + length Rr) by (rewrite HRd; len).
      apply wp_ret.
      destruct (Nat.eqb_spec (length Ld) (0 + (mid - start))) as [He1|He1]; cbn [negb andb].
      { exists out, Lr, Rr, G, Bd, nc'. assert (Lr = []) as -> by (apply nil_length_inv; lia).
        repeat split; try done; try lia. by left. }
      destruct (Nat.eqb_spec (mid + length Rd) end_) as [He2|He2]; cbn [negb andb].
      { exists out, Lr, Rr, G, Bd, nc'. assert (Rr = []) as -> by (apply nil_length_inv; lia).
        repeat split; try done; try lia. by right. }
      destruct Lr as [|l Lr]; [simpl in *; lia|].
      destruct Rr as [|r Rr]; [simpl in *; lia|].
      destruct G as [|g G]; [simpl in *; lia|].
      simpl in HG. unfold mergeRuns_body.
      apply wp_bind. buf_as (Bd ++ l :: (Lr ++ Brest)).
      apply wp_buf_get_mid; [lia|].
      apply wp_bind. arr_as ((X ++ out ++ g :: G) ++ r :: (Rr ++ Y)).
      apply wp_get_at_mid; [len|].
      apply wp_bind, wp_call_comp. unfold count_comp. cbn [arr buffer runStack ncomp stackLog].
      rewrite merge_lists_cons in Hm.
      destruct (comp l r) eqn:Hc.
      * (* the head of the left run is placed *)
        apply wp_bind. apply wp_buf_move_mid; [lia|].
        apply wp_bind. arr_as ((X ++ out) ++ g :: (G ++ r :: Rr ++ Y)).
        apply wp_set_at_mid; [len|].
        apply wp_ret. split; [|simpl in *; lia].
        exists (out ++ [l]), (Ld ++ [l]), Lr, Rd, (r :: Rr), G, (Bd ++ [moved l]), (S nc').
        split; [rewrite HLd; list_eq_assoc|]. split; [done|].
        split; [len|]. split; [done|]. split; [len|]. split; [len|].
        split; [len|]. split; [len|].
        split; [rewrite <- Hm; list_eq_assoc|].
        f_equal; list_eq_assoc.
      * (* the head of the right run is placed *)
        apply wp_bind. apply wp_move_at_mid; [len|].
        apply wp_bind. arr_as ((X ++ out) ++ g :: (G ++ moved r :: Rr ++ Y)).
        apply wp_set_at_mid; [len|].
        apply wp_ret. split; [|simpl in *; lia].
        exists (out ++ [r]), Ld, (l :: Lr), (Rd ++ [r]), Rr, (G ++ [moved r]), Bd, (S nc').
        split; [done|]. split; [rewrite HRd; list_eq_assoc|].
        split; [done|]. split; [len|]. split; [len|]. split; [len|].
        split; [len|]. split; [len|].
        split; [rewrite <- Hm; list_eq_assoc|].
        f_equal; list_eq_assoc.
    + exists [], [], L, [], R, (moved <$> L), [], nc.
      rewrite length_fmap. simpl. repeat split; try done; lia.
    + simpl. lia.
  - intros [[left_ right_] dest] st
      (out & Lr & Rr & G & Bd & nc' & -> & HBd & -> & HG & Hnil & Hm & ->).
    destruct (Nat.eqb_spec (length Bd) (0 + (mid - start))) as [He|He]; cbn [negb].
    + apply wp_ret. assert (Lr = []) as -> by (apply nil_length_inv; lia).
      assert (G = []) as -> by (apply nil_length_inv; simpl in *; lia).
      rewrite merge_lists_nil_l in Hm. simpl.
      replace (X ++ out ++ Rr ++ Y) with (X ++ merge_lists L R ++ Y)
        by (rewrite <- Hm; list_eq_assoc).
      apply HQ.
    + destruct Hnil as [-> | ->]; [simpl in *; lia|].
      rewrite merge_lists_nil_r in Hm.
      arr_as ((X ++ out) ++ G ++ Y).
      apply wp_std_move_from_buffer; [done|lia|lia|len|done|lia|].
      replace ((X ++ out) ++ Lr ++ Y) with (X ++ merge_lists L R ++ Y)
        by (rewrite <- Hm; list_eq_assoc).
      apply HQ.
Qed.

(** ** The run detector *)

Lemma last_slice (a b : nat) (l : list A) :
  a < b -> b <= length l -> last (slice a b l) = l !! (b - 1).
Proof.
  intros Hab Hb. rewrite last_lookup, length_slice by done.
  rewrite lookup_slice by lia. f_equal. lia.
Qed.

Lemma slice_one (a : nat) (l : list A) x :
  l !! a = Some x -> slice a (a + 1) l = [x].
Proof.
  intros Hx. replace (a + 1) with (S a) by lia.
  rewrite (slice_snoc a a l x) by (done || lia). by rewrite slice_nil.
Qed.

Lemma wp_extend_descending fuel n start l bf stk nc lg Q :
  n <= length l -> start + 1 <= n -> n < fuel ->
  (forall runLen nc',
     1 <= runLen -> start + runLen <= n ->
     Sorted (run_rel true) (slice start (start + runLen) l) ->
     run_stops true n start runLen l ->
     Q runLen (State l bf stk nc' lg)) ->
  wp (while fuel
        (fun runLen =>
           if start + runLen <? n then
             bind (get_at (start + runLen)) (fun a =>
             bind (get_at (start + runLen - 1)) (fun b =>
             call_comp a b))
           else ret false)
        (fun runLen => ret (Next (S runLen)))
        1) Q (State l bf stk nc lg).
Proof.
  intros Hn Hs Hfuel HQ.
  eapply wp_mono.
  - apply (wp_while
      (fun runLen st =>
         1 <= runLen /\ start + runLen <= n /\
         Sorted (run_rel true) (slice start (start + runLen) l) /\
         exists nc', st = State l bf stk nc' lg)
      (fun runLen _ => n - (start + runLen))
      (fun runLen st =>
         1 <= runLen /\ start + runLen <= n /\
         Sorted (run_rel true) (slice start (start + runLen) l) /\
         run_stops true n start runLen l /\
         exists nc', st = State l bf stk nc' lg)).
    + intros runLen st (H1 & H2 & Hsorted & nc' & ->).
      destruct (Nat.ltb_spec (start + runLen) n) as [Hlt|Hge].
      * destruct (lookup_lt_is_Some_2 l (start + runLen)) as [a Ha]; [lia|].
        destruct (lookup_lt_is_Some_2 l (start + runLen - 1)) as [b Hb]; [lia|].
        apply wp_bind. eapply wp_get_at; [exact Ha|].
        apply wp_bind. eapply wp_get_at; [exact Hb|].
        apply wp_call_comp. destruct (comp a b) eqn:Hc.
        -- apply wp_ret. split; [|lia]. split; [lia|]. split; [lia|].
           split; [|eauto].
           replace (start + S runLen) with (S (start + runLen)) by lia.
           rewrite (slice_snoc _ _ _ a) by (done || lia).
           apply Sorted_snoc_last; [done|]. intros y Hy.
           rewrite last_slice in Hy by lia.
           unfold run_rel. congruence.
        -- split; [done|]. split; [done|]. split; [done|]. split; [|eauto].
           intros _. exists a, b. done.
      * apply wp_ret. split; [done|]. split; [done|]. split; [done|].
        split; [|eauto]. intros ?. lia.
    + split; [done|]. split; [lia|]. split; [|eauto].
      destruct (lookup_lt_is_Some_2 l start) as [b Hb]; [lia|].
      rewrite (slice_one _ _ b) by done. by repeat constructor.
    + lia.
  - intros runLen st (H1 & H2 & H3 & H4 & nc' & ->). by apply HQ.
Qed.

Lemma wp_extend_ascending fuel n start l bf stk nc lg Q :
  n <= length l -> start + 1 <= n -> n < fuel ->
  (forall runLen nc',
     1 <= runLen -> start + runLen <= n ->
     Sorted (run_rel false) (slice start (start + runLen) l) ->
     run_stops false n start runLen l ->
     Q runLen (State l bf stk nc' lg)) ->
  wp (while fuel
        (fun runLen =>
           if start + runLen <? n then
             bind (get_at (start + runLen)) (fun a =>
             bind (get_at (start + runLen - 1)) (fun b =>
             bind (call_comp a b) (fun c => ret (negb c))))
           else ret false)
        (fun runLen => ret (Next (S runLen)))
        1) Q (State l bf stk nc lg).
Proof.
  intros Hn Hs Hfuel HQ.
  eapply wp_mono.
  - apply (wp_while
      (fun runLen st =>
         1 <= runLen /\ start + runLen <= n /\
         Sorted (run_rel false) (slice start (start + runLen) l) /\
         exists nc', st = State l bf stk nc' lg)
      (fun runLen _ => n - (start + runLen))
      (fun runLen st =>
         1 <= runLen /\ start + runLen <= n /\
         Sorted (run_rel false) (slice start (start + runLen) l) /\
         run_stops false n start runLen l /\
         exists nc', st = State l bf stk nc' lg)).
    + intros runLen st (H1 & H2 & Hsorted & nc' & ->).
      destruct (Nat.ltb_spec (start + runLen) n) as [Hlt|Hge].
      * destruct (lookup_lt_is_Some_2 l (start + runLen)) as [a Ha]; [lia|].
        destruct (lookup_lt_is_Some_2 l (start + runLen - 1)) as [b Hb]; [lia|].
        apply wp_bind. eapply wp_get_at; [exact Ha|].
        apply wp_bind. eapply wp_get_at; [exact Hb|].
        apply wp_bind, wp_call_comp, wp_ret. destruct (comp a b) eqn:Hc; cbn [negb].
        -- split; [done|]. split; [done|]. split; [done|]. split; [|eauto].
           intros _. exists a, b. done.
        -- apply wp_ret. split; [|lia]. split; [lia|]. split; [lia|].
           split; [|eauto].
           replace (start + S runLen) with (S (start + runLen)) by lia.
           rewrite (slice_snoc _ _ _ a) by (done || lia).
           apply Sorted_snoc_last; [done|]. intros y Hy.
           rewrite last_slice in Hy by lia.
           unfold run_rel. congruence.
      * apply wp_ret. split; [done|]. split; [done|]. split; [done|].
        split; [|eauto]. intros ?. lia.
    + split; [done|]. split; [lia|]. split; [|eauto].
      destruct (lookup_lt_is_Some_2 l start) as [b Hb]; [lia|].
      rewrite (slice_one _ _ b) by done. by repeat constructor.
    + lia.
  - intros runLen st (H1 & H2 & H3 & H4 & nc' & ->). by apply HQ.
Qed.

Lemma wp_detectRun fuel n start l bf stk nc lg Q :
  n <= length l -> n < fuel ->
  (forall runLen l' nc',
     detected n start l nc runLen l' nc' -> Q runLen (State l' bf stk nc' lg)) ->
  wp (detectRun fuel n start) Q (State l bf stk nc lg).
Proof.
  intros Hn Hfuel HQ. unfold detectRun.
  destruct (Nat.ltb_spec (start + 1) n) as [Hlt|Hge].
  - destruct (lookup_lt_is_Some_2 l (start + 1)) as [a Ha]; [lia|].
    destruct (lookup_lt_is_Some_2 l start) as [b Hb]; [lia|].
    apply wp_bind. eapply wp_get_at; [exact Ha|].
    apply wp_bind. eapply wp_get_at; [exact Hb|].
    apply wp_bind, wp_call_comp. unfold count_comp.
    cbn [arr buffer runStack ncomp stackLog].
    destruct (comp a b) eqn:Hc.
    + apply wp_bind. apply wp_extend_descending; [done|lia|done|].
      intros runLen nc' H1 H2 Hsorted Hstop.
      apply wp_bind.
      apply (wp_arr_eq _ _ _ (take start l ++ slice start (start + runLen) l ++
                              drop (start + runLen) l));
        [apply slice_decompose; lia|].
      apply wp_std_reverse; [rewrite length_take; lia|rewrite length_slice; lia|lia|lia|].
      apply wp_ret. apply HQ.
      split; [done|]. split; [done|]. split; [lia|]. intros _.
      exists a, b, true. done.
    + apply wp_extend_ascending; [done|lia|done|].
      intros runLen nc' H1 H2 Hsorted Hstop. apply HQ.
      split; [done|]. split; [done|]. split; [lia|]. intros _.
      exists a, b, false. done.
  - apply wp_ret. apply HQ.
    split; [done|]. split; [lia|]. split; [done|]. lia.
Qed.

(** ** The run stack *)

Lemma runs_from_app (a c : nat) (s1 s2 : list Run) :
  runs_from a (s1 ++ s2) c <-> exists b, runs_from a s1 b /\ runs_from b s2 c.
Proof.
  revert a. induction s1 as [|r s1 IH]; intros a; simpl.
  - split; [eauto|]. by intros (b & -> & H).
  - rewrite IH. split.
    + intros (H1 & H2 & b & H3 & H4). eauto 10.
    + intros (b & (H1 & H2 & H3) & H4). eauto 10.
Qed.

Lemma runs_from_le (a b : nat) (s : list Run) : runs_from a s b -> a <= b.
Proof.
  revert a. induction s as [|r s IH]; intros a; simpl; [lia|].
  intros (_ & _ & H). apply IH in H. lia.
Qed.

(** No run is empty, so a stack that covers [a, b) has at most [b - a] runs. *)
Lemma runs_from_length (a b : nat) (s : list Run) :
  runs_from a s b -> a + length s <= b.
Proof.
  revert a. induction s as [|r s IH]; intros a; simpl; [lia|].
  intros (_ & H1 & H). apply IH in H. lia.
Qed.

Lemma runs_from_bounds (a b : nat) (s : list Run) r :
  runs_from a s b -> r ∈ s ->
  a <= Run.start r /\ Run.start r + Run.length r <= b.
Proof.
  revert a. induction s as [|r' s IH]; intros a; simpl; [by intros _ ?%elem_of_nil|].
  intros (H1 & H2 & H3) [->|Hin]%elem_of_cons.
  - apply runs_from_le in H3. lia.
  - destruct (IH _ H3 Hin). lia.
Qed.

Lemma runs_from_in_range (n b : nat) (s : list Run) :
  runs_from 0 s b -> b <= n -> stack_in_range n s.
Proof. intros H Hb r Hr. destruct (runs_from_bounds _ _ _ _ H Hr). lia. Qed.

Lemma runs_from_contiguous (a b : nat) (s : list Run) :
  runs_from a s b -> stack_contiguous s.
Proof.
  revert a. induction s as [|r s IH]; intros a; simpl; [by intros _ i ???|].
  intros (H1 & H2 & H3) [|i] r1 r2 Hr1 Hr2; simpl in *.
  - injection Hr1 as <-. destruct s as [|r' s]; [done|].
    simpl in Hr2. injection Hr2 as <-. simpl in H3. lia.
  - by eapply IH.
Qed.

Lemma runs_from_single (a b : nat) (s : list Run) :
  runs_from a s b -> a < b -> length s <= 1 ->
  s = [Run.mk a (b - a)].
Proof.
  destruct s as [|[st ln] [|r' s]]; simpl; intros H Hab Hl; [lia| |lia].
  destruct H as (-> & H1 & <-). do 2 f_equal. lia.
Qed.

Lemma wp_stack_size Q st :
  Q (length (runStack st)) st -> wp stack_size Q st.
Proof. done. Qed.

Lemma wp_stack_at i r Q st :
  runStack st !! i = Some r -> Q r st -> wp (stack_at i) Q st.
Proof. unfold wp, stack_at. by intros ->. Qed.

Lemma wp_stack_back s r Q st :
  runStack st = s ++ [r] -> Q r st -> wp stack_back Q st.
Proof. unfold wp, stack_back. intros ->. by rewrite last_snoc. Qed.

Lemma wp_stack_pop_back s r Q st :
  runStack st = s ++ [r] -> Q tt (set_runStack s st) -> wp stack_pop_back Q st.
Proof.
  unfold wp, stack_pop_back. intros ->. rewrite removelast_last.
  by destruct s.
Qed.

Lemma wp_stack_push_back r Q st :
  Q tt (set_runStack (runStack st ++ [r]) st) -> wp (stack_push_back r) Q st.
Proof. done. Qed.

(** A stack with two runs or more ends with two runs. *)
Lemma two_last {X : Type} (s : list X) :
  2 <= length s -> exists s' x y, s = s' ++ [x; y].
Proof.
  intros Hs. destruct (snoc_or_nil s) as [->|(s1 & y & ->)]; [simpl in Hs; lia|].
  destruct (snoc_or_nil s1) as [->|(s' & x & ->)]; [simpl in Hs; lia|].
  exists s', x, y. by rewrite <- app_assoc.
Qed.

(** The decision reads the stack and changes nothing; it is negative only
    on a balanced stack. *)
Lemma wp_shouldMerge st :
  wp shouldMerge
     (fun b st' => st' = st /\ (b = false -> balanced (runStack st))) st.
Proof.
  unfold shouldMerge, balanced.
  set (size := length (runStack st)).
  assert (Hlook : forall k, 1 <= k <= size ->
            exists r, runStack st !! (size - k) = Some r).
  { intros k Hk. apply lookup_lt_is_Some_2. unfold size in *. lia. }
  apply wp_bind, wp_stack_size. fold size. apply wp_bind.
  destruct (Nat.leb_spec 3 size) as [H3|H3].
  - destruct (Hlook 3) as [rA HA]; [lia|]. destruct (Hlook 2) as [rB HB]; [lia|].
    destruct (Hlook 1) as [rC HC]; [lia|].
    apply wp_bind. eapply wp_stack_at; [exact HA|].
    apply wp_bind. eapply wp_stack_at; [exact HB|].
    apply wp_bind. eapply wp_stack_at; [exact HC|]. apply wp_ret.
    destruct (Nat.leb_spec (Run.length rA) (Run.length rB + Run.length rC)) as [Hm|Hm];
      cbn [negb andb].
    + by apply wp_ret.
    + destruct (Nat.leb_spec 2 size) as [_|?]; [|lia].
      apply wp_bind. eapply wp_stack_at; [exact HB|].
      apply wp_bind. eapply wp_stack_at; [exact HC|]. apply wp_ret.
      destruct (Nat.leb_spec (Run.length rB) (Run.length rC)) as [Hm'|Hm'].
      * done.
      * split; [done|]. intros _. split.
        -- intros _ ??? ? ? ?. simplify_eq. lia.
        -- intros _ ?? ? ?. simplify_eq. lia.
  - apply wp_ret. cbn [negb andb]. destruct (Nat.leb_spec 2 size) as [H2|H2].
    + destruct (Hlook 2) as [rB HB]; [lia|]. destruct (Hlook 1) as [rC HC]; [lia|].
      apply wp_bind. eapply wp_stack_at; [exact HB|].
      apply wp_bind. eapply wp_stack_at; [exact HC|]. apply wp_ret.
      destruct (Nat.leb_spec (Run.length rB) (Run.length rC)) as [Hm'|Hm'].
      * done.
      * split; [done|]. intros _. split; [lia|].
        intros _ ?? ? ?. simplify_eq. lia.
    + apply wp_ret. split; [done|]. intros _. split; lia.
Qed.


(** ** The merge of the two topmost runs *)

Lemma Sorted_mono (R R' : A -> A -> Prop) (l : list A) :
  (forall x y, R x y -> R' x y) -> Sorted R l -> Sorted R' l.
Proof.
  intros HR Hs. apply Sorted_of_lookup. intros i x y Hx Hy.
  apply HR. by eapply Sorted_lookup.
Qed.

Lemma runs_sorted_prefix (pre pre' : list A) (s : list Run) (a b : nat) :
  runs_from a s b -> take b pre' = take b pre ->
  runs_sorted pre s -> runs_sorted pre' s.
Proof.
  intros Hruns Htake Hs. unfold runs_sorted in *.
  rewrite Forall_forall in *. intros r Hr.
  destruct (runs_from_bounds _ _ _ _ Hruns Hr) as [_ Hb].
  rewrite (slice_take_eq _ _ b pre' pre) by done. by apply Hs.
Qed.

Lemma wp_mergeTop fuel l0 n pos st Q :
  driver_inv l0 n pos st -> 2 <= length (runStack st) -> n < fuel ->
  (forall st', driver_inv l0 n pos st' ->
               length (runStack st') + 1 = length (runStack st) -> Q tt st') ->
  wp (mergeTop fuel) Q st.
Proof.
  intros (pre & Harr & Hpre & Hpn & Hn & Hruns & Hlog & Hperm & Hsorted) Hsize Hfuel HQ.
  destruct st as [l bf stk nc lg]. cbn [arr runStack stackLog] in *.
  destruct (two_last stk Hsize) as (s' & r1 & r2 & ->).
  apply runs_from_app in Hruns as (a & Hs' & Hr1 & Hl1 & Hr2 & Hl2 & Hend).
  simpl in Hend.
  set (len1 := Run.length r1) in *. set (len2 := Run.length r2) in *.
  set (X := take a pre). set (L := take len1 (drop a pre)).
  set (R := drop (a + len1) pre).
  assert (Hdec : pre = X ++ L ++ R).
  { unfold X, L, R. rewrite <- drop_drop. by rewrite !take_drop. }
  assert (HlX : length X = a) by (unfold X; rewrite length_take; lia).
  assert (HlL : length L = len1)
    by (unfold L; rewrite length_take, length_drop; lia).
  assert (HlR : length R = len2) by (unfold R; rewrite length_drop; lia).
  assert (HsL : slice (Run.start r1) (Run.start r1 + Run.length r1) pre = L).
  { rewrite Hr1. fold len1. rewrite Hdec. by apply slice_app_mid; [|lia|lia]. }
  assert (HsR : slice (Run.start r2) (Run.start r2 + Run.length r2) pre = R).
  { rewrite Hr2. fold len1 len2. rewrite Hdec, app_assoc.
    rewrite <- (app_nil_r R) at 1.
    apply slice_app_mid; [rewrite length_app|..]; lia. }
  unfold mergeTop.
  apply wp_bind. eapply (wp_stack_back (s' ++ [r1]) r2); [cbn; list_eq_assoc|].
  apply wp_bind. eapply (wp_stack_pop_back (s' ++ [r1]) r2); [cbn; list_eq_assoc|].
  unfold set_runStack. cbn [arr buffer runStack ncomp stackLog].
  apply wp_bind. eapply (wp_stack_back s' r1); [done|].
  apply wp_bind. eapply (wp_stack_pop_back s' r1); [done|].
  unfold set_runStack. cbn [arr buffer runStack ncomp stackLog].
  apply wp_bind. rewrite Hr1. fold len1 len2.
  arr_as (X ++ L ++ R ++ drop pos l0) by (rewrite Harr, Hdec; list_eq_assoc).
  apply wp_mergeRuns; [done|lia|lia|lia|lia|lia|].
  intros bf' nc'. apply wp_stack_push_back.
  unfold set_runStack. cbn [arr buffer runStack ncomp stackLog].
  apply HQ; cbn [runStack]; [|len].
  exists (X ++ merge_lists L R).
  cbn [arr runStack stackLog].
  split; [list_eq_assoc|].
  split; [rewrite length_app, merge_lists_length; lia|].
  split; [done|]. split; [done|]. split.
  { apply runs_from_app. exists a. split; [done|]. simpl. lia. }
  split.
  { unfold log_ok. constructor; [|constructor; [|constructor; [|done]]].
    - exists pos. split; [done|]. apply runs_from_app. exists a.
      split; [done|]. simpl. lia.
    - exists a. split; [lia|done].
    - exists (a + len1). split; [lia|]. apply runs_from_app. exists a.
      split; [done|]. simpl. fold len1. lia. }
  split.
  { intros Hr Hcp. rewrite <- (Hperm Hr Hcp), Hdec. by rewrite merge_lists_perm. }
  intros Hcp Has. specialize (Hsorted Hcp Has).
  apply Forall_app in Hsorted as [Hs1 Hs2].
  apply Forall_cons in Hs2 as [HL Hs2]. apply Forall_cons in Hs2 as [HR _].
  rewrite HsL in HL. rewrite HsR in HR.
  apply Forall_app. split.
  - eapply (runs_sorted_prefix pre); [exact Hs'| |done].
    rewrite Hdec. rewrite !take_app_length'; done.
  - apply Forall_cons. split; [|done]. cbn [Run.start Run.length].
    rewrite <- (app_nil_r (merge_lists L R)).
    rewrite slice_app_mid; [|done|rewrite merge_lists_length; lia|lia].
    by apply Sorted_merge_lists.
Qed.

(** ** The loops of merges *)

Lemma wp_mergeCollapse fuel l0 n pos st Q :
  driver_inv l0 n pos st -> n < fuel ->
  (forall st', driver_inv l0 n pos st' -> Q tt st') ->
  wp (mergeCollapse fuel) Q st.
Proof.
  intros Hinv Hfuel HQ. unfold mergeCollapse.
  eapply wp_mono.
  - apply (wp_while
      (fun _ st => driver_inv l0 n pos st)
      (fun _ st => length (runStack st))
      (fun _ st => driver_inv l0 n pos st)).
    + intros [] st1 Hinv1.
      apply wp_bind, wp_stack_size, wp_ret.
      destruct (Nat.ltb_spec 1 (length (runStack st1))) as [Hsz|Hsz]; [|done].
      apply wp_bind. eapply wp_mono; [apply wp_shouldMerge|].
      intros [|] st2 [-> _]; cbv beta.
      * apply wp_bind. apply (wp_mergeTop _ l0 n pos); [done|lia|done|].
        intros st3 Hinv3 Hlen. apply wp_ret. split; [done|lia].
      * by apply wp_ret.
    + done.
    + destruct Hinv as (pre & _ & _ & Hpn & _ & Hruns & _).
      apply runs_from_length in Hruns. lia.
  - intros [] st' Hinv'. by apply HQ.
Qed.

Lemma wp_mergeForce fuel l0 n pos st Q :
  driver_inv l0 n pos st -> n < fuel ->
  (forall st', driver_inv l0 n pos st' -> length (runStack st') <= 1 -> Q tt st') ->
  wp (mergeForce fuel) Q st.
Proof.
  intros Hinv Hfuel HQ. unfold mergeForce.
  eapply wp_mono.
  - apply (wp_while
      (fun _ st => driver_inv l0 n pos st)
      (fun _ st => length (runStack st))
      (fun _ st => driver_inv l0 n pos st /\ length (runStack st) <= 1)).
    + intros [] st1 Hinv1.
      apply wp_bind, wp_stack_size, wp_ret.
      destruct (Nat.ltb_spec 1 (length (runStack st1))) as [Hsz|Hsz]; [|done].
      apply wp_bind. apply (wp_mergeTop _ l0 n pos); [done|lia|done|].
      intros st3 Hinv3 Hlen. apply wp_ret. split; [done|lia].
    + done.
    + destruct Hinv as (pre & _ & _ & Hpn & _ & Hruns & _).
      apply runs_from_length in Hruns. lia.
  - intros [] st' [Hinv' Hlen]. by apply HQ.
Qed.

(** ** One run: detection and extension *)

Lemma Sorted_short (R : A -> A -> Prop) (l : list A) :
  length l <= 1 -> Sorted R l.
Proof. destruct l as [|x [|y l]]; simpl; intros; [| |lia]; by repeat constructor. Qed.

Lemma detected_segment n start pre rest nc runLen l' nc' :
  length pre = start -> start < n -> n <= length (pre ++ rest) ->
  detected n start (pre ++ rest) nc runLen l' nc' ->
  exists seg,
    l' = pre ++ seg ++ drop runLen rest /\ length seg = runLen /\
    seg ≡ₚ take runLen rest /\ (asymmetric -> Sorted le_ seg) /\
    (strict_weak_order -> same_order (take runLen rest) seg) /\
    1 <= runLen /\ start + runLen <= n.
Proof.
  intros Hpre Hs Hn (H1 & H2 & H3 & H4). specialize (H2 Hs).
  rewrite length_app in Hn.
  assert (Hslice : slice start (start + runLen) (pre ++ rest) = take runLen rest).
  { unfold slice. rewrite drop_app_length' by done. f_equal. lia. }
  assert (Hlen : length (take runLen rest) = runLen) by (rewrite length_take; lia).
  destruct (decide (n <= start + 1)) as [Hlast|Hmore].
  - destruct (H3 Hlast) as (-> & -> & _).
    exists (take 1 rest). rewrite take_drop.
    split; [done|]. split; [done|]. split; [done|].
    split; [intros _; apply Sorted_short; lia|]. split; [done|lia].
  - destruct H4 as (a & b & d & Ha & Hb & Hd & Hsorted & Hstop & Hl'); [lia|].
    rewrite Hslice in Hsorted, Hl'.
    rewrite take_app_length', drop_app_add' in Hl' by done.
    destruct d.
    + exists (reverse (take runLen rest)). rewrite length_reverse.
      split; [done|]. split; [done|]. split; [apply reverse_Permutation|].
      split; [|split; [|lia]].
      * intros Has. apply Sorted_reverse in Hsorted.
        eapply Sorted_mono; [|exact Hsorted].
        intros x y Hxy. unfold flip, run_rel in Hxy. by apply Has.
      * intros Hswo. by apply same_order_reverse.
    + exists (take runLen rest). rewrite take_drop.
      split; [done|]. split; [done|]. split; [done|].
      split; [intros _; exact Hsorted|]. split; [done|lia].
Qed.

(** The next run starts at [start], where the range holds [rest]: after the
    detection and the extension it is a segment [seg] of [runLen]
    elements, sorted when moves are copies and the predicate is asymmetric;
    with references it is a permutation of the first [runLen] elements of
    [rest], in which equivalent elements keep their order when the
    predicate is a strict weak ordering. *)
Lemma wp_next_run fuel n minRun start pre rest bf stk nc lg Q :
  length pre = start -> start < n -> n <= length (pre ++ rest) -> n < fuel ->
  (forall runLen seg nc',
     1 <= runLen -> start + runLen <= n -> length seg = runLen ->
     (acc = by_reference -> copyable -> seg ≡ₚ take runLen rest) ->
     (copyable -> asymmetric -> Sorted le_ seg) ->
     (acc = by_reference -> copyable -> strict_weak_order ->
        same_order (take runLen rest) seg) ->
     Nat.min minRun (n - start) <= runLen ->
     Q runLen (State (pre ++ seg ++ drop runLen rest) bf stk nc' lg)) ->
  wp (bind (detectRun fuel n start)
           (fun runLen => extendRun fuel n minRun start runLen))
     Q (State (pre ++ rest) bf stk nc lg).
Proof.
  intros Hpre Hs Hn Hfuel HQ.
  apply wp_bind. apply wp_detectRun; [done|done|].
  intros runLen l' nc' Hdet.
  destruct (detected_segment _ _ _ _ _ _ _ _ Hpre Hs Hn Hdet)
    as (seg & -> & Hlen & Hperm & Hsorted & Hstab & H1 & H2).
  rewrite length_app in Hn.
  unfold extendRun. destruct (Nat.ltb_spec runLen minRun) as [Hshort|Hlong].
  - set (force := Nat.min minRun (n - start)).
    assert (Hf1 : runLen <= force) by (unfold force; lia).
    assert (Hf2 : start + force <= n) by (unfold force; lia).
    set (rest' := seg ++ drop runLen rest).
    assert (Hrest' : length rest' = length rest).
    { unfold rest'. rewrite length_app, length_drop. lia. }
    apply wp_bind.
    arr_as (pre ++ take force rest' ++ drop force rest')
      by (by rewrite take_drop).
    apply wp_binaryInsertionSort; [done|rewrite length_take; lia|lia|lia|].
    intros seg' nc'' Hlen' Hperm' Hsorted' Hstab'. apply wp_ret.
    rewrite length_take in Hlen'.
    replace (drop force rest') with (drop force rest).
    2: { unfold rest'. rewrite drop_app_ge by lia. rewrite drop_drop.
         f_equal. lia. }
    assert (Htake : take force rest =
                    take runLen rest ++ take (force - runLen) (drop runLen rest)).
    { rewrite take_take_drop. f_equal. lia. }
    apply HQ; [lia|lia|lia| |done| |done].
    + intros Hr Hcp. rewrite (Hperm' Hr Hcp). unfold rest'.
      rewrite take_app_ge by lia. by rewrite Hlen, Hperm, Htake.
    + intros Hr Hcp Hswo x. rewrite (Hstab' Hr Hcp Hswo x). unfold rest'.
      rewrite take_app_ge by lia.
      rewrite Hlen, Htake, !List.filter_app. f_equal. by apply Hstab.
  - apply wp_ret. apply HQ; try done; try lia.
    all: intros _ H; first [by apply Hsorted | by apply Hstab].
Qed.

(** ** The scan *)

Lemma wp_scan fuel l0 n minRun st Q :
  driver_inv l0 n 0 st -> n < fuel ->
  (forall st', driver_inv l0 n n st' -> Q tt st') ->
  wp (scan fuel n minRun) Q st.
Proof.
  intros Hinv Hfuel HQ. unfold scan. apply wp_bind.
  eapply wp_mono.
  - apply (wp_while
      (fun start st => driver_inv l0 n start st)
      (fun start _ => n - start)
      (fun _ st => driver_inv l0 n n st)).
    + intros start st1 Hinv1. apply wp_ret.
      destruct (Nat.ltb_spec start n) as [Hlt|Hge].
      2: { assert (start = n) as <-
             by (destruct Hinv1 as (? & _ & _ & ? & _); lia).
           done. }
      destruct Hinv1 as (pre & Harr & Hpre & Hpn & Hn & Hruns & Hlog & Hperm & Hsorted).
      destruct st1 as [l bf stk nc lg]. cbn [arr runStack stackLog] in *.
      subst l.
      apply wp_bind_assoc, wp_bind.
      apply wp_next_run; [done|done|rewrite length_app, length_drop; lia|done|].
      intros runLen seg nc' H1 H2 Hlen Hperm' Hsorted' _ _.
      apply wp_bind, wp_stack_push_back.
      unfold set_runStack. cbn [arr buffer runStack ncomp stackLog].
      assert (Hruns' : runs_from 0 (stk ++ [Run.mk start runLen]) (start + runLen)).
      { apply runs_from_app. exists start. split; [done|]. simpl. lia. }
      apply wp_bind. apply (wp_mergeCollapse _ l0 n (start + runLen)); [|done|].
      * exists (pre ++ seg). cbn [arr runStack stackLog].
        split; [rewrite drop_drop; list_eq_assoc|].
        split; [rewrite length_app; lia|]. split; [done|]. split; [done|].
        split; [done|]. split.
        { constructor; [|done]. exists (start + runLen). done. }
        split.
        { intros Hr Hcp. rewrite (Hperm Hr Hcp), (Hperm' Hr Hcp).
          by rewrite take_take_drop. }
        intros Hcp Has. apply Forall_app. split.
        -- eapply (runs_sorted_prefix pre); [exact Hruns| |by apply Hsorted].
           by rewrite take_app_length', take_ge by lia.
        -- constructor; [|done]. cbn [Run.start Run.length].
           rewrite <- (app_nil_r seg).
           rewrite slice_app_mid; [by apply Hsorted'|done|lia|lia].
      * intros st2 Hinv2. apply wp_ret. split; [done|lia].
    + done.
    + lia.
  - intros start st' Hinv'. apply wp_ret. by apply HQ.
Qed.

(** ** timsortImpl *)

Lemma int_count_le (l : list A) : int_count l <= length l.
Proof.
  unfold int_count. pose proof (static_cast_int_le (Z.of_nat (length l))). lia.
Qed.

Lemma int_count_id (l : list A) :
  (Z.of_nat (length l) <= INT_MAX)%Z -> int_count l = length l.
Proof.
  intros Hl. unfold int_count. rewrite static_cast_int_id; [lia|].
  unfold INT_MIN. lia.
Qed.

Lemma wp_distance Q st : Q (length (arr st)) st -> wp distance Q st.
Proof. done. Qed.

Lemma wp_new_vectors Q st :
  Q tt (State (arr st) [] [] (ncomp st) ([] :: stackLog st)) ->
  wp new_vectors Q st.
Proof. done. Qed.

(** The call returns; the first [int_count l] elements of the range are
    rearranged, the others are left as they were. *)
Lemma wp_timsortImpl fuel l Q :
  length l < fuel ->
  (forall pre bf stk nc lg,
     length pre = int_count l -> length stk <= 1 -> log_ok (int_count l) lg ->
     (acc = by_reference -> copyable -> pre ≡ₚ take (int_count l) l) ->
     (copyable -> asymmetric -> Sorted le_ pre) ->
     Q tt (State (pre ++ drop (int_count l) l) bf stk nc lg)) ->
  wp (timsortImpl fuel) Q (initial l).
Proof.
  intros Hfuel HQ. pose proof (int_count_le l) as Hle.
  unfold timsortImpl. apply wp_bind, wp_distance. cbn [arr initial].
  fold (int_count l) in *.
  destruct (Z.leb_spec (static_cast_int (Z.of_nat (length l))) 1) as [Hsmall|Hbig].
  - apply wp_ret.
    assert (Hn : int_count l <= 1) by (unfold int_count; lia).
    pose proof (HQ (take (int_count l) l) [] [] 0 []) as H.
    rewrite take_drop in H. apply H.
    + rewrite length_take. lia.
    + simpl. lia.
    + constructor.
    + done.
    + intros _ _. apply Sorted_short. rewrite length_take. lia.
  - assert (Hn : 2 <= int_count l) by (unfold int_count; lia).
    apply wp_bind, wp_new_vectors. cbn [arr ncomp stackLog].
    apply wp_bind. apply (wp_scan _ l (int_count l)); [|lia|].
    { exists []. cbn [arr runStack stackLog]. rewrite drop_0, take_0.
      split; [done|]. split; [done|]. split; [lia|]. split; [done|].
      split; [done|]. split.
      - constructor; [|done]. exists 0. split; [lia|done].
      - split; [done|]. intros _ _. constructor. }
    intros st1 Hinv1.
    apply (wp_mergeForce _ l (int_count l) (int_count l)); [done|lia|].
    intros [l' bf stk nc lg] (pre & Harr & Hpre & _ & _ & Hruns & Hlog & Hperm & Hsorted) Hsize.
    cbn [arr runStack stackLog] in *. subst l'.
    apply HQ; try done.
    intros Hcp Has. specialize (Hsorted Hcp Has).
    rewrite (runs_from_single _ _ _ Hruns) in Hsorted by (lia || done).
    apply Forall_cons in Hsorted as [Hs _]. cbn [Run.start Run.length] in Hs.
    rewrite slice_full in Hs by lia. done.
Qed.

(** ** Partial correctness of the loops *)

Lemma wlp_of_wp {X} (c : M X) (Q : X -> state -> Prop) st :
  wp c Q st -> wlp c Q st.
Proof. unfold wp, wlp. intros H x st' E. by rewrite E in H. Qed.

Lemma wlp_any {X} (c : M X) (Q : X -> state -> Prop) st :
  (forall x st', Q x st') -> wlp c Q st.
Proof. intros H x st' _. apply H. Qed.

Lemma wlp_while_inv {L} (I Q : L -> state -> Prop) (cond : L -> M bool)
    (body : L -> M (flow L)) :
  (forall x st, I x st ->
     wlp (cond x) (fun (b : bool) st' =>
       if b then
         wlp (body x) (fun r st'' =>
           match r with
           | Next y => I y st''
           | Break y => Q y st''
           end) st'
       else Q x st') st) ->
  forall fuel x st, I x st -> wlp (while fuel cond body x) Q st.
Proof.
  intros Hstep fuel. induction fuel as [|fuel IH]; intros x st HI; [done|].
  cbn [while]. apply wlp_bind. eapply wlp_mono; [by apply Hstep|].
  intros [|] st' Hb; [|by apply wlp_ret].
  apply wlp_bind. eapply wlp_mono; [exact Hb|].
  intros [y|y] st'' Hr; [|by apply wlp_ret]. by apply IH.
Qed.

Lemma keeps_stack_ret {X} (x : X) : keeps_stack (ret x).
Proof. intros st y st' [= _ <-]. done. Qed.

Lemma keeps_stack_bind {X Y} (c : M X) (f : X -> M Y) :
  keeps_stack c -> (forall x, keeps_stack (f x)) -> keeps_stack (bind c f).
Proof.
  intros Hc Hf st y st''. unfold bind.
  destruct (c st) as [[x st']|] eqn:E; [|done]. intros E'.
  rewrite (Hf _ _ _ _ E'). by eapply Hc.
Qed.

Lemma keeps_stack_while {L} fuel (cond : L -> M bool) (body : L -> M (flow L)) x :
  (forall x, keeps_stack (cond x)) -> (forall x, keeps_stack (body x)) ->
  keeps_stack (while fuel cond body x).
Proof.
  intros Hc Hb. revert x. induction fuel as [|fuel IH]; intros x; [done|].
  cbn [while]. apply keeps_stack_bind; [done|]. intros [|]; [|apply keeps_stack_ret].
  apply keeps_stack_bind; [done|]. intros [y|y]; [apply IH|apply keeps_stack_ret].
Qed.

Lemma keeps_stack_get_at i : keeps_stack (get_at i).
Proof. intros st x st'. unfold get_at. destruct (arr st !! i); by intros [= _ <-]. Qed.

Lemma keeps_stack_set_at i x : keeps_stack (set_at i x).
Proof.
  intros st y st'. unfold set_at. destruct (i <? length (arr st)); [|done].
  by intros [= _ <-].
Qed.

Lemma keeps_stack_buf_get i : keeps_stack (buf_get i).
Proof. intros st x st'. unfold buf_get. destruct (buffer st !! i); by intros [= _ <-]. Qed.

Lemma keeps_stack_buf_set i x : keeps_stack (buf_set i x).
Proof.
  intros st y st'. unfold buf_set. destruct (i <? length (buffer st)); [|done].
  by intros [= _ <-].
Qed.

Lemma keeps_stack_call_comp a b : keeps_stack (call_comp a b).
Proof. by intros st y st' [= _ <-]. Qed.

Lemma keeps_stack_buffer_size : keeps_stack buffer_size.
Proof. by intros st y st' [= _ <-]. Qed.

Lemma keeps_stack_buffer_resize k : keeps_stack (buffer_resize k).
Proof. by intros st y st' [= _ <-]. Qed.

Ltac keeps :=
  repeat first
    [ apply keeps_stack_ret | apply keeps_stack_get_at | apply keeps_stack_set_at
    | apply keeps_stack_buf_get | apply keeps_stack_buf_set
    | apply keeps_stack_call_comp | apply keeps_stack_buffer_size
    | apply keeps_stack_buffer_resize
    | apply keeps_stack_bind | apply keeps_stack_while
    | progress intros
    | match goal with
      | x : (_ * _)%type |- _ => destruct x
      | |- keeps_stack (if ?b then _ else _) => destruct b
      | |- keeps_stack (match ?p with _ => _ end) => destruct p
      end ].

Lemma keeps_stack_mergeRuns fuel start mid end_ :
  keeps_stack (mergeRuns fuel start mid end_).
Proof.
  unfold mergeRuns, std_move_to_buffer, std_move_from_buffer, mergeRuns_body,
    move_at, buf_move.
  keeps.
Qed.

Lemma wlp_none {X} (c : M X) (Q : X -> state -> Prop) st :
  c st = None -> wlp c Q st.
Proof. intros E x st'. by rewrite E. Qed.

(** A merge takes two runs off the stack and puts one back. *)
Lemma mergeTop_size fuel st u st' :
  mergeTop fuel st = Some (u, st') ->
  length (runStack st') + 1 = length (runStack st).
Proof.
  revert u st'.
  change (wlp (mergeTop fuel)
            (fun _ st' => length (runStack st') + 1 = length (runStack st)) st).
  destruct (snoc_or_nil (runStack st)) as [E|(s1 & r2 & E)].
  { apply wlp_none. unfold mergeTop, bind, stack_back. by rewrite E. }
  unfold mergeTop.
  apply wlp_bind, wlp_of_wp. eapply wp_stack_back; [exact E|].
  apply wlp_bind, wlp_of_wp. eapply wp_stack_pop_back; [exact E|].
  destruct (snoc_or_nil s1) as [->|(s0 & r1 & ->)].
  { by apply wlp_none. }
  apply wlp_bind, wlp_of_wp. eapply (wp_stack_back s0 r1); [done|].
  apply wlp_bind, wlp_of_wp. eapply (wp_stack_pop_back s0 r1); [done|].
  apply wlp_bind. intros [] st1 Em. apply keeps_stack_mergeRuns in Em.
  apply wlp_of_wp, wp_stack_push_back. cbn [set_runStack runStack] in *.
  rewrite Em, E, !length_app. simpl. lia.
Qed.

(** The detector never reports an empty run. *)
Lemma detectRun_positive fuel n start st runLen st' :
  detectRun fuel n start st = Some (runLen, st') -> 1 <= runLen.
Proof.
  revert runLen st'. change (wlp (detectRun fuel n start) (fun r _ => 1 <= r) st).
  unfold detectRun. destruct (start + 1 <? n); [|by apply wlp_ret].
  apply wlp_bind, wlp_any. intros a st1.
  apply wlp_bind, wlp_any. intros b st2.
  apply wlp_bind, wlp_any. intros [|] st3.
  - apply wlp_bind. eapply wlp_mono.
    + apply (wlp_while_inv (fun r _ => 1 <= r) (fun r _ => 1 <= r)); [|lia].
      intros r st4 Hr. apply wlp_any. intros [|] st5; [|done].
      apply wlp_ret. lia.
    + intros r st4 Hr. apply wlp_bind, wlp_any. intros _ st5. by apply wlp_ret.
  - apply (wlp_while_inv (fun r _ => 1 <= r)); [|lia].
    intros r st4 Hr. apply wlp_any. intros [|] st5; [|done].
    apply wlp_ret. lia.
Qed.

(** ** The properties of the sort *)

Lemma runs_from_disjoint (a b : nat) (s : list Run) :
  runs_from a s b -> stack_disjoint s.
Proof.
  revert a. induction s as [|r s IH]; intros a; simpl; [by intros _ i j ???|].
  intros (H1 & H2 & H3) [|i] [|j] r1 r2 Hij Hr1 Hr2; simpl in *; try lia.
  - injection Hr1 as <-.
    assert (r2 ∈ s) as Hin by (by eapply list_elem_of_lookup_2).
    destruct (runs_from_bounds _ _ _ _ H3 Hin). lia.
  - eapply (IH _ H3 i j); [lia|done|done].
Qed.

Lemma timsortImpl_returns fuel (l : list A) :
  length l < fuel ->
  exists st',
    timsortImpl fuel (initial l) = Some (tt, st') /\
    (exists pre,
       arr st' = pre ++ drop (int_count l) l /\ length pre = int_count l /\
       (acc = by_reference -> copyable -> pre ≡ₚ take (int_count l) l) /\
       (copyable -> asymmetric -> Sorted le_ pre)) /\
    length (runStack st') <= 1 /\
    log_ok (int_count l) (stackLog st').
Proof.
  intros Hfuel.
  pose proof (wp_timsortImpl fuel l
    (fun _ st' =>
       (exists pre,
          arr st' = pre ++ drop (int_count l) l /\ length pre = int_count l /\
          (acc = by_reference -> copyable -> pre ≡ₚ take (int_count l) l) /\
          (copyable -> asymmetric -> Sorted le_ pre)) /\
       length (runStack st') <= 1 /\
       log_ok (int_count l) (stackLog st')) Hfuel) as Hwp.
  apply wp_eq in Hwp as ([] & st' & E & H); [by eauto|].
  intros pre bf stk nc lg H1 H2 H3 H4 H5. cbn [arr runStack stackLog].
  split; [|done]. by exists pre.
Qed.

(** Whatever the length: the call returns, the first [int_count l] elements
    end up sorted, the others are not touched, and the range keeps its
    length; with references no element is lost. *)
Theorem timsort_prefix fuel (l : list A) :
  copyable -> asymmetric -> length l < fuel ->
  exists out,
    timsort fuel l = Some out /\
    Sorted le_ (take (int_count l) out) /\
    drop (int_count l) out = drop (int_count l) l /\
    length out = length l /\
    (acc = by_reference -> out ≡ₚ l).
Proof.
  intros Hcp Has Hfuel.
  destruct (timsortImpl_returns fuel l Hfuel)
    as (st' & E & (pre & Harr & Hpre & Hperm & Hsorted) & _ & _).
  exists (arr st'). unfold timsort. rewrite E. split; [done|].
  rewrite Harr. rewrite take_app_length', drop_app_length' by done.
  split; [by apply Hsorted|]. split; [done|]. split.
  - rewrite length_app, length_drop, Hpre. pose proof (int_count_le l). lia.
  - intros Hr. rewrite (Hperm Hr Hcp). by rewrite take_drop.
Qed.

(** C1, as amended: for every sequence of at most 2^31 - 1 elements that
    the iterators reach by reference (not by the proxy of a vector of
    bits), of a type whose moves are copies, and every strict weak ordering,
    the call returns, the sequence is then non-decreasing (the predicate
    holds of no element and its predecessor, nor of any element and an
    earlier one) and is a permutation of the input. *)
Theorem timsort_sorted_permutation fuel (l : list A) :
  acc = by_reference -> strict_weak_order -> copyable ->
  (Z.of_nat (length l) <= INT_MAX)%Z -> length l < fuel ->
  exists out,
    timsort fuel l = Some out /\
    Sorted le_ out /\ StronglySorted le_ out /\ out ≡ₚ l.
Proof.
  intros Hr Hswo Hcp Hlen Hfuel.
  destruct (timsort_prefix fuel l Hcp (swo_asymmetric Hswo) Hfuel)
    as (out & E & Hsorted & _ & Hlo & Hperm).
  exists out. split; [done|].
  rewrite int_count_id in Hsorted by done.
  rewrite take_ge in Hsorted by lia.
  split; [done|]. split; [by apply Sorted_le_StronglySorted|by apply Hperm].
Qed.

(** C3 fails on the code: in a turn of the merge loop, with both cursors
    valid and the two heads equal under the predicate (so that the predicate
    is false of the right head and the left head), it is the right element
    that is placed, and the right cursor that moves on. *)
Theorem mergeRuns_tie_places_right left_ right_ dest x y st :
  buffer st !! left_ = Some x -> arr st !! right_ = Some y -> dest < right_ ->
  comp y x = false -> comp x y = false ->
  exists st',
    mergeRuns_body (left_, right_, dest) st =
      Some (Next (left_, S right_, S dest), st') /\
    arr st' !! dest = Some y.
Proof.
  intros Hx Hy Hd _ Hxy.
  destruct (mergeRuns_body_choice left_ right_ dest x y st Hx Hy Hd) as (st' & E & H).
  rewrite Hxy in E, H. by exists st'.
Qed.

(** C5: when the loop that follows a push exits, the three topmost runs of
    the stack are balanced: A > B + C if there are three, B > C if there
    are two. *)
Theorem mergeCollapse_balanced fuel st u st' :
  mergeCollapse fuel st = Some (u, st') -> balanced (runStack st').
Proof.
  revert u st'.
  change (wlp (mergeCollapse fuel) (fun _ st' => balanced (runStack st')) st).
  unfold mergeCollapse. apply wlp_while.
  intros [] st1. apply wlp_bind, wlp_of_wp, wp_stack_size. cbv beta.
  apply wlp_ret.
  destruct (Nat.ltb_spec 1 (length (runStack st1))) as [Hsz|Hsz].
  - apply wlp_bind. eapply wlp_mono; [apply wlp_of_wp, wp_shouldMerge|].
    intros [|] st2 [-> Hb]; cbv beta.
    + apply wlp_bind, wlp_any. intros _ st3. by apply wlp_ret.
    + apply wlp_ret. by apply Hb.
  - split; lia.
Qed.

(** C6: the run detector.  At the last element the length is 1; when the
    second element is less than the first, the run goes on as long as each
    element is less than its predecessor and is then reversed, so that it
    reads ascending; otherwise it goes on as long as no element is less
    than its predecessor; the length is at least 1. *)
Theorem detectRun_spec fuel n start (l bf : list A) stk nc lg :
  n <= length l -> n < fuel ->
  exists runLen l' nc',
    detectRun fuel n start (State l bf stk nc lg) =
      Some (runLen, State l' bf stk nc' lg) /\
    detected n start l nc runLen l' nc' /\
    (forall a b, start + 1 < n ->
       l !! (start + 1) = Some a -> l !! start = Some b -> comp a b = true ->
       Sorted lt_ (slice start (start + runLen) l')).
Proof.
  intros Hn Hfuel.
  pose proof (wp_detectRun fuel n start l bf stk nc lg
    (fun runLen st' => exists l' nc',
       st' = State l' bf stk nc' lg /\ detected n start l nc runLen l' nc')
    Hn Hfuel) as Hwp.
  apply wp_eq in Hwp as (runLen & st' & E & l' & nc' & -> & Hdet); [|by eauto].
  exists runLen, l', nc'. split; [done|]. split; [done|].
  intros a b Hlt Ha Hb Hc.
  destruct Hdet as (H1 & H2 & _ & H4).
  destruct (H4 Hlt) as (a' & b' & d & Ha' & Hb' & Hd & Hsorted & _ & Hl').
  assert (d = true) as -> by congruence.
  rewrite Hl'. rewrite slice_app_mid.
  - apply Sorted_reverse in Hsorted.
    eapply Sorted_mono; [|exact Hsorted]. by intros x y Hxy.
  - rewrite length_take. lia.
  - rewrite length_reverse, length_slice; lia.
  - lia.
Qed.

(** C7: every value that the run stack takes during the call holds runs
    that end at or before [n], that follow one another without gap (each
    starts where the previous one ends) and that do not overlap. *)
Theorem run_stack_ranges fuel (l : list A) :
  length l < fuel ->
  exists st',
    timsortImpl fuel (initial l) = Some (tt, st') /\
    forall s, s ∈ stackLog st' ->
      stack_in_range (int_count l) s /\ stack_contiguous s /\ stack_disjoint s.
Proof.
  intros Hfuel.
  destruct (timsortImpl_returns fuel l Hfuel) as (st' & E & _ & _ & Hlog).
  exists st'. split; [done|]. intros s Hs.
  unfold log_ok in Hlog. rewrite Forall_forall in Hlog.
  destruct (Hlog s Hs) as (b & Hb & Hruns).
  split; [by eapply runs_from_in_range|].
  split; [by eapply runs_from_contiguous|by eapply runs_from_disjoint].
Qed.

(** The early return of line 81. *)
Lemma timsortImpl_early_return fuel st :
  (static_cast_int (Z.of_nat (length (arr st))) <= 1)%Z ->
  timsortImpl fuel st = Some (tt, st).
Proof.
  intros Hn. unfold timsortImpl, bind, distance.
  by destruct (Z.leb_spec (static_cast_int (Z.of_nat (length (arr st)))) 1); [|lia].
Qed.

(** C8: on a range of no element or of one element the call returns at
    once: the state is the same, the range and the count of the calls of
    the predicate included. *)
Theorem timsortImpl_trivial fuel st :
  length (arr st) <= 1 -> timsortImpl fuel st = Some (tt, st).
Proof.
  intros Hlen. apply timsortImpl_early_return.
  rewrite static_cast_int_id; unfold INT_MIN, INT_MAX; lia.
Qed.

(** C10: the call returns for every sequence and every predicate, with
    at most one run left on the stack; no detected run is empty, and each
    merge makes the stack one run shorter. *)
Theorem timsort_terminates fuel (l : list A) :
  length l < fuel ->
  (exists st', timsortImpl fuel (initial l) = Some (tt, st') /\
               length (runStack st') <= 1) /\
  (forall n start st runLen st',
     detectRun fuel n start st = Some (runLen, st') -> 1 <= runLen) /\
  (forall st u st',
     mergeTop fuel st = Some (u, st') ->
     length (runStack st') + 1 = length (runStack st)).
Proof.
  intros Hfuel. split; [|split].
  - destruct (timsortImpl_returns fuel l Hfuel) as (st' & E & _ & Hsize & _).
    by exists st'.
  - intros n start st runLen st'. apply detectRun_positive.
  - intros st u st'. apply mergeTop_size.
Qed.

(** ** A sorted range is left as it is *)

Lemma detected_sorted n (l : list A) nc runLen l' nc' :
  Sorted le_ (take n l) -> 2 <= n -> n <= length l ->
  detected n 0 l nc runLen l' nc' -> runLen = n /\ l' = l.
Proof.
  intros Hsorted Hn Hlen (H1 & H2 & _ & H4).
  destruct H4 as (a & b & d & Ha & Hb & Hd & _ & Hstop & Hl'); [lia|].
  assert (Hle : forall i x y, S i < n -> l !! i = Some x -> l !! (S i) = Some y ->
                  comp y x = false).
  { intros i x y Hi Hx Hy.
    apply (Sorted_lookup le_ (take n l) i x y Hsorted);
      by rewrite lookup_take_lt by lia. }
  assert (d = false) as ->.
  { rewrite <- Hd. by apply (Hle 0 b a); [lia| |]. }
  split; [|done].
  destruct (decide (runLen < n)) as [Hlt|Hge]; [|lia].
  destruct Hstop as (x & y & Hx & Hy & Hc); [lia|]. simpl in *.
  assert (comp x y = false); [|congruence].
  apply (Hle (runLen - 1) y x); [lia|done|].
  by replace (S (runLen - 1)) with runLen by lia.
Qed.

Lemma wp_while_exit {L} fuel (cond : L -> M bool) (body : L -> M (flow L)) x Q st :
  wp (cond x) (fun b st' => b = false /\ Q x st') st ->
  wp (while (S fuel) cond body x) Q st.
Proof.
  intros H. cbn [while]. apply wp_bind. eapply wp_mono; [exact H|].
  intros b st' [-> HQ]. by apply wp_ret.
Qed.

Lemma wp_while_step {L} fuel (cond : L -> M bool) (body : L -> M (flow L)) x Q st :
  wp (cond x) (fun b st' =>
    b = true /\
    wp (body x) (fun r st'' =>
      match r with
      | Next y => wp (while fuel cond body y) Q st''
      | Break y => Q y st''
      end) st') st ->
  wp (while (S fuel) cond body x) Q st.
Proof.
  intros H. cbn [while]. apply wp_bind. eapply wp_mono; [exact H|].
  intros b st' [-> Hb]. apply wp_bind. eapply wp_mono; [exact Hb|].
  intros [y|y] st'' Hr; [done|by apply wp_ret].
Qed.

(** A range whose first [int_count] elements are sorted makes one run; no
    element is moved. *)
Theorem timsort_sorted_unchanged fuel (l : list A) :
  Sorted le_ (take (int_count l) l) -> length l < fuel ->
  timsort fuel l = Some l.
Proof.
  intros Hsorted Hfuel. pose proof (int_count_le l) as Hle.
  assert (Hwp : wp (timsortImpl fuel) (fun _ st' => arr st' = l) (initial l)).
  2: { apply wp_eq in Hwp as (u & st' & E & Harr). unfold timsort. by rewrite E, Harr. }
  destruct (Z.leb_spec (static_cast_int (Z.of_nat (length l))) 1) as [Hsmall|Hbig].
  { eapply wp_intro; [by apply timsortImpl_early_return|done]. }
  assert (Hn : 2 <= int_count l) by (unfold int_count; lia).
  unfold timsortImpl. apply wp_bind, wp_distance. cbn [arr initial].
  destruct (Z.leb_spec (static_cast_int (Z.of_nat (length l))) 1) as [?|_]; [lia|].
  fold (int_count l).
  set (n := int_count l) in *.
  set (minRun := Z.to_nat (minRunLength (static_cast_int (Z.of_nat (length l))))).
  assert (HminRun : minRun <= n).
  { unfold minRun, n, int_count.
    pose proof (minRunLength_le (static_cast_int (Z.of_nat (length l)))). lia. }
  apply wp_bind, wp_new_vectors. cbn [arr ncomp stackLog].
  destruct fuel as [|[|fuel]]; [lia|lia|].
  apply wp_bind. unfold scan. apply wp_bind.
  (* the first turn of the scan finds the whole range *)
  apply wp_while_step, wp_ret. split; [apply Nat.ltb_lt; lia|].
  apply wp_bind.
  apply wp_detectRun; [done|lia|].
  intros runLen l' nc' Hdet.
  destruct (detected_sorted _ _ _ _ _ _ Hsorted Hn Hle Hdet) as [-> ->].
  apply wp_bind. unfold extendRun.
  destruct (Nat.ltb_spec n minRun) as [?|_]; [lia|]. apply wp_ret.
  apply wp_bind, wp_stack_push_back.
  unfold set_runStack. cbn [arr buffer runStack ncomp stackLog app].
  apply wp_bind. unfold mergeCollapse.
  apply wp_while_exit, wp_bind, wp_stack_size, wp_ret.
  split; [done|]. apply wp_ret.
  (* the second turn stops *)
  apply wp_while_exit, wp_ret. split; [apply Nat.ltb_ge; lia|]. apply wp_ret.
  unfold mergeForce.
  by apply wp_while_exit, wp_bind, wp_stack_size, wp_ret.
Qed.

(** For elements whose moves are copies, sorting a second time changes
    nothing. *)
Theorem timsort_idempotent_copyable fuel (l out : list A) :
  copyable -> asymmetric -> length l < fuel ->
  timsort fuel l = Some out -> timsort fuel out = Some out.
Proof.
  intros Hcp Has Hfuel E.
  destruct (timsort_prefix fuel l Hcp Has Hfuel)
    as (out' & E' & Hsorted & _ & Hlen & _).
  assert (out' = out) as -> by congruence.
  apply timsort_sorted_unchanged; [|lia].
  unfold int_count in *. by rewrite Hlen.
Qed.

(** ** Stability where no merge takes place *)

(** A range of fewer than 32 elements makes a single run, extended by the
    insertion sort if need be: for elements that the iterators reach by
    reference, whose moves are copies, and a strict weak ordering,
    equivalent elements keep their order. *)
Theorem timsort_stable_short fuel (l : list A) :
  acc = by_reference -> strict_weak_order -> copyable ->
  (Z.of_nat (length l) < MIN_MERGE)%Z -> length l < fuel ->
  exists out, timsort fuel l = Some out /\ same_order l out.
Proof.
  intros Hr Hswo Hcp Hshort Hfuel. unfold MIN_MERGE in Hshort.
  assert (Hwp : wp (timsortImpl fuel) (fun _ st' => same_order l (arr st')) (initial l)).
  2: { apply wp_eq in Hwp as (u & st' & E & Hst). exists (arr st').
       unfold timsort. by rewrite E. }
  assert (Hcast : static_cast_int (Z.of_nat (length l)) = Z.of_nat (length l)).
  { apply static_cast_int_id. unfold INT_MIN, INT_MAX. lia. }
  destruct (Z.leb_spec (static_cast_int (Z.of_nat (length l))) 1) as [Hsmall|Hbig].
  { eapply wp_intro; [by apply timsortImpl_early_return|]. apply same_order_refl. }
  unfold timsortImpl. apply wp_bind, wp_distance. cbn [arr initial].
  destruct (Z.leb_spec (static_cast_int (Z.of_nat (length l))) 1) as [?|_]; [lia|].
  rewrite Hcast, minRunLength_small, Nat2Z.id by (unfold MIN_MERGE; lia).
  set (n := length l) in *.
  apply wp_bind, wp_new_vectors. cbn [arr ncomp stackLog].
  destruct fuel as [|[|fuel]]; [lia|lia|].
  apply wp_bind. unfold scan. apply wp_bind.
  (* the first turn of the scan extends the run to the whole range *)
  apply wp_while_step, wp_ret. split; [apply Nat.ltb_lt; lia|].
  apply wp_bind_assoc, wp_bind.
  apply (wp_arr_eq _ _ _ ([] ++ l)); [done|].
  apply wp_next_run; [done|lia|simpl; lia|lia|].
  intros runLen seg nc' H1 H2 Hlen _ _ Hstab Hmin.
  assert (runLen = n) as -> by lia.
  apply wp_bind, wp_stack_push_back.
  unfold set_runStack. cbn [arr buffer runStack ncomp stackLog app].
  apply wp_bind. unfold mergeCollapse.
  apply wp_while_exit, wp_bind, wp_stack_size, wp_ret.
  split; [done|]. apply wp_ret.
  (* the second turn stops *)
  apply wp_while_exit, wp_ret. split; [apply Nat.ltb_ge; lia|]. apply wp_ret.
  unfold mergeForce.
  apply wp_while_exit, wp_bind, wp_stack_size, wp_ret. split; [done|].
  cbn [arr]. rewrite drop_ge, app_nil_r by (unfold n; lia).
  specialize (Hstab Hr Hcp Hswo). by rewrite take_ge in Hstab by (unfold n; lia).
Qed.


(** ** quickSort *)

Lemma State_eq (l l' bf : list A) stk nc nc' lg :
  l = l' -> nc = nc' -> State l bf stk nc lg = State l' bf stk nc' lg.
Proof. by intros -> ->. Qed.

Lemma wp_iter_swap_self i P x R bf stk nc lg Q :
  i = length P ->
  Q tt (State (P ++ x :: R) bf stk nc lg) ->
  wp (iter_swap i i) Q (State (P ++ x :: R) bf stk nc lg).
Proof.
  intros Hi HQ. unfold iter_swap.
  apply wp_bind. apply wp_move_at_mid; [done|].
  apply wp_bind. apply wp_move_at_mid; [done|].
  apply wp_bind. apply wp_set_at_mid; [done|].
  by apply wp_set_at_mid.
Qed.

Lemma Sorted_join (R : A -> A -> Prop) (l1 l2 : list A) u :
  Sorted R l1 -> Sorted R l2 ->
  (forall y, last l1 = Some y -> R y u) ->
  (forall z, head l2 = Some z -> R u z) ->
  Sorted R (l1 ++ u :: l2).
Proof.
  intros Hs1 Hs2 Hl Hh. induction Hs1 as [|a l1 Hs1 IH Ha]; simpl.
  - constructor; [done|]. destruct l2; constructor. by apply Hh.
  - constructor.
    + apply IH. intros y Hy. apply Hl. by destruct l1.
    + destruct l1 as [|b l1]; simpl in *.
      * constructor. by apply Hl.
      * apply HdRel_inv in Ha. by constructor.
Qed.

(** The segment [seg] of the range, from [first] to [last], is replaced by
    a permutation of it, whatever the predicate and whatever a move leaves
    behind; the permutation is sorted when the predicate is asymmetric; the
    predicate is called [c] times, with [2 c <= n (n - 1)] for a segment of
    [n] elements. *)
Lemma wp_quickSort fuel : forall first last X seg Y bf stk nc lg Q,
  length X = first -> length seg = last - first -> first <= last ->
  last - first < fuel ->
  (forall seg' c,
     seg' ≡ₚ seg -> (asymmetric -> Sorted le_ seg') ->
     2 * c <= length seg * (length seg - 1) ->
     Q tt (State (X ++ seg' ++ Y) bf stk (nc + c) lg)) ->
  wp (quickSort fuel first last) Q (State (X ++ seg ++ Y) bf stk nc lg).
Proof.
  induction fuel as [|fuel IH];
    intros first last X seg Y bf stk nc lg Q HX Hseg Hfl Hfuel HQ; [lia|].
  cbn [quickSort].
  destruct (Nat.ltb_spec first last) as [Hlt|Hge].
  2: { apply wp_ret. assert (seg = []) as -> by (apply nil_length_inv; lia).
       specialize (HQ [] 0). rewrite Nat.add_0_r in HQ.
       apply HQ; [done|constructor|simpl; lia]. }
  destruct (snoc_or_nil seg) as [->|(seg0 & p & ->)]; [simpl in Hseg; lia|].
  rewrite length_app in Hseg. simpl in Hseg.
  apply wp_bind.
  arr_as ((X ++ seg0) ++ p :: Y).
  apply wp_get_at_mid; [len|].
  apply wp_bind.
  eapply wp_mono.
  - apply (wp_while
      (fun '(i, j) st => exists Lo Hi Rest,
         i = first + length Lo /\ j = i + length Hi /\
         Lo ++ Hi ++ Rest ≡ₚ seg0 /\
         Forall (fun x => comp x p = true) Lo /\
         Forall (fun x => comp x p = false) Hi /\
         st = State (X ++ Lo ++ Hi ++ Rest ++ p :: Y) bf stk
                (nc + length Lo + length Hi) lg)
      (fun '(_, j) _ => last - j)
      (fun '(i, _) st => exists Lo Hi,
         i = first + length Lo /\
         Lo ++ Hi ≡ₚ seg0 /\
         Forall (fun x => comp x p = true) Lo /\
         Forall (fun x => comp x p = false) Hi /\
         st = State (X ++ Lo ++ Hi ++ p :: Y) bf stk (nc + length seg0) lg)).
    + intros [i j] st (Lo & Hi & Rest & -> & -> & Hperm & HLo & HHi & ->).
      pose proof (Permutation_length Hperm) as Hlen.
      rewrite !length_app in Hlen.
      apply wp_ret. destruct (Nat.ltb_spec (first + length Lo + length Hi) (last - 1))
        as [Hj|Hj].
      * destruct Rest as [|x Rest]; [simpl in Hlen; lia|].
        apply wp_bind.
        arr_as ((X ++ Lo ++ Hi) ++ x :: (Rest ++ p :: Y)).
        apply wp_get_at_mid; [len|].
        apply wp_bind, wp_call_comp. cbn [count_comp ncomp arr buffer runStack stackLog].
        destruct (comp x p) eqn:Hc.
        -- apply wp_bind.
           destruct Hi as [|h Hi].
           ++ arr_as ((X ++ Lo) ++ x :: (Rest ++ p :: Y)).
              rewrite Nat.add_0_r.
              apply wp_iter_swap_self; [len|]. apply wp_ret. split; [|lia].
              exists (Lo ++ [x]), [], Rest. split; [len|]. split; [len|].
              split; [by rewrite <- Hperm, <- app_assoc|].
              split; [apply Forall_app; split; [done|by constructor]|].
              split; [constructor|]. apply State_eq; [list_eq_assoc|len].
           ++ arr_as ((X ++ Lo) ++ h :: Hi ++ x :: (Rest ++ p :: Y)).
              apply wp_iter_swap; [len|len|]. apply wp_ret. split; [|simpl in *; lia].
              exists (Lo ++ [x]), (Hi ++ [h]), Rest. split; [len|]. split; [len|].
              split.
              { rewrite <- Hperm. rewrite <- !app_assoc. simpl.
                apply Permutation_app_head.
                rewrite <- !Permutation_middle. apply perm_swap. }
              split; [apply Forall_app; split; [done|by constructor]|].
              apply Forall_cons_1 in HHi as [Hh HHi].
              split; [apply Forall_app; split; [done|by constructor]|].
              apply State_eq; [list_eq_assoc|len].
        -- apply wp_ret. split; [|lia].
           exists Lo, (Hi ++ [x]), Rest. split; [done|]. split; [len|].
           split; [by rewrite <- Hperm, <- !app_assoc|].
           split; [done|].
           split; [apply Forall_app; split; [done|by constructor]|].
           apply State_eq; [list_eq_assoc|len].
      * assert (Rest = []) as -> by (apply nil_length_inv; simpl in *; lia).
        exists Lo, Hi. rewrite app_nil_r in Hperm. simpl in Hlen.
        repeat split; try done. simpl. apply State_eq; [done|lia].
    + exists [], [], seg0. simpl. rewrite !Nat.add_0_r.
      repeat split; try done. apply State_eq; [list_eq_assoc|done].
    + simpl. lia.
  - intros [i j] st (Lo & Hi & -> & Hperm & HLo & HHi & ->).
    pose proof (Permutation_length Hperm) as Hlen. rewrite length_app in Hlen.
    (* the pivot goes between the two parts *)
    assert (exists Hi2, Hi2 ≡ₚ Hi /\
              forall Q', Q' tt (State (X ++ Lo ++ p :: Hi2 ++ Y) bf stk (nc + length seg0) lg) ->
                wp (iter_swap (first + length Lo) (last - 1)) Q'
                  (State (X ++ Lo ++ Hi ++ p :: Y) bf stk (nc + length seg0) lg))
      as (Hi2 & HHi2 & Hswap).
    { destruct Hi as [|h Hi].
      - exists []. split; [done|]. intros Q' HQ'.
        replace (last - 1) with (first + length Lo) by (simpl in Hlen; lia).
        arr_as ((X ++ Lo) ++ p :: Y). apply wp_iter_swap_self; [len|].
        revert HQ'. simpl. by rewrite <- ?app_assoc.
      - exists (Hi ++ [h]). split; [by rewrite <- Permutation_cons_append|].
        intros Q' HQ'.
        arr_as ((X ++ Lo) ++ h :: Hi ++ p :: Y).
        apply wp_iter_swap; [len|len|].
        revert HQ'. rewrite <- ?app_assoc. simpl. by rewrite <- ?app_assoc. }
    apply wp_bind, Hswap.
    pose proof (Permutation_length HHi2) as Hlen2.
    apply wp_bind.
    apply (IH first (first + length Lo) X Lo (p :: Hi2 ++ Y)); [done|lia|lia|lia|].
    intros Lo' c1 HpLo HsLo Hc1.
    apply (wp_arr_eq _ _ _ ((X ++ Lo' ++ [p]) ++ Hi2 ++ Y)); [list_eq_assoc|].
    pose proof (Permutation_length HpLo) as HlenLo.
    apply (IH (S (first + length Lo)) last (X ++ Lo' ++ [p]) Hi2 Y); [len|lia|lia|lia|].
    intros Hi' c2 HpHi HsHi Hc2.
    cbv beta.
    rewrite (State_eq ((X ++ Lo' ++ [p]) ++ Hi' ++ Y) (X ++ (Lo' ++ p :: Hi') ++ Y)
               bf stk _ (nc + (length seg0 + c1 + c2)) lg) by (list_eq_assoc || lia).
    apply HQ.
    + rewrite HpLo, HpHi, HHi2, <- Hperm.
      rewrite <- app_assoc. apply Permutation_app_head.
      apply Permutation_cons_append.
    + intros Hasym. apply Sorted_join; [by apply HsLo|by apply HsHi| |].
      * intros y Hy. apply last_Some_elem_of in Hy. rewrite HpLo in Hy.
        rewrite Forall_forall in HLo. apply Hasym, HLo, Hy.
      * intros z Hz. apply head_Some_elem_of in Hz. rewrite HpHi, HHi2 in Hz.
        rewrite Forall_forall in HHi. apply HHi, Hz.
    + rewrite length_app. simpl. nia.
Qed.

Lemma quickSort_returns fuel first last (l bf : list A) stk nc lg :
  first <= last -> last <= length l -> last - first < fuel ->
  exists seg' c,
    quickSort fuel first last (State l bf stk nc lg) =
      Some (tt, State (take first l ++ seg' ++ drop last l) bf stk (nc + c) lg) /\
    seg' ≡ₚ slice first last l /\
    (asymmetric -> Sorted le_ seg') /\
    2 * c <= (last - first) * (last - first - 1).
Proof.
  intros Hfl Hlast Hfuel.
  assert (Hlen : length (slice first last l) = last - first)
    by (rewrite length_slice; lia).
  pose proof (wp_quickSort fuel first last (take first l) (slice first last l)
    (drop last l) bf stk nc lg
    (fun _ st' => exists seg' c,
       st' = State (take first l ++ seg' ++ drop last l) bf stk (nc + c) lg /\
       seg' ≡ₚ slice first last l /\
       (asymmetric -> Sorted le_ seg') /\
       2 * c <= (last - first) * (last - first - 1))) as Hwp.
  rewrite <- slice_decompose in Hwp by done.
  apply wp_eq in Hwp as ([] & st' & E & seg' & c & -> & H); [by eauto| | | | |].
  - rewrite length_take. lia.
  - done.
  - done.
  - done.
  - intros seg' c Hp Hs Hc. exists seg', c. rewrite Hlen in Hc. done.
Qed.

(** ** Counting the calls of the predicate *)

Lemma wp_and_wlp {X} (c : M X) (Q Q' : X -> state -> Prop) st :
  wp c Q st -> wlp c Q' st -> wp c (fun x st' => Q x st' /\ Q' x st') st.
Proof.
  unfold wp, wlp. destruct (c st) as [[x st']|]; [|done]. intros HQ HQ'.
  split; [done|]. by apply HQ'.
Qed.

Lemma wlp_keeps {X} (c : M X) (Q : X -> state -> Prop) st :
  keeps_ncomp c -> (forall x st', ncomp st' = ncomp st -> Q x st') -> wlp c Q st.
Proof. intros Hk HQ x st' E. apply HQ. by eapply Hk. Qed.

Lemma wlp_call_comp a b (Q : bool -> state -> Prop) st :
  Q (comp a b) (count_comp st) -> wlp (call_comp a b) Q st.
Proof. by intros HQ x st' [= <- <-]. Qed.

Lemma keeps_ncomp_ret {X} (x : X) : keeps_ncomp (ret x).
Proof. intros st y st' [= _ <-]. done. Qed.

Lemma keeps_ncomp_bind {X Y} (c : M X) (f : X -> M Y) :
  keeps_ncomp c -> (forall x, keeps_ncomp (f x)) -> keeps_ncomp (bind c f).
Proof.
  intros Hc Hf st y st''. unfold bind.
  destruct (c st) as [[x st']|] eqn:E; [|done]. intros E'.
  rewrite (Hf _ _ _ _ E'). by eapply Hc.
Qed.

Lemma keeps_ncomp_while {L} fuel (cond : L -> M bool) (body : L -> M (flow L)) x :
  (forall x, keeps_ncomp (cond x)) -> (forall x, keeps_ncomp (body x)) ->
  keeps_ncomp (while fuel cond body x).
Proof.
  intros Hc Hb. revert x. induction fuel as [|fuel IH]; intros x; [done|].
  cbn [while]. apply keeps_ncomp_bind; [done|]. intros [|]; [|apply keeps_ncomp_ret].
  apply keeps_ncomp_bind; [done|]. intros [y|y]; [apply IH|apply keeps_ncomp_ret].
Qed.

Lemma keeps_ncomp_get_at i : keeps_ncomp (get_at i).
Proof. intros st x st'. unfold get_at. destruct (arr st !! i); by intros [= _ <-]. Qed.

Lemma keeps_ncomp_set_at i x : keeps_ncomp (set_at i x).
Proof.
  intros st y st'. unfold set_at. destruct (i <? length (arr st)); [|done].
  by intros [= _ <-].
Qed.

Lemma keeps_ncomp_buf_get i : keeps_ncomp (buf_get i).
Proof. intros st x st'. unfold buf_get. destruct (buffer st !! i); by intros [= _ <-]. Qed.

Lemma keeps_ncomp_buf_set i x : keeps_ncomp (buf_set i x).
Proof.
  intros st y st'. unfold buf_set. destruct (i <? length (buffer st)); [|done].
  by intros [= _ <-].
Qed.

Lemma keeps_ncomp_buffer_size : keeps_ncomp buffer_size.
Proof. by intros st y st' [= _ <-]. Qed.

Lemma keeps_ncomp_buffer_resize k : keeps_ncomp (buffer_resize k).
Proof. by intros st y st' [= _ <-]. Qed.

Ltac keepsn :=
  repeat first
    [ apply keeps_ncomp_ret | apply keeps_ncomp_get_at | apply keeps_ncomp_set_at
    | apply keeps_ncomp_buf_get | apply keeps_ncomp_buf_set
    | apply keeps_ncomp_buffer_size | apply keeps_ncomp_buffer_resize
    | apply keeps_ncomp_bind | apply keeps_ncomp_while
    | progress intros
    | match goal with
      | x : (_ * _)%type |- _ => destruct x
      | |- keeps_ncomp (if ?b then _ else _) => destruct b
      | |- keeps_ncomp (match ?p with _ => _ end) => destruct p
      end ].

Lemma keeps_ncomp_move_at i : keeps_ncomp (move_at i).
Proof. unfold move_at. keepsn. Qed.

Lemma keeps_ncomp_buf_move i : keeps_ncomp (buf_move i).
Proof. unfold buf_move. keepsn. Qed.

Lemma keeps_ncomp_take_key it : keeps_ncomp (take_key it).
Proof.
  unfold take_key. destruct acc; [apply keeps_ncomp_move_at|apply keeps_ncomp_get_at].
Qed.

Lemma keeps_ncomp_read_key it key : keeps_ncomp (read_key it key).
Proof.
  unfold read_key. destruct acc; [apply keeps_ncomp_ret|apply keeps_ncomp_get_at].
Qed.

Lemma keeps_ncomp_std_move_to_buffer fuel a b d :
  keeps_ncomp (std_move_to_buffer fuel a b d).
Proof. unfold std_move_to_buffer, move_at. keepsn. Qed.

Lemma keeps_ncomp_std_move_from_buffer fuel a b d :
  keeps_ncomp (std_move_from_buffer fuel a b d).
Proof. unfold std_move_from_buffer, buf_move. keepsn. Qed.

Lemma keeps_ncomp_std_move_backward fuel a b d :
  keeps_ncomp (std_move_backward fuel a b d).
Proof. unfold std_move_backward, move_at. keepsn. Qed.

Lemma keeps_ncomp_std_reverse fuel a b : keeps_ncomp (std_reverse fuel a b).
Proof. unfold std_reverse, iter_swap, move_at. keepsn. Qed.

(** The merge loop calls the predicate once a turn, and one of the two
    runs still has an element when it stops. *)
Lemma mergeRuns_ncomp fuel start mid end_ st :
  start <= mid -> mid <= end_ ->
  wlp (mergeRuns fuel start mid end_)
    (fun _ st' =>
       ncomp st <= ncomp st' /\
       ncomp st' - ncomp st <= (end_ - start) - 1 /\
       (mid = start \/ end_ = mid -> ncomp st' = ncomp st)) st.
Proof.
  intros Hsm Hme. unfold mergeRuns.
  apply wlp_bind, wlp_keeps; [keepsn|]. intros bsize st1 E1.
  apply wlp_bind, wlp_keeps; [keepsn|]. intros _ st2 E2.
  apply wlp_bind, wlp_keeps; [apply keeps_ncomp_std_move_to_buffer|]. intros _ st3 E3.
  apply wlp_bind. eapply wlp_mono.
  - apply (wlp_while_inv
      (fun '(left_, right_, dest) s =>
         left_ <= mid - start /\ mid <= right_ <= end_ /\
         ncomp s = ncomp st + left_ + (right_ - mid) /\
         left_ + (right_ - mid) <= (end_ - start) - 1 /\
         (mid = start \/ end_ = mid -> left_ = 0 /\ right_ = mid))
      (fun '(left_, right_, dest) s =>
         ncomp st <= ncomp s /\
         ncomp s - ncomp st <= (end_ - start) - 1 /\
         (mid = start \/ end_ = mid -> ncomp s = ncomp st))).
    + intros [[left_ right_] dest] s (H1 & H2 & H3 & H4 & H5).
      apply wlp_ret.
      destruct (Nat.eqb_spec left_ (0 + (mid - start))) as [Hl|Hl];
        destruct (Nat.eqb_spec right_ end_) as [Hr|Hr]; simpl;
        try (split; [lia|]; split; [lia|]; intros H; destruct (H5 H); lia).
      unfold mergeRuns_body.
      apply wlp_bind, wlp_keeps; [keepsn|]. intros x s1 F1.
      apply wlp_bind, wlp_keeps; [keepsn|]. intros y s2 F2.
      apply wlp_bind, wlp_call_comp.
      destruct (comp x y).
      * apply wlp_bind, wlp_keeps; [apply keeps_ncomp_buf_move|]. intros z s3 F3.
        apply wlp_bind, wlp_keeps; [keepsn|]. intros _ s4 F4.
        apply wlp_ret. simpl in *.
        repeat split; try lia.
      * apply wlp_bind, wlp_keeps; [apply keeps_ncomp_move_at|]. intros z s3 F3.
        apply wlp_bind, wlp_keeps; [keepsn|]. intros _ s4 F4.
        apply wlp_ret. simpl in *.
        repeat split; try lia.
    + repeat split; try lia.
  - intros [[left_ right_] dest] s (H1 & H2 & H3).
    destruct (negb (left_ =? 0 + (mid - start))).
    + apply wlp_keeps; [apply keeps_ncomp_std_move_from_buffer|].
      intros _ s' E. rewrite E. repeat split; lia.
    + by apply wlp_ret.
Qed.

Lemma digits_mono (a b : nat) : a <= b -> digits a <= digits b.
Proof.
  intros Hab. unfold digits.
  destruct (Nat.eqb_spec a 0) as [->|Ha]; [lia|].
  destruct (Nat.eqb_spec b 0) as [->|Hb]; [lia|].
  pose proof (Nat.log2_le_mono a b Hab). lia.
Qed.

Lemma digits_half (len : nat) : 0 < len -> S (digits (len / 2)) = digits len.
Proof.
  intros Hlen. unfold digits.
  destruct (Nat.eqb_spec len 0) as [->|_]; [lia|].
  pose proof (Nat.div_mod_eq len 2) as Hdm.
  pose proof (Nat.mod_upper_bound len 2) as Hm.
  destruct (Nat.eqb_spec (len / 2) 0) as [Hz|Hnz].
  - assert (len = 1) as -> by lia. done.
  - f_equal. destruct (decide (len mod 2 = 0)) as [H0|H1].
    + rewrite Hdm at 2. rewrite H0, Nat.add_0_r. rewrite Nat.log2_double; lia.
    + rewrite Hdm at 2. replace (len mod 2) with 1 by lia.
      rewrite Nat.log2_succ_double; lia.
Qed.

(** A binary search of [len] elements calls the predicate at most
    [digits len] times. *)
Lemma upper_bound_ncomp fuel first last key st :
  wlp (upper_bound fuel first last key)
    (fun _ st' =>
       ncomp st <= ncomp st' /\ ncomp st' <= ncomp st + digits (last - first)) st.
Proof.
  unfold upper_bound. apply wlp_bind. eapply wlp_mono.
  - apply (wlp_while_inv
      (fun '(_, len) s =>
         ncomp st <= ncomp s /\
         ncomp s + digits len <= ncomp st + digits (last - first))
      (fun _ s =>
         ncomp st <= ncomp s /\ ncomp s <= ncomp st + digits (last - first))).
    + intros [f len] s [H1 H2]. apply wlp_ret.
      destruct (Nat.ltb_spec 0 len) as [Hlen|Hlen]; [|lia].
      rewrite Nat.shiftr_div_pow2. change (2 ^ 1) with 2.
      pose proof (digits_half len Hlen) as Hh.
      assert (Hd : len - len / 2 - 1 <= len / 2).
      { pose proof (Nat.div_mod_eq len 2). pose proof (Nat.mod_upper_bound len 2). lia. }
      apply digits_mono in Hd.
      apply wlp_bind, wlp_keeps; [keepsn|]. intros x s1 F1.
      apply wlp_bind, wlp_call_comp.
      destruct (comp key x); apply wlp_ret; cbn [count_comp ncomp]; lia.
    + lia.
  - intros [f len] s H. by apply wlp_ret.
Qed.

(** The insertion sort of [m] elements makes [m - 1] binary searches, each
    of at most [m - 1] elements. *)
Lemma binaryInsertionSort_ncomp fuel left right st :
  wlp (binaryInsertionSort fuel left right)
    (fun _ st' =>
       ncomp st <= ncomp st' /\
       ncomp st' <= ncomp st + (right - left - 1) * digits (right - left - 1)) st.
Proof.
  unfold binaryInsertionSort. apply wlp_bind. eapply wlp_mono.
  - apply (wlp_while_inv
      (fun it s =>
         left + 1 <= it /\ (it <= right \/ it = left + 1) /\
         ncomp st <= ncomp s /\
         ncomp s <= ncomp st + (it - left - 1) * digits (right - left - 1))
      (fun _ s =>
         ncomp st <= ncomp s /\
         ncomp s <= ncomp st + (right - left - 1) * digits (right - left - 1))).
    + intros it s (H1 & H2 & H3 & H4). apply wlp_ret.
      destruct (Nat.ltb_spec it right) as [Hit|Hit].
      * apply wlp_bind, wlp_keeps; [apply keeps_ncomp_take_key|]. intros key s1 F1.
        apply wlp_bind. eapply wlp_mono; [apply upper_bound_ncomp|].
        intros pos s2 [G1 G2]. cbv beta in G1, G2.
        assert (Hd : digits (it - left) <= digits (right - left - 1))
          by (apply digits_mono; lia).
        apply wlp_bind, wlp_keeps.
        { destruct (negb (pos =? it)); [|keepsn].
          apply keeps_ncomp_bind; [apply keeps_ncomp_std_move_backward|].
          intros _. apply keeps_ncomp_bind; [apply keeps_ncomp_read_key|keepsn]. }
        intros _ s3 F3. apply wlp_ret. rewrite F3.
        split; [lia|]. split; [lia|]. split; [lia|]. nia.
      * split; [lia|]. nia.
    + split; [lia|]. split; [lia|]. lia.
  - intros it s H. by apply wlp_ret.
Qed.

(** The detector calls the predicate once for the direction, once for
    each further element of the run and once for the element that ends
    it, if there is one. *)
Lemma detectRun_ncomp fuel n start st :
  wlp (detectRun fuel n start)
    (fun runLen st' =>
       ncomp st' = ncomp st +
         (if start + 1 <? n
          then runLen + (if start + runLen <? n then 1 else 0) else 0)) st.
Proof.
  unfold detectRun. destruct (start + 1 <? n); [|apply wlp_ret; lia].
  apply wlp_bind, wlp_keeps; [keepsn|]. intros a s1 F1.
  apply wlp_bind, wlp_keeps; [keepsn|]. intros b s2 F2.
  apply wlp_bind, wlp_call_comp.
  destruct (comp a b).
  - apply wlp_bind. eapply wlp_mono.
    + apply (wlp_while_inv
        (fun r s => ncomp s = ncomp st + r)
        (fun r s => ncomp s = ncomp st + r + (if start + r <? n then 1 else 0))).
      * intros r s Hr. cbv beta. destruct (start + r <? n).
        -- apply wlp_bind, wlp_keeps; [keepsn|]. intros x t1 G1.
           apply wlp_bind, wlp_keeps; [keepsn|]. intros y t2 G2.
           apply wlp_call_comp. destruct (comp x y); [apply wlp_ret|]; simpl; lia.
        -- apply wlp_ret. lia.
      * simpl. lia.
    + intros r s Hr. apply wlp_bind, wlp_keeps; [apply keeps_ncomp_std_reverse|].
      intros _ s' E. apply wlp_ret. cbv beta in *.
      destruct (start + r <? n); lia.
  - apply (wlp_while_inv (fun r s => ncomp s = ncomp st + r)).
    + intros r s Hr. cbv beta. destruct (start + r <? n).
      * apply wlp_bind, wlp_keeps; [keepsn|]. intros x t1 G1.
        apply wlp_bind, wlp_keeps; [keepsn|]. intros y t2 G2.
        apply wlp_bind, wlp_call_comp. apply wlp_ret.
        destruct (comp x y); simpl; [|apply wlp_ret; simpl]; lia.
      * apply wlp_ret. lia.
    + simpl. lia.
Qed.

(** ** The routines on a range given by its two ends *)

Lemma slice_split (a m b : nat) (l : list A) :
  a <= m -> m <= b -> slice a b l = slice a m l ++ slice m b l.
Proof.
  intros Ham Hmb. unfold slice.
  replace (b - a) with ((m - a) + (b - m)) by lia.
  rewrite <- take_take_drop, drop_drop. do 3 f_equal. lia.
Qed.

Lemma binaryInsertionSort_returns fuel left right (l bf : list A) stk nc lg :
  left <= right -> right <= length l -> right - left < fuel ->
  exists seg' nc',
    binaryInsertionSort fuel left right (State l bf stk nc lg) =
      Some (tt, State (take left l ++ seg' ++ drop right l) bf stk nc' lg) /\
    length seg' = right - left /\
    (acc = by_reference -> copyable -> seg' ≡ₚ slice left right l) /\
    (copyable -> asymmetric -> Sorted le_ seg') /\
    (acc = by_reference -> copyable -> strict_weak_order ->
       same_order (slice left right l) seg') /\
    nc <= nc' /\ nc' <= nc + (right - left - 1) * digits (right - left - 1).
Proof.
  intros Hlr Hright Hfuel.
  assert (Hlen : length (slice left right l) = right - left)
    by (rewrite length_slice; lia).
  pose proof (wp_binaryInsertionSort fuel left right (take left l)
    (slice left right l) (drop right l) bf stk nc lg
    (fun _ st' => exists seg' nc',
       st' = State (take left l ++ seg' ++ drop right l) bf stk nc' lg /\
       length seg' = right - left /\
       (acc = by_reference -> copyable -> seg' ≡ₚ slice left right l) /\
       (copyable -> asymmetric -> Sorted le_ seg') /\
       (acc = by_reference -> copyable -> strict_weak_order ->
          same_order (slice left right l) seg')))
    as Hwp.
  rewrite <- slice_decompose in Hwp by done.
  pose proof (wp_and_wlp _ _ _ _
    (Hwp ltac:(rewrite length_take; lia) Hlen Hlr Hfuel
       ltac:(intros seg' nc' H1 H2 H3 H4; exists seg', nc'; rewrite <- Hlen; done))
    (binaryInsertionSort_ncomp fuel left right (State l bf stk nc lg))) as Hboth.
  apply wp_eq in Hboth as ([] & st' & E & (seg' & nc' & -> & H) & Hc1 & Hc2).
  exists seg', nc'. cbn [ncomp] in Hc1, Hc2. by repeat split; try apply H.
Qed.

Lemma mergeRuns_returns fuel start mid end_ (l bf : list A) stk nc lg :
  start <= mid -> mid <= end_ -> end_ <= length l -> end_ - start < fuel ->
  exists bf' nc',
    mergeRuns fuel start mid end_ (State l bf stk nc lg) =
      Some (tt, State (take start l ++
                       merge_lists (slice start mid l) (slice mid end_ l) ++
                       drop end_ l) bf' stk nc' lg) /\
    nc <= nc' /\ nc' - nc <= (end_ - start) - 1 /\
    (mid = start \/ end_ = mid -> nc' = nc).
Proof.
  intros Hsm Hme Hend Hfuel.
  assert (HL : length (slice start mid l) = mid - start)
    by (rewrite length_slice; lia).
  assert (HR : length (slice mid end_ l) = end_ - mid)
    by (rewrite length_slice; lia).
  pose proof (wp_mergeRuns fuel start mid end_ (take start l)
    (slice start mid l) (slice mid end_ l) (drop end_ l) bf stk nc lg
    (fun _ st' => exists bf' nc',
       st' = State (take start l ++
                    merge_lists (slice start mid l) (slice mid end_ l) ++
                    drop end_ l) bf' stk nc' lg)) as Hwp.
  assert (Hl : take start l ++ slice start mid l ++ slice mid end_ l ++ drop end_ l = l).
  { rewrite (app_assoc (slice start mid l)), <- slice_split by done.
    symmetry. apply slice_decompose. lia. }
  rewrite Hl in Hwp.
  pose proof (wp_and_wlp _ _ _ _
    (Hwp ltac:(rewrite length_take; lia) HL HR Hsm Hme ltac:(lia)
       ltac:(intros bf' nc'; by exists bf', nc'))
    (mergeRuns_ncomp fuel start mid end_ (State l bf stk nc lg) Hsm Hme)) as Hboth.
  apply wp_eq in Hboth as ([] & st' & E & (bf' & nc' & ->) & H).
  exists bf', nc'. cbn [ncomp] in H. done.
Qed.

Lemma detected_descending n (l : list A) nc runLen l' nc' :
  Sorted (flip lt_) (take n l) -> 2 <= n -> n <= length l ->
  detected n 0 l nc runLen l' nc' ->
  runLen = n /\ l' = reverse (take n l) ++ drop n l.
Proof.
  intros Hsorted Hn Hlen (H1 & H2 & _ & H4).
  destruct H4 as (a & b & d & Ha & Hb & Hd & _ & Hstop & Hl'); [lia|].
  assert (Hlt : forall i x y, S i < n -> l !! i = Some x -> l !! (S i) = Some y ->
                  comp y x = true).
  { intros i x y Hi Hx Hy.
    apply (Sorted_lookup (flip lt_) (take n l) i x y Hsorted);
      by rewrite lookup_take_lt by lia. }
  assert (d = true) as ->.
  { rewrite <- Hd. by apply (Hlt 0 b a); [lia| |]. }
  assert (runLen = n) as ->.
  { destruct (decide (runLen < n)) as [Hr|Hr]; [|lia].
    destruct Hstop as (x & y & Hx & Hy & Hc); [lia|]. simpl in *.
    assert (comp x y = true); [|congruence].
    apply (Hlt (runLen - 1) y x); [lia|done|].
    by replace (S (runLen - 1)) with runLen by lia. }
  split; [done|]. rewrite Hl'. unfold slice. simpl.
  by rewrite Nat.sub_0_r, drop_0.
Qed.

(** ** quickSort on a range in strictly ascending order *)

(** Every element is less than the pivot: each swap of the partition
    exchanges an element with itself, the pivot stays last and the
    recursion goes on with one element less. *)
Lemma wp_quickSort_ascending fuel : forall first last X seg Y bf stk nc lg Q,
  StronglySorted lt_ seg ->
  length X = first -> length seg = last - first -> first <= last ->
  last - first < fuel ->
  (forall c, 2 * c = length seg * (length seg - 1) ->
     Q tt (State (X ++ seg ++ Y) bf stk (nc + c) lg)) ->
  wp (quickSort fuel first last) Q (State (X ++ seg ++ Y) bf stk nc lg).
Proof.
  induction fuel as [|fuel IH];
    intros first last X seg Y bf stk nc lg Q Hs HX Hseg Hfl Hfuel HQ; [lia|].
  cbn [quickSort].
  destruct (Nat.ltb_spec first last) as [Hlt|Hge].
  2: { apply wp_ret. assert (seg = []) as -> by (apply nil_length_inv; lia).
       specialize (HQ 0). rewrite Nat.add_0_r in HQ. by apply HQ. }
  destruct (snoc_or_nil seg) as [->|(seg0 & p & ->)]; [simpl in Hseg; lia|].
  rewrite length_app in Hseg. simpl in Hseg.
  assert (Hless : forall x, x ∈ seg0 -> comp x p = true).
  { intros x Hx. apply (StronglySorted_app_1_elem_of lt_ seg0 [p] x p Hs Hx).
    by apply list_elem_of_singleton. }
  apply StronglySorted_app_1_l in Hs.
  apply wp_bind.
  arr_as ((X ++ seg0) ++ p :: Y).
  apply wp_get_at_mid; [len|].
  apply wp_bind.
  eapply wp_mono.
  - apply (wp_while
      (fun '(i, j) st =>
         i = j /\ first <= j /\ j <= last - 1 /\
         st = State (X ++ seg0 ++ p :: Y) bf stk (nc + (j - first)) lg)
      (fun '(_, j) _ => last - j)
      (fun '(i, _) st =>
         i = last - 1 /\
         st = State (X ++ seg0 ++ p :: Y) bf stk (nc + length seg0) lg)).
    + intros [i j] st (-> & Hj1 & Hj2 & ->). apply wp_ret.
      destruct (Nat.ltb_spec j (last - 1)) as [Hj|Hj].
      * destruct (lookup_lt_is_Some_2 seg0 (j - first)) as [x Hx]; [lia|].
        pose proof (take_drop_middle seg0 (j - first) x Hx) as Hmid.
        assert (Hk : length (take (j - first) seg0) = j - first)
          by (rewrite length_take; lia).
        apply wp_bind.
        apply (wp_arr_eq _ _ _ ((X ++ take (j - first) seg0) ++
                 x :: (drop (S (j - first)) seg0 ++ p :: Y))).
        { replace (X ++ seg0 ++ p :: Y)
            with (X ++ (take (j - first) seg0 ++ x :: drop (S (j - first)) seg0) ++
                  p :: Y) by (by rewrite Hmid).
          list_eq_assoc. }
        apply wp_get_at_mid; [len|].
        apply wp_bind, wp_call_comp.
        cbn [count_comp ncomp arr buffer runStack stackLog].
        rewrite (Hless x) by (by eapply list_elem_of_lookup_2).
        apply wp_bind. apply wp_iter_swap_self; [len|].
        apply wp_ret. split; [|lia].
        split; [done|]. split; [lia|]. split; [lia|].
        apply State_eq; [|cbn [ncomp]; lia].
        replace (X ++ seg0 ++ p :: Y)
          with (X ++ (take (j - first) seg0 ++ x :: drop (S (j - first)) seg0) ++
                p :: Y) by (by rewrite Hmid).
        list_eq_assoc.
      * split; [lia|]. apply State_eq; [done|lia].
    + split; [done|]. split; [done|]. split; [lia|].
      apply State_eq; [list_eq_assoc|lia].
    + simpl. lia.
  - intros [i j] st [-> ->].
    apply wp_bind.
    arr_as ((X ++ seg0) ++ p :: Y). apply wp_iter_swap_self; [len|].
    apply wp_bind.
    apply (wp_arr_eq _ _ _ (X ++ seg0 ++ p :: Y)); [list_eq_assoc|].
    apply (IH first (last - 1) X seg0 (p :: Y)); [done|done|lia|lia|lia|].
    intros c Hc.
    destruct fuel as [|fuel]; [lia|]. cbn [quickSort].
    destruct (Nat.ltb_spec (S (last - 1)) last) as [?|_]; [lia|].
    apply wp_ret.
    rewrite (State_eq (X ++ seg0 ++ p :: Y) (X ++ (seg0 ++ [p]) ++ Y) bf stk _
               (nc + (length seg0 + c)) lg) by (list_eq_assoc || lia).
    apply HQ. rewrite length_app. simpl. nia.
Qed.

(** ** binaryInsertionSort on keys that stay where they are *)

Ltac len_fmap :=
  rewrite ?length_app in *; simpl in *;
  rewrite ?length_app, ?length_fmap in *; simpl in *; lia.

(** Line 25 on the element [x] of the slot [it]: with a proxy nothing is
    moved, and a bit that has been moved from is the same bit. *)
Lemma wp_take_key_mid it pre x post bf stk nc lg Q :
  it = length pre -> Q x (State (pre ++ moved x :: post) bf stk nc lg) ->
  wp (take_key it) Q (State (pre ++ x :: post) bf stk nc lg).
Proof.
  intros Hi HQ. unfold take_key. destruct acc as [|two cp].
  - by apply wp_move_at_mid.
  - rewrite cp in HQ. by apply wp_get_at_mid.
Qed.

(** When no key is less than the first element, nor than an element that
    has been moved from, every binary search ends at the key itself: the
    key, moved out at line 25, is not written back (line 29), and its
    place keeps the moved-from value (for a bit, the bit itself). *)
Lemma wp_binaryInsertionSort_in_place fuel left right X a0 tl Y bf stk nc lg Q :
  (forall x y, comp x (moved y) = false) ->
  Forall (fun x => comp x a0 = false) tl ->
  length X = left -> S (length tl) = right - left -> right - left < fuel ->
  (forall nc', Q tt (State (X ++ a0 :: (moved <$> tl) ++ Y) bf stk nc' lg)) ->
  wp (binaryInsertionSort fuel left right) Q (State (X ++ a0 :: tl ++ Y) bf stk nc lg).
Proof.
  intros Hmv Hfirst HX Hlen Hfuel HQ. unfold binaryInsertionSort.
  apply wp_bind.
  eapply wp_mono.
  - apply (wp_while
      (fun it st => exists T1 T2 nc',
         tl = T1 ++ T2 /\ it = left + 1 + length T1 /\
         st = State (X ++ a0 :: (moved <$> T1) ++ T2 ++ Y) bf stk nc' lg)
      (fun it _ => right - it)
      (fun _ st => exists nc',
         st = State (X ++ a0 :: (moved <$> tl) ++ Y) bf stk nc' lg)).
    + intros it st (T1 & T2 & nc' & Htl & -> & ->).
      assert (Hl : length T1 + length T2 = length tl)
        by (by rewrite Htl, length_app).
      apply wp_ret. destruct (Nat.ltb_spec (left + 1 + length T1) right) as [Hlt|Hge].
      * destruct T2 as [|u T2]; [simpl in Hl; lia|].
        apply wp_bind.
        arr_as ((X ++ a0 :: (moved <$> T1)) ++ u :: T2 ++ Y).
        apply wp_take_key_mid; [len_fmap|].
        apply wp_bind. apply wp_upper_bound; [lia|len_fmap|lia|].
        intros pos nc'' Hpos _ Hhi.
        assert (pos = left + 1 + length T1) as ->.
        { destruct Hhi as [->|(x & Hx & Hc)]; [done|]. exfalso.
          assert (Hp : pos < left + 1 + length T1 \/ pos = left + 1 + length T1)
            by lia.
          destruct Hp as [Hp| ->]; [|].
          - rewrite <- app_assoc in Hx.
            rewrite lookup_app_r in Hx by lia.
            rewrite lookup_app_l in Hx by (simpl; rewrite length_fmap; lia).
            apply list_elem_of_lookup_2 in Hx.
            apply elem_of_cons in Hx as [->|Hx].
            + rewrite Forall_forall in Hfirst.
              rewrite Hfirst in Hc; [done|]. rewrite Htl.
              apply elem_of_app. right. by left.
            + apply list_elem_of_fmap in Hx as (t & -> & _).
              by rewrite Hmv in Hc.
          - rewrite lookup_app_r in Hx by len_fmap.
            replace (left + 1 + length T1 - length (X ++ a0 :: (moved <$> T1)))
              with 0 in Hx by len_fmap.
            simpl in Hx. injection Hx as <-. by rewrite Hmv in Hc. }
        rewrite Nat.eqb_refl. cbn [negb].
        apply wp_bind, wp_ret, wp_ret. split; [|lia].
        exists (T1 ++ [u]), T2, nc''.
        split; [by rewrite Htl, <- app_assoc|]. split; [len_fmap|].
        apply State_eq; [|done]. rewrite fmap_app. list_eq_assoc.
      * assert (T2 = []) as -> by (apply nil_length_inv; lia).
        rewrite app_nil_r in Htl. subst T1. by exists nc'.
    + exists [], tl, nc. split; [done|]. split; [simpl; lia|done].
    + simpl. lia.
  - intros it st (nc' & ->). apply wp_ret. apply HQ.
Qed.

(** ** Further properties of the routines *)

Lemma range_parts (a b : nat) (l seg' : list A) :
  a <= b -> b <= length l -> length seg' = b - a ->
  take a (take a l ++ seg' ++ drop b l) = take a l /\
  drop b (take a l ++ seg' ++ drop b l) = drop b l /\
  slice a b (take a l ++ seg' ++ drop b l) = seg'.
Proof.
  intros Hab Hb Hseg.
  assert (Ha : length (take a l) = a) by (rewrite length_take; lia).
  split; [by rewrite take_app_length'|]. split.
  - rewrite app_assoc, drop_app_length'; [done|]. rewrite length_app. lia.
  - by apply slice_app_mid.
Qed.

(** Whatever the predicate, even one that is no ordering at all, the call
    returns without reading or writing out of the range, and the range
    keeps its length; when moves are copies and the iterators reach the
    elements by reference, it holds a permutation of the input. *)
Theorem timsort_any_predicate fuel (l : list A) :
  length l < fuel ->
  exists out,
    timsort fuel l = Some out /\ length out = length l /\
    (acc = by_reference -> copyable -> out ≡ₚ l).
Proof.
  intros Hfuel.
  destruct (timsortImpl_returns fuel l Hfuel)
    as (st' & E & (pre & Harr & Hpre & Hperm & _) & _ & _).
  exists (arr st'). unfold timsort. rewrite E. split; [done|]. split.
  - rewrite Harr, length_app, length_drop, Hpre. pose proof (int_count_le l). lia.
  - intros Hr Hcp. rewrite Harr, (Hperm Hr Hcp). by rewrite take_drop.
Qed.

(** A predicate that is asymmetric, transitive or not, is enough for the
    output to be in order pair by pair: the predicate holds of no element
    and its predecessor. *)
Theorem timsort_asymmetric_sorted fuel (l : list A) :
  asymmetric -> copyable ->
  (Z.of_nat (length l) <= INT_MAX)%Z -> length l < fuel ->
  exists out, timsort fuel l = Some out /\ Sorted le_ out.
Proof.
  intros Has Hcp Hlen Hfuel.
  destruct (timsort_prefix fuel l Hcp Has Hfuel)
    as (out & E & Hsorted & _ & Hlo & _).
  exists out. split; [done|].
  rewrite int_count_id in Hsorted by done.
  by rewrite take_ge in Hsorted by lia.
Qed.

(** A range of [n >= 2] elements that is already in order is found as one
    run: the call leaves it as it is, whatever a move leaves behind, calls
    the predicate exactly [n] times and uses no buffer. *)
Theorem timsort_sorted_linear fuel (l : list A) :
  Sorted le_ l -> 2 <= length l ->
  (Z.of_nat (length l) <= INT_MAX)%Z -> length l < fuel ->
  exists st',
    timsortImpl fuel (initial l) = Some (tt, st') /\
    arr st' = l /\ ncomp st' = length l /\ buffer st' = [].
Proof.
  intros Hsorted H2 Hmax Hfuel.
  assert (Hwp : wp (timsortImpl fuel)
            (fun _ st' => arr st' = l /\ ncomp st' = length l /\ buffer st' = [])
            (initial l)).
  2: { apply wp_eq in Hwp as ([] & st' & E & H). by exists st'. }
  assert (Hcast : static_cast_int (Z.of_nat (length l)) = Z.of_nat (length l)).
  { apply static_cast_int_id. unfold INT_MIN. lia. }
  unfold timsortImpl. apply wp_bind, wp_distance. cbn [arr initial].
  rewrite Hcast.
  destruct (Z.leb_spec (Z.of_nat (length l)) 1) as [?|_]; [lia|].
  rewrite Nat2Z.id.
  set (n := length l) in *.
  set (minRun := Z.to_nat (minRunLength (Z.of_nat n))).
  assert (HminRun : minRun <= n).
  { unfold minRun. pose proof (minRunLength_le (Z.of_nat n)). lia. }
  apply wp_bind, wp_new_vectors. cbn [arr ncomp stackLog].
  destruct fuel as [|[|fuel]]; [lia|lia|].
  apply wp_bind. unfold scan. apply wp_bind.
  apply wp_while_step, wp_ret. split; [apply Nat.ltb_lt; lia|].
  apply wp_bind.
  eapply wp_mono.
  { apply wp_and_wlp; [|apply detectRun_ncomp].
    apply (wp_detectRun _ n 0 l [] [] 0 [[]]
      (fun runLen st' => exists l' nc',
         st' = State l' [] [] nc' [[]] /\ detected n 0 l 0 runLen l' nc'));
      [done|lia|]. intros runLen l' nc' Hdet. by exists l', nc'. }
  intros runLen st1 [(l' & nc' & -> & Hdet) Hcount]. cbn [ncomp initial] in Hcount.
  rewrite <- (take_ge l n) in Hsorted by done.
  destruct (detected_sorted _ _ _ _ _ _ Hsorted H2 ltac:(done) Hdet) as [-> ->].
  assert (nc' = n) as ->.
  { rewrite Hcount. destruct (Nat.ltb_spec (0 + 1) n); [|lia].
    destruct (Nat.ltb_spec (0 + n) n); lia. }
  apply wp_bind. unfold extendRun.
  destruct (Nat.ltb_spec n minRun) as [?|_]; [lia|]. apply wp_ret.
  apply wp_bind, wp_stack_push_back.
  unfold set_runStack. cbn [arr buffer runStack ncomp stackLog app].
  apply wp_bind. unfold mergeCollapse.
  apply wp_while_exit, wp_bind, wp_stack_size, wp_ret.
  split; [done|]. apply wp_ret.
  apply wp_while_exit, wp_ret. split; [apply Nat.ltb_ge; lia|]. apply wp_ret.
  unfold mergeForce.
  by apply wp_while_exit, wp_bind, wp_stack_size, wp_ret.
Qed.

Lemma timsortImpl_descending fuel (l : list A) :
  Sorted (flip lt_) l -> 2 <= length l ->
  (Z.of_nat (length l) <= INT_MAX)%Z -> length l < fuel ->
  exists st',
    timsortImpl fuel (initial l) = Some (tt, st') /\
    arr st' = reverse l /\ ncomp st' = length l /\ buffer st' = [].
Proof.
  intros Hsorted H2 Hmax Hfuel.
  assert (Hwp : wp (timsortImpl fuel)
            (fun _ st' =>
               arr st' = reverse l /\ ncomp st' = length l /\ buffer st' = [])
            (initial l)).
  2: { apply wp_eq in Hwp as ([] & st' & E & H). by exists st'. }
  assert (Hcast : static_cast_int (Z.of_nat (length l)) = Z.of_nat (length l)).
  { apply static_cast_int_id. unfold INT_MIN. lia. }
  unfold timsortImpl. apply wp_bind, wp_distance. cbn [arr initial].
  rewrite Hcast.
  destruct (Z.leb_spec (Z.of_nat (length l)) 1) as [?|_]; [lia|].
  rewrite Nat2Z.id.
  set (n := length l) in *.
  set (minRun := Z.to_nat (minRunLength (Z.of_nat n))).
  assert (HminRun : minRun <= n).
  { unfold minRun. pose proof (minRunLength_le (Z.of_nat n)). lia. }
  apply wp_bind, wp_new_vectors. cbn [arr ncomp stackLog].
  destruct fuel as [|[|fuel]]; [lia|lia|].
  apply wp_bind. unfold scan. apply wp_bind.
  apply wp_while_step, wp_ret. split; [apply Nat.ltb_lt; lia|].
  apply wp_bind.
  eapply wp_mono.
  { apply wp_and_wlp; [|apply detectRun_ncomp].
    apply (wp_detectRun _ n 0 l [] [] 0 [[]]
      (fun runLen st' => exists l' nc',
         st' = State l' [] [] nc' [[]] /\ detected n 0 l 0 runLen l' nc'));
      [done|lia|]. intros runLen l' nc' Hdet. by exists l', nc'. }
  intros runLen st1 [(l' & nc' & -> & Hdet) Hcount]. cbn [ncomp initial] in Hcount.
  rewrite <- (take_ge l n) in Hsorted by done.
  destruct (detected_descending _ _ _ _ _ _ Hsorted H2 ltac:(done) Hdet) as [-> ->].
  rewrite take_ge, drop_ge, app_nil_r by done.
  assert (nc' = n) as ->.
  { rewrite Hcount. destruct (Nat.ltb_spec (0 + 1) n); [|lia].
    destruct (Nat.ltb_spec (0 + n) n); lia. }
  apply wp_bind. unfold extendRun.
  destruct (Nat.ltb_spec n minRun) as [?|_]; [lia|]. apply wp_ret.
  apply wp_bind, wp_stack_push_back.
  unfold set_runStack. cbn [arr buffer runStack ncomp stackLog app].
  apply wp_bind. unfold mergeCollapse.
  apply wp_while_exit, wp_bind, wp_stack_size, wp_ret.
  split; [done|]. apply wp_ret.
  apply wp_while_exit, wp_ret. split; [apply Nat.ltb_ge; lia|]. apply wp_ret.
  unfold mergeForce.
  by apply wp_while_exit, wp_bind, wp_stack_size, wp_ret.
Qed.

(** Below 32 elements the minimum run length is the length of the range:
    whatever the predicate, the scan makes one run of the whole range,
    extended by the insertion sort if need be, no merge takes place and
    the buffer is not used. *)
Theorem timsort_short_single_run fuel (l : list A) :
  2 <= length l -> (Z.of_nat (length l) < MIN_MERGE)%Z -> length l < fuel ->
  exists st',
    timsortImpl fuel (initial l) = Some (tt, st') /\
    runStack st' = [Run.mk 0 (length l)] /\
    stackLog st' = [[Run.mk 0 (length l)]; []] /\
    buffer st' = [].
Proof.
  intros H2 Hshort Hfuel. unfold MIN_MERGE in Hshort.
  assert (Hwp : wp (timsortImpl fuel)
            (fun _ st' =>
               runStack st' = [Run.mk 0 (length l)] /\
               stackLog st' = [[Run.mk 0 (length l)]; []] /\
               buffer st' = [])
            (initial l)).
  2: { apply wp_eq in Hwp as ([] & st' & E & H). by exists st'. }
  assert (Hcast : static_cast_int (Z.of_nat (length l)) = Z.of_nat (length l)).
  { apply static_cast_int_id. unfold INT_MIN, INT_MAX. lia. }
  unfold timsortImpl. apply wp_bind, wp_distance. cbn [arr initial].
  rewrite Hcast.
  destruct (Z.leb_spec (Z.of_nat (length l)) 1) as [?|_]; [lia|].
  rewrite minRunLength_small, Nat2Z.id by (unfold MIN_MERGE; lia).
  set (n := length l) in *.
  apply wp_bind, wp_new_vectors. cbn [arr ncomp stackLog].
  destruct fuel as [|[|fuel]]; [lia|lia|].
  apply wp_bind. unfold scan. apply wp_bind.
  apply wp_while_step, wp_ret. split; [apply Nat.ltb_lt; lia|].
  apply wp_bind_assoc, wp_bind.
  apply (wp_arr_eq _ _ _ ([] ++ l)); [done|].
  apply wp_next_run; [done|lia|simpl; lia|lia|].
  intros runLen seg nc' H1 Hle Hlen _ _ _ Hmin.
  assert (runLen = n) as -> by lia.
  apply wp_bind, wp_stack_push_back.
  unfold set_runStack. cbn [arr buffer runStack ncomp stackLog app].
  apply wp_bind. unfold mergeCollapse.
  apply wp_while_exit, wp_bind, wp_stack_size, wp_ret.
  split; [done|]. apply wp_ret.
  apply wp_while_exit, wp_ret. split; [apply Nat.ltb_ge; lia|]. apply wp_ret.
  unfold mergeForce.
  by apply wp_while_exit, wp_bind, wp_stack_size, wp_ret.
Qed.

(** The detector calls the predicate once for each element of the run,
    and once more for the element that ends the run if the run stops
    before the end of the range. *)
Theorem detectRun_comparisons fuel n start st runLen st' :
  start + 1 < n ->
  detectRun fuel n start st = Some (runLen, st') ->
  ncomp st' = ncomp st + runLen + (if start + runLen <? n then 1 else 0).
Proof.
  intros Hs E. pose proof (detectRun_ncomp fuel n start st _ _ E) as H.
  cbv beta in H. destruct (Nat.ltb_spec (start + 1) n); lia.
Qed.

(** binaryInsertionSort returns for every predicate and every element
    type, and leaves the range outside of [left, right) as it was.  For
    elements whose moves are copies and an asymmetric predicate, whatever
    the order of the range before the call, it leaves [left, right)
    sorted; when the iterators reach the elements by reference, [left,
    right) is then a permutation of what it held. *)
Theorem binaryInsertionSort_sorts fuel left right st :
  left <= right -> right <= length (arr st) -> right - left < fuel ->
  exists st',
    binaryInsertionSort fuel left right st = Some (tt, st') /\
    take left (arr st') = take left (arr st) /\
    drop right (arr st') = drop right (arr st) /\
    length (arr st') = length (arr st) /\
    (copyable -> asymmetric -> Sorted le_ (slice left right (arr st'))) /\
    (acc = by_reference -> copyable ->
       slice left right (arr st') ≡ₚ slice left right (arr st)).
Proof.
  intros Hlr Hright Hfuel. destruct st as [l bf stk nc lg]. cbn [arr] in *.
  destruct (binaryInsertionSort_returns fuel left right l bf stk nc lg Hlr Hright Hfuel)
    as (seg' & nc' & E & Hlen & Hperm & Hsorted & _ & _).
  destruct (range_parts left right l seg' Hlr Hright Hlen) as (P1 & P2 & P3).
  eexists. split; [exact E|]. cbn [arr]. rewrite P1, P2, P3.
  split; [done|]. split; [done|]. split; [|done].
  rewrite !length_app, length_take, length_drop. lia.
Qed.

(** With a strict weak ordering, elements whose moves are copies and
    iterators that reach them by reference, binaryInsertionSort keeps
    equivalent elements in the order that they had: the key is inserted
    after the last element that is not greater. *)
Theorem binaryInsertionSort_stable fuel left right st :
  acc = by_reference -> strict_weak_order -> copyable ->
  left <= right -> right <= length (arr st) -> right - left < fuel ->
  exists st',
    binaryInsertionSort fuel left right st = Some (tt, st') /\
    same_order (slice left right (arr st)) (slice left right (arr st')).
Proof.
  intros Hr Hswo Hcp Hlr Hright Hfuel. destruct st as [l bf stk nc lg].
  cbn [arr] in *.
  destruct (binaryInsertionSort_returns fuel left right l bf stk nc lg Hlr Hright Hfuel)
    as (seg' & nc' & E & Hlen & _ & _ & Hstable & _).
  destruct (range_parts left right l seg' Hlr Hright Hlen) as (P1 & P2 & P3).
  eexists. split; [exact E|]. cbn [arr]. rewrite P3. by apply Hstable.
Qed.

(** binaryInsertionSort on [m] elements calls the predicate at most
    [(m - 1) * digits (m - 1)] times, [digits k] being the number of binary
    digits of [k]; the buffer and the run stack are not touched. *)
Theorem binaryInsertionSort_comparisons fuel left right st :
  left <= right -> right <= length (arr st) -> right - left < fuel ->
  exists st',
    binaryInsertionSort fuel left right st = Some (tt, st') /\
    ncomp st <= ncomp st' /\
    ncomp st' <= ncomp st + (right - left - 1) * digits (right - left - 1) /\
    buffer st' = buffer st /\ runStack st' = runStack st.
Proof.
  intros Hlr Hright Hfuel. destruct st as [l bf stk nc lg]. cbn [arr] in *.
  destruct (binaryInsertionSort_returns fuel left right l bf stk nc lg Hlr Hright Hfuel)
    as (seg' & nc' & E & _ & _ & _ & _ & Hc1 & Hc2).
  eexists. split; [exact E|]. done.
Qed.

(** mergeRuns returns for every predicate and leaves the range outside of
    [start, end) as it was; the two runs are replaced by their merge, which
    holds every element of the two runs once, whatever a move leaves
    behind: no element is lost to a moved-from state. *)
Theorem mergeRuns_merges fuel start mid end_ st :
  start <= mid -> mid <= end_ -> end_ <= length (arr st) -> end_ - start < fuel ->
  exists st',
    mergeRuns fuel start mid end_ st = Some (tt, st') /\
    take start (arr st') = take start (arr st) /\
    drop end_ (arr st') = drop end_ (arr st) /\
    slice start end_ (arr st') =
      merge_lists (slice start mid (arr st)) (slice mid end_ (arr st)) /\
    slice start end_ (arr st') ≡ₚ slice start end_ (arr st) /\
    runStack st' = runStack st.
Proof.
  intros Hsm Hme Hend Hfuel. destruct st as [l bf stk nc lg]. cbn [arr runStack] in *.
  destruct (mergeRuns_returns fuel start mid end_ l bf stk nc lg Hsm Hme Hend Hfuel)
    as (bf' & nc' & E & _).
  assert (Hlen : length (merge_lists (slice start mid l) (slice mid end_ l)) =
                 end_ - start).
  { rewrite merge_lists_length, !length_slice by lia. lia. }
  destruct (range_parts start end_ l _ ltac:(lia) Hend Hlen) as (P1 & P2 & P3).
  eexists. split; [exact E|]. cbn [arr runStack]. rewrite P1, P2, P3.
  repeat split; try done.
  rewrite merge_lists_perm. by rewrite <- slice_split.
Qed.

(** The merge of two sorted runs is sorted; this only needs the predicate
    to be asymmetric. *)
Theorem mergeRuns_sorted fuel start mid end_ st :
  asymmetric ->
  Sorted le_ (slice start mid (arr st)) -> Sorted le_ (slice mid end_ (arr st)) ->
  start <= mid -> mid <= end_ -> end_ <= length (arr st) -> end_ - start < fuel ->
  exists st',
    mergeRuns fuel start mid end_ st = Some (tt, st') /\
    Sorted le_ (slice start end_ (arr st')).
Proof.
  intros Has HL HR Hsm Hme Hend Hfuel. destruct st as [l bf stk nc lg].
  cbn [arr] in *.
  destruct (mergeRuns_returns fuel start mid end_ l bf stk nc lg Hsm Hme Hend Hfuel)
    as (bf' & nc' & E & _).
  assert (Hlen : length (merge_lists (slice start mid l) (slice mid end_ l)) =
                 end_ - start).
  { rewrite merge_lists_length, !length_slice by lia. lia. }
  destruct (range_parts start end_ l _ ltac:(lia) Hend Hlen) as (P1 & P2 & P3).
  eexists. split; [exact E|]. cbn [arr]. rewrite P3.
  by apply Sorted_merge_lists.
Qed.

(** mergeRuns calls the predicate once for each element that the merge
    loop places: at most one time less than there are elements in the two
    runs. *)
Theorem mergeRuns_comparisons fuel start mid end_ st :
  start <= mid -> mid <= end_ -> end_ <= length (arr st) -> end_ - start < fuel ->
  exists st',
    mergeRuns fuel start mid end_ st = Some (tt, st') /\
    ncomp st <= ncomp st' /\ ncomp st' - ncomp st <= (end_ - start) - 1.
Proof.
  intros Hsm Hme Hend Hfuel. destruct st as [l bf stk nc lg]. cbn [arr] in *.
  destruct (mergeRuns_returns fuel start mid end_ l bf stk nc lg Hsm Hme Hend Hfuel)
    as (bf' & nc' & E & H1 & H2 & _).
  eexists. split; [exact E|]. done.
Qed.

(** When one of the two runs is empty, mergeRuns does not call the
    predicate and leaves the range as it was, whatever a move leaves
    behind. *)
Theorem mergeRuns_empty_run fuel start mid end_ st :
  mid = start \/ end_ = mid ->
  start <= mid -> mid <= end_ -> end_ <= length (arr st) -> end_ - start < fuel ->
  exists st',
    mergeRuns fuel start mid end_ st = Some (tt, st') /\
    arr st' = arr st /\ ncomp st' = ncomp st.
Proof.
  intros Hempty Hsm Hme Hend Hfuel. destruct st as [l bf stk nc lg]. cbn [arr] in *.
  destruct (mergeRuns_returns fuel start mid end_ l bf stk nc lg Hsm Hme Hend Hfuel)
    as (bf' & nc' & E & _ & _ & Hnc).
  eexists. split; [exact E|]. cbn [arr ncomp]. split; [|by apply Hnc].
  pose proof (slice_decompose start end_ l ltac:(lia)) as Hl.
  rewrite (slice_split start mid end_) in Hl by done.
  destruct Hempty as [-> | ->].
  - rewrite slice_nil, merge_lists_nil_l. rewrite slice_nil in Hl. by symmetry.
  - rewrite slice_nil, merge_lists_nil_r. rewrite slice_nil, app_nil_r in Hl.
    by symmetry.
Qed.

(** quickSort returns for every predicate, leaves the range outside of
    [first, last) as it was and permutes the elements of [first, last),
    whatever a move leaves behind; it uses neither the buffer nor the run
    stack. *)
Theorem quickSort_permutes fuel first last st :
  first <= last -> last <= length (arr st) -> last - first < fuel ->
  exists st',
    quickSort fuel first last st = Some (tt, st') /\
    take first (arr st') = take first (arr st) /\
    drop last (arr st') = drop last (arr st) /\
    slice first last (arr st') ≡ₚ slice first last (arr st) /\
    buffer st' = buffer st /\ runStack st' = runStack st.
Proof.
  intros Hfl Hlast Hfuel. destruct st as [l bf stk nc lg]. cbn [arr] in *.
  destruct (quickSort_returns fuel first last l bf stk nc lg Hfl Hlast Hfuel)
    as (seg' & c & E & Hperm & _ & _).
  assert (Hlen : length seg' = last - first).
  { rewrite Hperm, length_slice; lia. }
  destruct (range_parts first last l seg' Hfl Hlast Hlen) as (P1 & P2 & P3).
  eexists. split; [exact E|]. cbn [arr buffer runStack]. by rewrite P1, P2, P3.
Qed.

(** With an asymmetric predicate quickSort leaves [first, last) in order
    pair by pair; with a strict weak ordering every element is not greater
    than every later one. *)
Theorem quickSort_sorts fuel first last st :
  asymmetric ->
  first <= last -> last <= length (arr st) -> last - first < fuel ->
  exists st',
    quickSort fuel first last st = Some (tt, st') /\
    Sorted le_ (slice first last (arr st')) /\
    (strict_weak_order -> StronglySorted le_ (slice first last (arr st'))).
Proof.
  intros Has Hfl Hlast Hfuel. destruct st as [l bf stk nc lg]. cbn [arr] in *.
  destruct (quickSort_returns fuel first last l bf stk nc lg Hfl Hlast Hfuel)
    as (seg' & c & E & Hperm & Hsorted & _).
  assert (Hlen : length seg' = last - first).
  { rewrite Hperm, length_slice; lia. }
  destruct (range_parts first last l seg' Hfl Hlast Hlen) as (P1 & P2 & P3).
  eexists. split; [exact E|]. cbn [arr]. rewrite P3.
  split; [by apply Hsorted|]. intros Hswo. apply Sorted_le_StronglySorted; auto.
Qed.

(** quickSort on [n] elements calls the predicate at most [n (n - 1) / 2]
    times. *)
Theorem quickSort_comparisons fuel first last st :
  first <= last -> last <= length (arr st) -> last - first < fuel ->
  exists st',
    quickSort fuel first last st = Some (tt, st') /\
    ncomp st <= ncomp st' /\
    2 * (ncomp st' - ncomp st) <= (last - first) * (last - first - 1).
Proof.
  intros Hfl Hlast Hfuel. destruct st as [l bf stk nc lg]. cbn [arr] in *.
  destruct (quickSort_returns fuel first last l bf stk nc lg Hfl Hlast Hfuel)
    as (seg' & c & E & _ & _ & Hc).
  eexists. split; [exact E|]. cbn [ncomp]. split; [lia|].
  by replace (nc + c - nc) with c by lia.
Qed.

(** When the predicate is a strict total order, as [std::less<int>] is,
    and the iterators reach the elements by reference, as those of the
    [std::vector<int>] of the benchmark do, the two sorts return the same
    range. *)
Theorem quickSort_timsort_agree fuel (l : list A) :
  acc = by_reference -> strict_weak_order ->
  (forall a b, comp a b = false -> comp b a = false -> a = b) ->
  copyable ->
  (Z.of_nat (length l) <= INT_MAX)%Z -> length l < fuel ->
  exists out, timsort fuel l = Some out /\ quickSort_all fuel l = Some out.
Proof.
  intros Hr Hswo Htotal Hcp Hmax Hfuel.
  pose proof (swo_asymmetric Hswo) as Has.
  destruct (timsort_prefix fuel l Hcp Has Hfuel)
    as (out & E & Hsorted & _ & Hlo & Hperm).
  specialize (Hperm Hr).
  rewrite int_count_id in Hsorted by done.
  rewrite take_ge in Hsorted by lia.
  destruct (quickSort_returns fuel 0 (length l) l [] [] 0 [] ltac:(lia) ltac:(done)
              ltac:(lia)) as (seg' & c & Eq & Hpermq & Hsortedq & _).
  exists out. split; [done|]. unfold quickSort_all, initial. rewrite Eq. cbn [arr].
  rewrite drop_all, app_nil_r. simpl. f_equal.
  unfold slice in Hpermq. rewrite drop_0, Nat.sub_0_r, firstn_all in Hpermq.
  assert (AntiSymm eq le_).
  { intros a b Hab Hba. by apply Htotal. }
  apply (StronglySorted_unique le_).
  - apply Sorted_le_StronglySorted; auto.
  - by apply Sorted_le_StronglySorted.
  - by rewrite Hpermq, Hperm.
Qed.

(** With a transitive predicate, on a range in strictly ascending order
    (each element less than the next) quickSort takes the greatest element
    as pivot at every level of the recursion: it leaves the range as it is
    and calls the predicate exactly [n (n - 1) / 2] times for [n]
    elements. *)
Theorem quickSort_ascending_quadratic fuel first last st :
  (forall a b c, comp a b = true -> comp b c = true -> comp a c = true) ->
  Sorted lt_ (slice first last (arr st)) ->
  first <= last -> last <= length (arr st) -> last - first < fuel ->
  exists st',
    quickSort fuel first last st = Some (tt, st') /\
    arr st' = arr st /\
    ncomp st <= ncomp st' /\
    2 * (ncomp st' - ncomp st) = (last - first) * (last - first - 1).
Proof.
  intros Htrans Hs Hfl Hlast Hfuel. destruct st as [l bf stk nc lg].
  cbn [arr ncomp] in *.
  assert (Htr : Transitive lt_) by (intros a b c; apply Htrans).
  apply Sorted_StronglySorted in Hs; [|done].
  assert (Hlen : length (slice first last l) = last - first)
    by (rewrite length_slice; lia).
  pose proof (wp_quickSort_ascending fuel first last (take first l)
    (slice first last l) (drop last l) bf stk nc lg
    (fun _ st' =>
       arr st' = l /\ nc <= ncomp st' /\
       2 * (ncomp st' - nc) = (last - first) * (last - first - 1))) as Hwp.
  rewrite <- slice_decompose in Hwp by done.
  apply wp_eq in Hwp as ([] & st' & E & H); [by exists st'|done| |done|done|done|].
  - rewrite length_take. lia.
  - intros c Hc. cbn [arr ncomp]. rewrite Hlen in Hc.
    split; [done|]. split; [lia|]. by replace (nc + c - nc) with c by lia.
Qed.

(** A range of [n >= 2] elements in strictly descending order is found
    as one run and reversed in place: the call returns the reversed range
    after exactly [n] calls of the predicate, whatever a move leaves
    behind. *)
Theorem timsort_descending_reversed fuel (l : list A) :
  Sorted (flip lt_) l -> 2 <= length l ->
  (Z.of_nat (length l) <= INT_MAX)%Z -> length l < fuel ->
  exists st',
    timsortImpl fuel (initial l) = Some (tt, st') /\
    arr st' = reverse l /\ ncomp st' = length l /\ buffer st' = [].
Proof. apply timsortImpl_descending. Qed.

(** What the insertion sort does to elements that a move changes.  Take an
    element type and a predicate such that nothing is less than a
    moved-from element (vectors or strings compared by size, a moved-from
    one being empty) and a range whose first element is not greater than
    any other, as in a sorted range: every key stays where it is, none is
    written back, and every element but the first is left moved-from. *)
Theorem binaryInsertionSort_moved_from fuel left right st a0 tl :
  (forall x y, comp x (moved y) = false) ->
  slice left right (arr st) = a0 :: tl ->
  Forall (fun x => comp x a0 = false) tl ->
  right <= length (arr st) -> right - left < fuel ->
  exists st',
    binaryInsertionSort fuel left right st = Some (tt, st') /\
    arr st' = take left (arr st) ++ a0 :: (moved <$> tl) ++ drop right (arr st).
Proof.
  intros Hmv Hslice Hfirst Hright Hfuel. destruct st as [l bf stk nc lg].
  cbn [arr] in *.
  assert (Hlr : left < right).
  { destruct (decide (left < right)) as [|Hn]; [done|].
    unfold slice in Hslice. replace (right - left) with 0 in Hslice by lia.
    by rewrite take_0 in Hslice. }
  assert (Hlen : length (slice left right l) = right - left)
    by (rewrite length_slice; lia).
  rewrite Hslice in Hlen. simpl in Hlen.
  pose proof (wp_binaryInsertionSort_in_place fuel left right (take left l) a0 tl
    (drop right l) bf stk nc lg
    (fun _ st' =>
       arr st' = take left l ++ a0 :: (moved <$> tl) ++ drop right l)
    Hmv Hfirst) as Hwp.
  assert (Hl : take left l ++ a0 :: tl ++ drop right l = l).
  { change (a0 :: tl ++ drop right l) with ((a0 :: tl) ++ drop right l).
    rewrite <- Hslice. symmetry. apply slice_decompose. lia. }
  rewrite Hl in Hwp.
  apply wp_eq in Hwp as ([] & st' & E & H); [by exists st'| |done|done|done].
  rewrite length_take. lia.
Qed.

(** The insertion sort on two bits of a [std::vector<bool>].  The key is a
    proxy of the second bit: when it has to go before the first, the first
    is shifted onto the bit that the key aliases, and line 31 writes that
    value back, so that the pair ends as twice its first element and the
    key is lost (true, false becomes true, true with [std::less<bool>]);
    otherwise the pair is left as it is. *)
Theorem binaryInsertionSort_proxy_pair two cp fuel left st a b :
  acc = by_proxy two cp ->
  slice left (left + 2) (arr st) = [a; b] ->
  left + 2 <= length (arr st) -> 2 < fuel ->
  exists st',
    binaryInsertionSort fuel left (left + 2) st = Some (tt, st') /\
    arr st' = take left (arr st) ++ [a; if comp b a then a else b] ++
              drop (left + 2) (arr st).
Proof.
  intros Hacc Hslice Hlen Hfuel. destruct st as [l bf stk nc lg]. cbn [arr] in *.
  set (X := take left l). set (Y := drop (left + 2) l).
  assert (HX : length X = left) by (unfold X; rewrite length_take; lia).
  assert (Hl : l = X ++ a :: b :: Y).
  { rewrite (slice_decompose left (left + 2) l) at 1 by lia. by rewrite Hslice. }
  assert (Hwp : wp (binaryInsertionSort fuel left (left + 2))
            (fun _ st' => arr st' = X ++ [a; if comp b a then a else b] ++ Y)
            (State (X ++ a :: b :: Y) bf stk nc lg)).
  2: { rewrite <- Hl in Hwp. apply wp_eq in Hwp as ([] & st' & E & H). by exists st'. }
  clear Hl Hslice Hlen. clearbody X Y.
  destruct fuel as [|[|[|fuel]]]; [lia|lia|lia|].
  unfold binaryInsertionSort. apply wp_bind.
  apply wp_while_step, wp_ret. split; [apply Nat.ltb_lt; lia|].
  apply wp_bind. rewrite (take_key_proxy _ two cp) by done.
  arr_as ((X ++ [a]) ++ b :: Y).
  apply wp_get_at_mid; [len|].
  apply wp_bind. apply wp_upper_bound; [lia|len|lia|].
  intros pos nc' Hpos Hlo Hhi.
  assert (Ha : ((X ++ [a]) ++ b :: Y) !! left = Some a).
  { rewrite <- app_assoc. rewrite lookup_app_r by lia.
    by replace (left - length X) with 0 by lia. }
  destruct (comp b a) eqn:Hc.
  - assert (pos = left) as ->.
    { destruct Hlo as [->|(x & Hx & Hcx)]; [done|].
      destruct (decide (pos = left)) as [|Hne]; [done|].
      assert (pos = left + 1) as -> by lia.
      replace (left + 1 - 1) with left in Hx by lia. congruence. }
    destruct (Nat.eqb_spec left (left + 1)) as [?|_]; [lia|]. cbn [negb].
    apply wp_bind, wp_bind.
    arr_as (X ++ [a] ++ b :: Y).
    apply wp_std_move_backward; [done|simpl; lia|lia|lia|].
    intros g. apply wp_bind. rewrite (read_key_proxy _ _ two cp) by done.
    arr_as ((X ++ [g]) ++ a :: Y).
    apply wp_get_at_mid; [len|].
    arr_as (X ++ g :: (a :: Y)).
    apply wp_set_at_mid; [done|].
    apply wp_ret.
    apply wp_while_exit, wp_ret. split; [apply Nat.ltb_ge; lia|].
    by apply wp_ret.
  - assert (pos = left + 1) as ->.
    { destruct Hhi as [->|(x & Hx & Hcx)]; [done|].
      destruct (decide (pos = left + 1)) as [|Hne]; [done|].
      assert (pos = left) as -> by lia. congruence. }
    rewrite Nat.eqb_refl. cbn [negb].
    apply wp_bind, wp_ret, wp_ret.
    apply wp_while_exit, wp_ret. split; [apply Nat.ltb_ge; lia|].
    apply wp_ret. cbn [arr]. list_eq_assoc.
Qed.
End Timsort.

(** * The properties on concrete inputs *)

(** ** C4: the minimum run length *)

Local Open Scope Z_scope.

(** C4, as amended: for every length [n] of at least 32 the result lies
    between 16 and 32, and with [k] the number of shifts it is the least
    value whose product with [2 ^ k] reaches [n]. *)
Theorem minRunLength_range (n : Z) :
  MIN_MERGE <= n ->
  16 <= minRunLength n <= 32 /\
  n <= 2 ^ Z.of_nat (minRunShifts n) * minRunLength n /\
  2 ^ Z.of_nat (minRunShifts n) * (minRunLength n - 1) < n.
Proof.
  intros Hn. unfold MIN_MERGE in Hn.
  destruct (minRunLength_spec n)
    as (n' & r & lost & -> & Hr & Hlost & Hflag & Heq & Hn' & Hbig & _); [lia|].
  unfold MIN_MERGE in *. specialize (Hbig Hn).
  set (p := 2 ^ Z.of_nat (minRunShifts n)) in *.
  assert (Hp : 0 < p) by (apply Z.pow_pos_nonneg; lia).
  split; [lia|]. destruct Hr as [-> | ->].
  - assert (lost = 0) as -> by tauto. split; nia.
  - assert (lost <> 0) by (intros ?; assert (1 = 0) by tauto; lia). split; nia.
Qed.

Lemma minRunLength_range_witness :
  MIN_MERGE <= 1000 /\
  16 <= minRunLength 1000 <= 32 /\
  1000 <= 2 ^ Z.of_nat (minRunShifts 1000) * minRunLength 1000 /\
  2 ^ Z.of_nat (minRunShifts 1000) * (minRunLength 1000 - 1) < 1000.
Proof.
  split; [unfold MIN_MERGE; lia|].
  apply (minRunLength_range 1000). unfold MIN_MERGE. lia.
Defined.

(** C4 as it is stated fails: at the threshold itself the result is 16, and
    no result exceeds 32. *)
Lemma minRunLength_below_32 :
  MIN_MERGE <= 32 /\ minRunLength 32 = 16 /\ ~ (32 <= minRunLength 32 <= 64) /\
  minRunLength 33 = 17 /\ minRunLength 64 = 16 /\ minRunLength INT_MAX = 32.
Proof.
  split; [unfold MIN_MERGE; lia|].
  split; [by vm_compute|]. split; [|by vm_compute].
  replace (minRunLength 32) with 16 by (by vm_compute). lia.
Qed.

Local Close Scope Z_scope.

(** ** The orderings of the examples *)

(** Comparing by a key. *)
Lemma swo_by_key {A : Type} (key : A -> nat) :
  strict_weak_order (fun a b => key a <? key b).
Proof.
  split.
  - intros a. apply Nat.ltb_irrefl.
  - intros a b c. rewrite !Nat.ltb_lt. lia.
  - intros a b c. rewrite !Nat.ltb_ge. lia.
Qed.

Lemma swo_less_int : strict_weak_order less_int.
Proof. apply (swo_by_key (fun a => a)). Qed.

Lemma copyable_id {A : Type} : copyable (fun x : A => x).
Proof. by intros x. Qed.

Lemma swo_by_first : strict_weak_order by_first.
Proof. apply (swo_by_key fst). Qed.

Lemma swo_by_size : strict_weak_order by_size.
Proof. apply (swo_by_key length). Qed.

(** ** C1 *)

Lemma timsort_sorted_permutation_witness :
  strict_weak_order less_int /\ copyable (fun x : nat => x) /\
  (Z.of_nat (length [5; 3; 4; 1; 2]) <= INT_MAX)%Z /\
  length [5; 3; 4; 1; 2] < 6 /\
  exists out,
    timsort less_int (fun x => x) 0 by_reference 6 [5; 3; 4; 1; 2] = Some out /\
    Sorted (le_ less_int) out /\ StronglySorted (le_ less_int) out /\
    out ≡ₚ [5; 3; 4; 1; 2].
Proof.
  split; [exact swo_less_int|]. split; [exact copyable_id|].
  split; [by vm_compute|]. split; [simpl; lia|].
  apply (timsort_sorted_permutation less_int (fun x => x) 0 by_reference 6
           [5; 3; 4; 1; 2]).
  - reflexivity.
  - exact swo_less_int.
  - exact copyable_id.
  - by vm_compute.
  - simpl. lia.
Defined.

(** A range of 2^31 elements: the count, cast to [int], is negative, and the
    call returns at once. *)
Lemma timsort_long_range (N fuel : nat) :
  Z.of_nat N = 2147483647%Z ->
  timsort less_int (fun x => x) 0 by_reference fuel (1 :: replicate N 0) =
    Some (1 :: replicate N 0) /\
  ~ Sorted (le_ less_int) (1 :: replicate N 0).
Proof.
  intros HN. split.
  - unfold timsort. rewrite timsortImpl_early_return; [done|].
    cbn [initial arr length]. rewrite length_replicate.
    replace (Z.of_nat (S N)) with 2147483648%Z by lia. by vm_compute.
  - destruct N as [|N]; [lia|]. cbn [replicate].
    intros Hs. apply Sorted_inv in Hs as [_ Hh]. apply HdRel_inv in Hh.
    by vm_compute in Hh.
Qed.

Lemma swo_less_bool : strict_weak_order less_bool.
Proof. split; [by intros []|by intros [] [] []|by intros [] [] []]. Qed.

(** C1 as it is stated fails, in three ways.  Elements that a move empties
    are lost: an element that is already in its place is moved out of the
    range and never written back (line 25 and the test of line 29).  A range
    of 2^31 elements or more is not sorted.  And in a vector of bits the key
    of the insertion sort is a proxy: [true, true, false] becomes [true,
    true, true], the key [false] being read at line 31 after the shift has
    written [true] to the bit that it aliases. *)
Lemma timsort_sorted_permutation_fails :
  (strict_weak_order by_size /\
   timsort by_size emptied [] by_reference 4 [[1]; [2; 2]; [3]] = Some [[1]; []; []] /\
   ~ ([[1]; []; []] ≡ₚ [[1]; [2; 2]; [3]])) /\
  (strict_weak_order less_int /\
   (forall fuel,
      timsort less_int (fun x => x) 0 by_reference fuel
        (1 :: replicate (Z.to_nat 2147483647) 0) =
      Some (1 :: replicate (Z.to_nat 2147483647) 0)) /\
   ~ Sorted (le_ less_int) (1 :: replicate (Z.to_nat 2147483647) 0)) /\
  (strict_weak_order less_bool /\
   timsort less_bool (fun b => b) false vector_bool 4 [true; true; false] =
     Some [true; true; true] /\
   ~ ([true; true; true] ≡ₚ [true; true; false])).
Proof.
  split; [|split].
  - split; [exact swo_by_size|]. split; [by vm_compute|].
    intros Hp. symmetry in Hp.
    assert (Hin : In [2; 2] [[1]; []; []])
      by (apply (Permutation_in _ Hp); right; by left).
    simpl in Hin. destruct Hin as [H|[H|[H|[]]]]; discriminate H.
  - split; [exact swo_less_int|].
    assert (HN : Z.of_nat (Z.to_nat 2147483647) = 2147483647%Z) by lia.
    split.
    + intros fuel. by apply timsort_long_range.
    + by apply (timsort_long_range _ 0).
  - split; [exact swo_less_bool|]. split; [by vm_compute|].
    intros Hp. symmetry in Hp.
    assert (Hin : In false [true; true; true])
      by (apply (Permutation_in _ Hp); right; right; by left).
    simpl in Hin. destruct Hin as [H|[H|[H|[]]]]; discriminate H.
Qed.

(** ** C2 and C3: ties in the merge *)

(** C2 fails on the code: (0,1) and (0,16) are equal under the predicate and
    (0,1) comes first in the input, but (0,16) comes first in the output. *)
Theorem timsort_not_stable :
  strict_weak_order by_first /\
  timsort by_first (fun x => x) (0, 0) by_reference 33 tie_input = Some tie_output /\
  by_first (0, 1) (0, 16) = false /\ by_first (0, 16) (0, 1) = false /\
  tie_input !! 1 = Some (0, 1) /\ tie_input !! 16 = Some (0, 16) /\
  tie_output !! 0 = Some (0, 16) /\ tie_output !! 16 = Some (0, 1).
Proof.
  split; [exact swo_by_first|]. by vm_compute.
Qed.

(** The merge of the runs [(0,1)] and [(0,2)], equal under the predicate,
    is [(0,2); (0,1)]. *)
Lemma mergeRuns_tie_example :
  mergeRuns by_first (fun x => x) (0, 0) 3 0 1 2 (initial [(0, 1); (0, 2)]) =
    Some (tt, State [(0, 2); (0, 1)] [(0, 1)] [] 1 []).
Proof. by vm_compute. Qed.

Lemma mergeRuns_tie_places_right_witness :
  buffer (State [(0, 1); (0, 2)] [(0, 1)] [] 0 []) !! 0 = Some (0, 1) /\
  arr (State [(0, 1); (0, 2)] [(0, 1)] [] 0 []) !! 1 = Some (0, 2) /\
  0 < 1 /\ by_first (0, 2) (0, 1) = false /\ by_first (0, 1) (0, 2) = false /\
  exists st',
    mergeRuns_body by_first (fun x => x) (0, 1, 0)
        (State [(0, 1); (0, 2)] [(0, 1)] [] 0 []) =
      Some (Next (0, 2, 1), st') /\
    arr st' !! 0 = Some (0, 2).
Proof.
  do 5 (split; [by vm_compute|]).
  apply (mergeRuns_tie_places_right by_first (fun x => x) 0 1 0 (0, 1) (0, 2)
           (State [(0, 1); (0, 2)] [(0, 1)] [] 0 [])); by vm_compute.
Defined.

(** ** C9: sorting twice *)

(** C9 fails on the code for elements that a move empties: each call loses
    the elements that are already in their place. *)
Theorem timsort_twice_differs :
  strict_weak_order by_size /\
  timsort by_size emptied [] by_reference 4 [[1]; [2; 2]; [3]] = Some [[1]; []; []] /\
  timsort by_size emptied [] by_reference 4 [[1]; []; []] = Some [[]; []; []].
Proof.
  split; [exact swo_by_size|]. by vm_compute.
Qed.

(** ** Witnesses of the other theorems *)

(** The sort of [three_runs_input] up to the push of its third run (line
    118 in the third turn of the scan): three runs are on the stack when
    the loop of merges is entered. *)
Lemma three_runs_reached :
  bind new_vectors (fun _ =>
  bind (detectRun less_int (fun x => x) 113 112 0) (fun r =>
  bind (extendRun less_int (fun x => x) by_reference 113 112 28 0 r) (fun r =>
  bind (stack_push_back (Run.mk 0 r)) (fun _ =>
  bind (mergeCollapse less_int (fun x => x) 0 113) (fun _ =>
  bind (detectRun less_int (fun x => x) 113 112 60) (fun r =>
  bind (extendRun less_int (fun x => x) by_reference 113 112 28 60 r) (fun r =>
  bind (stack_push_back (Run.mk 60 r)) (fun _ =>
  bind (mergeCollapse less_int (fun x => x) 0 113) (fun _ =>
  bind (detectRun less_int (fun x => x) 113 112 90) (fun r =>
  bind (extendRun less_int (fun x => x) by_reference 113 112 28 90 r) (fun r =>
  stack_push_back (Run.mk 90 r))))))))))))
    (initial three_runs_input) =
  Some (tt, State three_runs_input [] three_runs_stack 176
              [three_runs_stack; [Run.mk 0 60; Run.mk 60 30]; [Run.mk 0 60]; []]) /\
  minRunLength 112 = 28%Z.
Proof. by vm_compute. Qed.

(** From that state the loop exits at once, on three runs of 60, 30 and 22
    elements: 60 > 30 + 22 and 30 > 22. *)
Lemma mergeCollapse_balanced_witness :
  mergeCollapse less_int (fun x => x) 0 113
      (State three_runs_input [] three_runs_stack 176
         [three_runs_stack; [Run.mk 0 60; Run.mk 60 30]; [Run.mk 0 60]; []]) =
    Some (tt, State three_runs_input [] three_runs_stack 176
                [three_runs_stack; [Run.mk 0 60; Run.mk 60 30]; [Run.mk 0 60]; []]) /\
  balanced three_runs_stack.
Proof.
  split; [by vm_compute|].
  apply (mergeCollapse_balanced less_int (fun x => x) 0 113
           (State three_runs_input [] three_runs_stack 176
              [three_runs_stack; [Run.mk 0 60; Run.mk 60 30]; [Run.mk 0 60]; []])
           tt
           (State three_runs_input [] three_runs_stack 176
              [three_runs_stack; [Run.mk 0 60; Run.mk 60 30]; [Run.mk 0 60]; []])).
  by vm_compute.
Defined.

Lemma detectRun_spec_witness :
  5 <= length [5; 3; 4; 1; 2] /\ 5 < 6 /\
  exists runLen l' nc',
    detectRun less_int (fun x => x) 6 5 0 (State [5; 3; 4; 1; 2] [] [] 0 []) =
      Some (runLen, State l' [] [] nc' []) /\
    detected less_int 5 0 [5; 3; 4; 1; 2] 0 runLen l' nc' /\
    (forall a b, 0 + 1 < 5 ->
       [5; 3; 4; 1; 2] !! (0 + 1) = Some a -> [5; 3; 4; 1; 2] !! 0 = Some b ->
       less_int a b = true ->
       Sorted (lt_ less_int) (slice 0 (0 + runLen) l')).
Proof.
  split; [simpl; lia|]. split; [lia|].
  apply (detectRun_spec less_int (fun x => x) 6 5 0 [5; 3; 4; 1; 2] [] [] 0 []);
    simpl; lia.
Defined.

Lemma run_stack_ranges_witness :
  length tie_input < 33 /\
  exists st',
    timsortImpl by_first (fun x => x) (0, 0) by_reference 33 (initial tie_input) = Some (tt, st') /\
    forall s, s ∈ stackLog st' ->
      stack_in_range (int_count tie_input) s /\ stack_contiguous s /\
      stack_disjoint s.
Proof.
  split; [by vm_compute|].
  apply (run_stack_ranges by_first (fun x => x) (0, 0) by_reference 33 tie_input).
  by vm_compute.
Defined.

Lemma timsortImpl_trivial_witness :
  length (arr (initial [7])) <= 1 /\
  timsortImpl less_int (fun x => x) 0 by_reference 0 (initial [7]) = Some (tt, initial [7]).
Proof.
  split; [simpl; lia|].
  apply (timsortImpl_trivial less_int (fun x => x) 0 by_reference 0 (initial [7])).
  simpl. lia.
Defined.

Lemma timsort_terminates_witness :
  length tie_input < 33 /\
  (exists st',
     timsortImpl by_first (fun x => x) (0, 0) by_reference 33 (initial tie_input) = Some (tt, st') /\
     length (runStack st') <= 1) /\
  (forall n start st runLen st',
     detectRun by_first (fun x => x) 33 n start st = Some (runLen, st') ->
     1 <= runLen) /\
  (forall st u st',
     mergeTop by_first (fun x => x) (0, 0) 33 st = Some (u, st') ->
     length (runStack st') + 1 = length (runStack st)).
Proof.
  split; [by vm_compute|].
  apply (timsort_terminates by_first (fun x => x) (0, 0) by_reference 33 tie_input).
  by vm_compute.
Defined.

(** ** The minimum run length of a doubled length *)



(** ** The reversed data of the benchmark *)

Lemma fill_prefix (f : nat -> Z) (k : nat) (v : list Z) :
  k <= length v ->
  fold_left (fun v i => <[i := f i]> v) (seq 0 k) v = map f (seq 0 k) ++ drop k v.
Proof.
  induction k as [|k IH]; intros Hk; [by rewrite drop_0|].
  rewrite seq_S, fold_left_app, IH by lia. simpl.
  rewrite map_app. simpl.
  destruct (lookup_lt_is_Some_2 v k) as [y Hy]; [lia|].
  rewrite (drop_S v y k Hy).
  rewrite insert_app_r_alt by (rewrite length_map, length_seq; lia).
  rewrite length_map, length_seq, Nat.sub_diag. simpl.
  by rewrite <- app_assoc.
Qed.

Lemma generateReversedData_eq (vec : list Z) :
  (Z.of_nat (length vec) <= INT_MAX)%Z ->
  generateReversedData vec =
    map (fun i => (Z.of_nat (length vec) - Z.of_nat i)%Z) (seq 0 (length vec)).
Proof.
  intros Hmax. unfold generateReversedData.
  rewrite static_cast_int_id by (unfold INT_MIN; lia).
  rewrite Nat2Z.id, fill_prefix by done.
  by rewrite drop_all, app_nil_r.
Qed.

(** On the reversed data of [n >= 2] elements the detector finds one
    descending run: Timsort returns 1, 2, ... n after [n] comparisons. *)
Theorem timsort_reversed_data fuel (vec : list Z) :
  2 <= length vec -> (Z.of_nat (length vec) <= INT_MAX)%Z -> length vec < fuel ->
  exists st',
    timsortImpl less_Z (fun x => x) 0%Z by_reference fuel (initial (generateReversedData vec)) =
      Some (tt, st') /\
    arr st' = map Z.of_nat (seq 1 (length vec)) /\
    ncomp st' = length vec.
Proof.
  intros H2 Hmax Hfuel. rewrite generateReversedData_eq by done.
  set (n := length vec) in *.
  set (l := map (fun i => (Z.of_nat n - Z.of_nat i)%Z) (seq 0 n)).
  assert (Hlen : length l = n) by (unfold l; by rewrite length_map, length_seq).
  assert (Hlook : forall i x, l !! i = Some x ->
            i < n /\ x = (Z.of_nat n - Z.of_nat i)%Z).
  { intros i x. unfold l. rewrite list_lookup_fmap.
    destruct (seq 0 n !! i) as [j|] eqn:Hj; [|done].
    apply lookup_seq in Hj as [-> Hi]. simpl. intros [= <-]. done. }
  destruct (timsortImpl_descending less_Z (fun x => x) 0%Z by_reference fuel l)
    as (st' & E & Harr & Hnc & _).
  - apply Sorted_of_lookup. intros i x y Hx Hy.
    apply Hlook in Hx as [_ ->]. apply Hlook in Hy as [_ ->].
    unfold flip, lt_, less_Z. apply Z.ltb_lt. lia.
  - lia.
  - lia.
  - lia.
  - exists st'. split; [done|]. split; [|lia].
    rewrite Harr. apply list_eq. intros i.
    destruct (decide (i < n)) as [Hi|Hi].
    + rewrite reverse_lookup by lia. rewrite Hlen.
      unfold l. rewrite !list_lookup_fmap.
      rewrite !lookup_seq_lt by lia. simpl. f_equal. lia.
    + rewrite !lookup_ge_None_2; [done| |].
      * rewrite length_map, length_seq. lia.
      * rewrite length_reverse. lia.
Qed.

(** ** The further properties on concrete inputs *)

Lemma asymmetric_less_int : asymmetric less_int.
Proof. apply swo_asymmetric, swo_less_int. Qed.

Lemma total_less_int (a b : nat) :
  less_int a b = false -> less_int b a = false -> a = b.
Proof. unfold less_int. rewrite !Nat.ltb_ge. lia. Qed.

Lemma asymmetric_loses_to : asymmetric loses_to.
Proof. by intros [] []. Qed.

(** [loses_to] is no ordering: it goes round in a circle. *)
Lemma loses_to_not_transitive :
  loses_to Rock Paper = true /\ loses_to Paper Scissors = true /\
  loses_to Rock Scissors = false.
Proof. done. Qed.

(** A predicate that holds of every pair. *)
Lemma timsort_any_predicate_witness :
  length [3; 1; 2] < 4 /\
  exists out,
    timsort (fun _ _ : nat => true) (fun x => x) 0 by_reference 4 [3; 1; 2] =
      Some out /\
    length out = length [3; 1; 2] /\
    (@by_reference nat (fun x => x) = by_reference -> copyable (fun x : nat => x) ->
       out ≡ₚ [3; 1; 2]).
Proof.
  split; [simpl; lia|].
  apply (timsort_any_predicate (fun _ _ : nat => true) (fun x => x) 0 by_reference 4
           [3; 1; 2]).
  simpl. lia.
Defined.

Lemma timsort_asymmetric_sorted_witness :
  asymmetric loses_to /\ copyable (fun x : hand => x) /\
  exists out,
    timsort loses_to (fun x => x) Rock by_reference 5 [Rock; Scissors; Paper; Rock] = Some out /\
    Sorted (le_ loses_to) out.
Proof.
  split; [exact asymmetric_loses_to|]. split; [exact copyable_id|].
  apply (timsort_asymmetric_sorted loses_to (fun x => x) Rock by_reference 5
           [Rock; Scissors; Paper; Rock]).
  - exact asymmetric_loses_to.
  - exact copyable_id.
  - by vm_compute.
  - simpl. lia.
Defined.

Lemma timsort_sorted_linear_witness :
  Sorted (le_ less_int) [1; 2; 2; 3] /\
  exists st',
    timsortImpl less_int (fun x => x) 0 by_reference 5 (initial [1; 2; 2; 3]) = Some (tt, st') /\
    arr st' = [1; 2; 2; 3] /\ ncomp st' = length [1; 2; 2; 3] /\ buffer st' = [].
Proof.
  assert (H : Sorted (le_ less_int) [1; 2; 2; 3]) by (repeat constructor).
  split; [exact H|].
  apply (timsort_sorted_linear less_int (fun x => x) 0 by_reference 5 [1; 2; 2; 3]).
  - exact H.
  - simpl. lia.
  - by vm_compute.
  - simpl. lia.
Defined.

Lemma timsort_descending_reversed_witness :
  Sorted (flip (lt_ less_int)) [4; 3; 2; 1] /\
  exists st',
    timsortImpl less_int (fun x => x) 0 by_reference 5 (initial [4; 3; 2; 1]) = Some (tt, st') /\
    arr st' = reverse [4; 3; 2; 1] /\ ncomp st' = length [4; 3; 2; 1] /\
    buffer st' = [].
Proof.
  assert (H : Sorted (flip (lt_ less_int)) [4; 3; 2; 1]) by (repeat constructor).
  split; [exact H|].
  apply (timsort_descending_reversed less_int (fun x => x) 0 by_reference 5 [4; 3; 2; 1]).
  - exact H.
  - simpl. lia.
  - by vm_compute.
  - simpl. lia.
Defined.

Lemma timsort_short_single_run_witness :
  exists st',
    timsortImpl less_int (fun x => x) 0 by_reference 6 (initial [5; 3; 4; 1; 2]) = Some (tt, st') /\
    runStack st' = [Run.mk 0 (length [5; 3; 4; 1; 2])] /\
    stackLog st' = [[Run.mk 0 (length [5; 3; 4; 1; 2])]; []] /\
    buffer st' = [].
Proof.
  apply (timsort_short_single_run less_int (fun x => x) 0 by_reference 6 [5; 3; 4; 1; 2]).
  - simpl. lia.
  - by vm_compute.
  - simpl. lia.
Defined.

Lemma timsort_stable_short_witness :
  strict_weak_order by_first /\
  exists out,
    timsort by_first (fun x => x) (0, 0) by_reference 4 [(1, 0); (0, 1); (0, 2)] = Some out /\
    same_order by_first [(1, 0); (0, 1); (0, 2)] out.
Proof.
  split; [exact swo_by_first|].
  apply (timsort_stable_short by_first (fun x => x) (0, 0) by_reference 4
           [(1, 0); (0, 1); (0, 2)]).
  - reflexivity.
  - exact swo_by_first.
  - exact copyable_id.
  - by vm_compute.
  - simpl. lia.
Defined.

Lemma timsort_idempotent_copyable_witness :
  timsort less_int (fun x => x) 0 by_reference 6 [5; 3; 4; 1; 2] = Some [1; 2; 3; 4; 5] /\
  timsort less_int (fun x => x) 0 by_reference 6 [1; 2; 3; 4; 5] = Some [1; 2; 3; 4; 5].
Proof.
  split; [by vm_compute|].
  apply (timsort_idempotent_copyable less_int (fun x => x) 0 by_reference 6
           [5; 3; 4; 1; 2] [1; 2; 3; 4; 5]).
  - exact copyable_id.
  - exact asymmetric_less_int.
  - simpl. lia.
  - by vm_compute.
Defined.

Lemma detectRun_comparisons_witness :
  detectRun less_int (fun x => x) 6 5 0 (State [5; 3; 4; 1; 2] [] [] 0 []) =
    Some (2, State [3; 5; 4; 1; 2] [] [] 3 []) /\
  3 = 0 + 2 + (if 0 + 2 <? 5 then 1 else 0).
Proof.
  split; [by vm_compute|].
  apply (detectRun_comparisons less_int (fun x => x) 6 5 0
           (State [5; 3; 4; 1; 2] [] [] 0 []) 2 (State [3; 5; 4; 1; 2] [] [] 3 [])).
  - lia.
  - by vm_compute.
Defined.

Lemma binaryInsertionSort_sorts_witness :
  exists st',
    binaryInsertionSort less_int (fun x => x) by_reference 5 1 5
      (State [9; 5; 3; 4; 1; 7] [] [] 0 []) = Some (tt, st') /\
    take 1 (arr st') = [9] /\ drop 5 (arr st') = [7] /\
    length (arr st') = 6 /\
    (copyable (fun x : nat => x) -> asymmetric less_int ->
       Sorted (le_ less_int) (slice 1 5 (arr st'))) /\
    (@by_reference nat (fun x => x) = by_reference -> copyable (fun x : nat => x) ->
       slice 1 5 (arr st') ≡ₚ [5; 3; 4; 1]).
Proof.
  apply (binaryInsertionSort_sorts less_int (fun x => x) by_reference 5 1 5
           (State [9; 5; 3; 4; 1; 7] [] [] 0 [])).
  - lia.
  - simpl. lia.
  - lia.
Defined.

Lemma binaryInsertionSort_stable_witness :
  exists st',
    binaryInsertionSort by_first (fun x => x) by_reference 4 0 3
      (State [(1, 0); (0, 1); (0, 2)] [] [] 0 []) = Some (tt, st') /\
    same_order by_first [(1, 0); (0, 1); (0, 2)] (slice 0 3 (arr st')).
Proof.
  apply (binaryInsertionSort_stable by_first (fun x => x) by_reference 4 0 3
           (State [(1, 0); (0, 1); (0, 2)] [] [] 0 [])).
  - reflexivity.
  - exact swo_by_first.
  - exact copyable_id.
  - lia.
  - simpl. lia.
  - lia.
Defined.

Lemma binaryInsertionSort_comparisons_witness :
  exists st',
    binaryInsertionSort less_int (fun x => x) by_reference 5 1 5
      (State [9; 5; 3; 4; 1; 7] [] [] 0 []) = Some (tt, st') /\
    0 <= ncomp st' /\ ncomp st' <= 0 + (5 - 1 - 1) * digits (5 - 1 - 1) /\
    buffer st' = [] /\ runStack st' = [].
Proof.
  apply (binaryInsertionSort_comparisons less_int (fun x => x) by_reference 5 1 5
           (State [9; 5; 3; 4; 1; 7] [] [] 0 [])).
  - lia.
  - simpl. lia.
  - lia.
Defined.

Lemma mergeRuns_merges_witness :
  exists st',
    mergeRuns less_int (fun x => x) 0 5 0 2 4 (State [1; 4; 2; 3] [] [] 0 []) =
      Some (tt, st') /\
    take 0 (arr st') = [] /\ drop 4 (arr st') = [] /\
    slice 0 4 (arr st') = merge_lists less_int [1; 4] [2; 3] /\
    slice 0 4 (arr st') ≡ₚ [1; 4; 2; 3] /\
    runStack st' = [].
Proof.
  apply (mergeRuns_merges less_int (fun x => x) 0 5 0 2 4
           (State [1; 4; 2; 3] [] [] 0 [])); simpl; lia.
Defined.

Lemma mergeRuns_sorted_witness :
  exists st',
    mergeRuns less_int (fun x => x) 0 5 0 2 4 (State [1; 4; 2; 3] [] [] 0 []) =
      Some (tt, st') /\
    Sorted (le_ less_int) (slice 0 4 (arr st')).
Proof.
  apply (mergeRuns_sorted less_int (fun x => x) 0 5 0 2 4
           (State [1; 4; 2; 3] [] [] 0 [])).
  - exact asymmetric_less_int.
  - repeat constructor.
  - repeat constructor.
  - lia.
  - lia.
  - simpl. lia.
  - lia.
Defined.

Lemma mergeRuns_comparisons_witness :
  exists st',
    mergeRuns less_int (fun x => x) 0 5 0 2 4 (State [1; 4; 2; 3] [] [] 0 []) =
      Some (tt, st') /\
    0 <= ncomp st' /\ ncomp st' - 0 <= 4 - 0 - 1.
Proof.
  apply (mergeRuns_comparisons less_int (fun x => x) 0 5 0 2 4
           (State [1; 4; 2; 3] [] [] 0 [])); simpl; lia.
Defined.

Lemma mergeRuns_empty_run_witness :
  exists st',
    mergeRuns by_size emptied [] 3 1 1 3 (State [[1]; [2; 2]; [3]] [] [] 0 []) =
      Some (tt, st') /\
    arr st' = [[1]; [2; 2]; [3]] /\ ncomp st' = 0.
Proof.
  apply (mergeRuns_empty_run by_size emptied [] 3 1 1 3
           (State [[1]; [2; 2]; [3]] [] [] 0 [])).
  - by left.
  - lia.
  - lia.
  - simpl. lia.
  - lia.
Defined.

Lemma quickSort_permutes_witness :
  exists st',
    quickSort by_size emptied 4 0 3 (State [[2; 2]; [1]; []] [] [] 0 []) =
      Some (tt, st') /\
    take 0 (arr st') = [] /\ drop 3 (arr st') = [] /\
    slice 0 3 (arr st') ≡ₚ [[2; 2]; [1]; []] /\
    buffer st' = [] /\ runStack st' = [].
Proof.
  apply (quickSort_permutes by_size emptied 4 0 3
           (State [[2; 2]; [1]; []] [] [] 0 [])); simpl; lia.
Defined.

Lemma quickSort_sorts_witness :
  exists st',
    quickSort loses_to (fun x => x) 5 0 4
      (State [Rock; Scissors; Paper; Rock] [] [] 0 []) = Some (tt, st') /\
    Sorted (le_ loses_to) (slice 0 4 (arr st')) /\
    (strict_weak_order loses_to -> StronglySorted (le_ loses_to) (slice 0 4 (arr st'))).
Proof.
  apply (quickSort_sorts loses_to (fun x => x) 5 0 4
           (State [Rock; Scissors; Paper; Rock] [] [] 0 [])).
  - exact asymmetric_loses_to.
  - lia.
  - simpl. lia.
  - lia.
Defined.

Lemma quickSort_comparisons_witness :
  exists st',
    quickSort less_int (fun x => x) 4 0 3 (State [3; 1; 2] [] [] 0 []) =
      Some (tt, st') /\
    0 <= ncomp st' /\ 2 * (ncomp st' - 0) <= (3 - 0) * (3 - 0 - 1).
Proof.
  apply (quickSort_comparisons less_int (fun x => x) 4 0 3
           (State [3; 1; 2] [] [] 0 [])); simpl; lia.
Defined.

Lemma quickSort_ascending_quadratic_witness :
  exists st',
    quickSort less_int (fun x => x) 5 0 4 (State [1; 2; 3; 4] [] [] 0 []) =
      Some (tt, st') /\
    arr st' = [1; 2; 3; 4] /\
    0 <= ncomp st' /\ 2 * (ncomp st' - 0) = (4 - 0) * (4 - 0 - 1).
Proof.
  apply (quickSort_ascending_quadratic less_int (fun x => x) 5 0 4
           (State [1; 2; 3; 4] [] [] 0 [])).
  - intros a b c. unfold less_int. rewrite !Nat.ltb_lt. lia.
  - repeat constructor.
  - lia.
  - simpl. lia.
  - lia.
Defined.

Lemma quickSort_timsort_agree_witness :
  exists out,
    timsort less_int (fun x => x) 0 by_reference 6 [5; 3; 4; 1; 2] = Some out /\
    quickSort_all less_int (fun x => x) 6 [5; 3; 4; 1; 2] = Some out.
Proof.
  apply (quickSort_timsort_agree less_int (fun x => x) 0 by_reference 6
           [5; 3; 4; 1; 2]).
  - reflexivity.
  - exact swo_less_int.
  - exact total_less_int.
  - exact copyable_id.
  - by vm_compute.
  - simpl. lia.
Defined.



Lemma timsort_reversed_data_witness :
  exists st',
    timsortImpl less_Z (fun x => x) 0%Z by_reference 5
      (initial (generateReversedData [0; 0; 0; 0]%Z)) = Some (tt, st') /\
    arr st' = map Z.of_nat (seq 1 (length [0; 0; 0; 0]%Z)) /\
    ncomp st' = length [0; 0; 0; 0]%Z.
Proof.
  apply (timsort_reversed_data 5 [0; 0; 0; 0]%Z).
  - simpl. lia.
  - by vm_compute.
  - simpl. lia.
Defined.

Lemma nothing_below_emptied (x y : list nat) : by_size x (emptied y) = false.
Proof. done. Qed.

Lemma binaryInsertionSort_moved_from_witness :
  exists st',
    binaryInsertionSort by_size emptied by_reference 4 0 3
      (State [[1]; [2; 2]; [3; 3; 3]] [] [] 0 []) = Some (tt, st') /\
    arr st' = [] ++ [1] :: (emptied <$> [[2; 2]; [3; 3; 3]]) ++ [].
Proof.
  apply (binaryInsertionSort_moved_from by_size emptied by_reference 4 0 3
           (State [[1]; [2; 2]; [3; 3; 3]] [] [] 0 []) [1] [[2; 2]; [3; 3; 3]]).
  - exact nothing_below_emptied.
  - done.
  - by repeat constructor.
  - simpl. lia.
  - lia.
Defined.

Lemma binaryInsertionSort_proxy_pair_witness :
  exists st',
    binaryInsertionSort less_bool (fun b => b) vector_bool 3 0 (0 + 2)
      (State [true; false] [] [] 0 []) = Some (tt, st') /\
    arr st' = take 0 [true; false] ++
              [true; if less_bool false true then true else false] ++
              drop (0 + 2) [true; false].
Proof.
  apply (binaryInsertionSort_proxy_pair less_bool (fun b => b) vector_bool
           two_bits copy_bit 3 0 (State [true; false] [] [] 0 []) true false).
  - reflexivity.
  - reflexivity.
  - simpl. lia.
  - lia.
Defined.
